(** * pymongo/pool.py: connection pool, framing and authentication
      reconciliation

    A shallow embedding of [pymongo/pool.py].  Python objects that are
    mutated through references ([SocketInfo] instances, the [Pool]) live in
    an explicit store; every method is a state transformer that may return,
    raise, or never return.  Collaborators the file only calls (the OS
    socket layer, the resolver, TLS, [auth], the semaphore of
    [thread_util], the clock, [os.getpid]) are scripted by fields of the
    state, so that every behaviour they can show is some value of the
    script. *)

From Stdlib Require Import ZArith String List Lia.
From Stdlib.Strings Require Import Byte.
From stdpp Require Import base option list gmap sets strings functions pretty.

Open Scope Z_scope.
#[local] Set Warnings "-clear-no-such-hyp".

(** ** Exceptions and outcomes *)

(** The exception classes that [pool.py] raises, catches or lets through.
    [AutoReconnect] is a subclass of [ConnectionFailure] in
    [pymongo.errors]; [socket.timeout], [socket.gaierror] and the ssl
    errors are subclasses of [socket.error], which is itself an
    [IOError]. *)
Inductive exn : Type :=
| SocketError (msg : string)
| IOError (msg : string)
| ConnectionFailure (msg : string)
| AutoReconnect (msg : string)
| OperationFailure (msg : string)
| CertificateError (msg : string)
| ExceededMaxWaiters
| AssertionError (msg : string)
| ValueError (msg : string)
| StructError (msg : string)
| KeyError (msg : string)
| OtherException (name msg : string).

Definition is_socket_error (e : exn) : bool :=
  match e with SocketError _ => true | _ => false end.

Definition is_IOError (e : exn) : bool :=
  match e with SocketError _ | IOError _ => true | _ => false end.

Definition is_ConnectionFailure (e : exn) : bool :=
  match e with ConnectionFailure _ | AutoReconnect _ => true | _ => false end.

Definition is_CertificateError (e : exn) : bool :=
  match e with CertificateError _ => true | _ => false end.

Definition is_AssertionError (e : exn) : bool :=
  match e with AssertionError _ => true | _ => false end.

(** How a call ends: it returns a value, raises, or does not return at all
    (a blocking call that is never woken; a loop that exhausts its fuel). *)
Inductive result (A : Type) : Type :=
| Ok (a : A)
| Raise (e : exn)
| Hang.
Arguments Ok {A} a.
Arguments Raise {A} e.
Arguments Hang {A}.

(** State and exceptions.  The state survives a raise: Python keeps every
    mutation made before the exception. *)
Definition M (S A : Type) : Type := S → result A * S.

Definition ret {S A} (a : A) : M S A := λ s, (Ok a, s).
Definition raise {S A} (e : exn) : M S A := λ s, (Raise e, s).
Definition hang {S A} : M S A := λ s, (Hang, s).
Definition bind {S A B} (m : M S A) (k : A → M S B) : M S B :=
  λ s, match m s with
       | (Ok a, s') => k a s'
       | (Raise e, s') => (Raise e, s')
       | (Hang, s') => (Hang, s')
       end.
Definition gets {S A} (f : S → A) : M S A := λ s, (Ok (f s), s).
Definition modify {S} (f : S → S) : M S unit := λ s, (Ok tt, f s).

(** [try: m except: handler] *)
Definition try_except {S A} (m : M S A) (handler : exn → M S A) : M S A :=
  λ s, match m s with
       | (Raise e, s') => handler e s'
       | r => r
       end.

(** [try: m except: handler else: orelse]; exceptions of [orelse] are
    not seen by [handler]. *)
Definition try_except_else {S A B} (m : M S A) (handler : exn → M S B)
    (orelse : A → M S B) : M S B :=
  λ s, match m s with
       | (Ok a, s') => orelse a s'
       | (Raise e, s') => handler e s'
       | (Hang, s') => (Hang, s')
       end.

(** Run a computation on a component of the state. *)
Definition zoom {S T A} (get : S → T) (set : T → S → S) (m : M T A) : M S A :=
  λ s, let '(r, t) := m (get s) in (r, set t s).

Declare Scope py_scope.
Delimit Scope py_scope with py.
Notation "'let*' x ':=' m 'in' k" := (bind m (λ x, k))
  (at level 10, x pattern, m at level 100, k at level 200) : py_scope.
Notation "m ';;;' k" := (bind m (λ _, k))
  (at level 100, k at level 200, right associativity) : py_scope.
Open Scope py_scope.

Definition assert_ {S} (b : bool) (msg : string) : M S unit :=
  if b then ret tt else raise (AssertionError msg).

(** ** Bytes and [struct.unpack("<i", _)] *)

Abbreviation bytes := (list byte).

Definition len {A} (l : list A) : Z := Z.of_nat (length l).

(** Little-endian unsigned value of a byte string. *)
Fixpoint le_unsigned (bs : bytes) : Z :=
  match bs with
  | [] => 0
  | b :: rest => Z.of_N (Byte.to_N b) + 256 * le_unsigned rest
  end.

(** [struct.unpack("<i", bs)[0]]: a signed 32-bit little-endian integer;
    [struct.error] unless [bs] has exactly four bytes. *)
Definition struct_unpack_i {S} (bs : bytes) : M S Z :=
  if decide (length bs = 4%nat) then
    let u := le_unsigned bs in
    ret (if u <? 2 ^ 31 then u else u - 2 ^ 32)
  else raise (StructError "unpack requires a string argument of length 4").

(** ** The OS socket *)

(** What the peer and the kernel will deliver to successive [recv]s: a
    segment of bytes, or an error.  The end of the script is the end of the
    stream. *)
Inductive wire_event : Type :=
| Chunk (data : bytes)
| RecvFault (e : exn).

Inductive family : Type := AF_INET | AF_INET6 | AF_UNSPEC | AF_UNIX.

Inductive sockaddr : Type :=
| InetAddr (host : string) (port : Z)
| UnixPath (path : string).

Record socket : Type := mk_socket {
  fd : nat;
  sock_family : family;
  peername : option sockaddr;
  inbox : list wire_event;
  send_faults : list (option exn);
  outbox : list bytes;
  select_result : result bool;
  timeout : option Z;
  sock_closed : bool
}.

Definition set_inbox (i : list wire_event) (s : socket) : socket :=
  mk_socket (fd s) (sock_family s) (peername s) i (send_faults s) (outbox s) (select_result s)
            (timeout s) (sock_closed s).

(** [sock.recv(length)]: at most [length] bytes of the next segment;
    the empty byte string at the end of the stream. *)
Definition sock_recv (length : Z) : M socket bytes :=
  λ s,
    if length <? 0 then (Raise (ValueError "negative buffersize in recv"), s)
    else match inbox s with
         | [] => (Ok [], s)
         | RecvFault e :: rest => (Raise e, set_inbox rest s)
         | Chunk data :: rest =>
             if (List.length data <=? Z.to_nat length)%nat
             then (Ok data, set_inbox rest s)
             else (Ok (take (Z.to_nat length) data),
                   set_inbox (Chunk (drop (Z.to_nat length) data) :: rest) s)
         end.

(** [sock.sendall(message)] *)
Definition sock_sendall (message : bytes) : M socket unit :=
  λ s,
    match send_faults s with
    | Some e :: rest =>
        (Raise e, mk_socket (fd s) (sock_family s) (peername s) (inbox s) rest (outbox s)
                            (select_result s) (timeout s) (sock_closed s))
    | None :: rest =>
        (Ok tt, mk_socket (fd s) (sock_family s) (peername s) (inbox s) rest (outbox s ++ [message])
                          (select_result s) (timeout s) (sock_closed s))
    | [] =>
        (Ok tt, mk_socket (fd s) (sock_family s) (peername s) (inbox s) [] (outbox s ++ [message])
                          (select_result s) (timeout s) (sock_closed s))
    end.

(** [sock.close()] *)
Definition sock_close (s : socket) : socket :=
  mk_socket (fd s) (sock_family s) (peername s) (inbox s) (send_faults s) (outbox s) (select_result s)
            (timeout s) true.

(** [sock.connect(address)], once the network has accepted it. *)
Definition sock_connected (address : sockaddr) (s : socket) : socket :=
  mk_socket (fd s) (sock_family s) (Some address) (inbox s) (send_faults s)
            (outbox s) (select_result s) (timeout s) (sock_closed s).

(** [sock.settimeout(t)] *)
Definition sock_settimeout (t : option Z) (s : socket) : socket :=
  mk_socket (fd s) (sock_family s) (peername s) (inbox s) (send_faults s) (outbox s) (select_result s)
            t (sock_closed s).

(** [_closed(sock)]: true if [select] raises or reports the socket
    readable. *)
Definition _closed (sock : socket) : bool :=
  match select_result sock with
  | Ok rd => rd
  | _ => true
  end.

(** ** Credentials *)

(** Modelled from the spec: the [MongoCredential] tuple of [pymongo.auth],
    which is missing from the sources; credentials are "compared by identity
    of (source, mechanism, user, key-material-hash)". *)
Record MongoCredential : Type := mk_credential {
  mechanism : string;
  source : string;
  username : string;
  password : string
}.

Global Instance MongoCredential_eq_dec : EqDecision MongoCredential.
Proof. solve_decision. Defined.

Global Instance MongoCredential_countable : Countable MongoCredential.
Proof.
  refine (inj_countable'
            (λ c, (mechanism c, source c, username c, password c))
            (λ p, mk_credential p.1.1.1 p.1.1.2 p.1.2 p.2) _).
  by intros [].
Defined.

(** ** SocketInfo *)

Module SocketInfo.
Record t : Type := mk {
  sock : socket;
  host : string;
  authset : gset MongoCredential;
  closed : bool;
  last_checkout : Z;
  _min_wire_version : option Z;
  _max_wire_version : option Z;
  pool_id : Z
}.

Definition set_sock (s : socket) (x : t) : t :=
  mk s (host x) (authset x) (closed x) (last_checkout x)
     (_min_wire_version x) (_max_wire_version x) (pool_id x).
Definition set_authset (a : gset MongoCredential) (x : t) : t :=
  mk (sock x) (host x) a (closed x) (last_checkout x)
     (_min_wire_version x) (_max_wire_version x) (pool_id x).
Definition set_closed (b : bool) (x : t) : t :=
  mk (sock x) (host x) (authset x) b (last_checkout x)
     (_min_wire_version x) (_max_wire_version x) (pool_id x).
Definition set_last_checkout (c : Z) (x : t) : t :=
  mk (sock x) (host x) (authset x) (closed x) c
     (_min_wire_version x) (_max_wire_version x) (pool_id x).
End SocketInfo.

(** [SocketInfo.__init__(sock, pool, host)], with the clock reading and the
    pool's [pool_id] passed in. *)
Definition SocketInfo_init (sock : socket) (pool_pool_id : Z) (host : string)
    (now : Z) : SocketInfo.t :=
  SocketInfo.mk sock host ∅ false now None None pool_pool_id.

(** [SocketInfo.close] *)
Definition close (self : SocketInfo.t) : SocketInfo.t :=
  let self := SocketInfo.set_closed true self in
  SocketInfo.set_sock (sock_close (SocketInfo.sock self)) self.

(** [SocketInfo.set_wire_version_range] *)
Definition set_wire_version_range (min_wire_version max_wire_version : Z)
    (self : SocketInfo.t) : SocketInfo.t :=
  SocketInfo.mk (SocketInfo.sock self) (SocketInfo.host self)
    (SocketInfo.authset self) (SocketInfo.closed self)
    (SocketInfo.last_checkout self)
    (Some min_wire_version) (Some max_wire_version) (SocketInfo.pool_id self).

(** The [min_wire_version] and [max_wire_version] properties. *)
Definition min_wire_version : M SocketInfo.t Z :=
  λ self, match SocketInfo._min_wire_version self with
          | Some v => (Ok v, self)
          | None => (Raise (AssertionError EmptyString), self)
          end.
Definition max_wire_version : M SocketInfo.t Z :=
  λ self, match SocketInfo._max_wire_version self with
          | Some v => (Ok v, self)
          | None => (Raise (AssertionError EmptyString), self)
          end.

(** A computation on [self.sock]. *)
Definition on_sock {A} (m : M socket A) : M SocketInfo.t A :=
  zoom SocketInfo.sock SocketInfo.set_sock m.

(** [SocketInfo.send_message] *)
Definition send_message (message : bytes) : M SocketInfo.t unit :=
  try_except
    (on_sock (sock_sendall message))
    (λ e, modify close ;;; raise e).

(** The loop of [SocketInfo.__receive_data_on_socket].  Every iteration
    that continues has received at least one byte and at most [length], so
    [length] iterations are enough; [fuel] bounds them. *)
Fixpoint receive_data_loop (fuel : nat) (length : Z) (message : bytes)
    : M SocketInfo.t bytes :=
  if length =? 0 then ret message
  else match fuel with
       | O => hang
       | S fuel' =>
           let* chunk := on_sock (sock_recv length) in
           if decide (chunk = [])
           then raise (AutoReconnect "connection closed")
           else receive_data_loop fuel' (length - len chunk) (message ++ chunk)
       end.

(** [SocketInfo.__receive_data_on_socket] *)
Definition __receive_data_on_socket (length : Z) : M SocketInfo.t bytes :=
  receive_data_loop (S (Z.to_nat length)) length [].

(** [SocketInfo.receive_message]; [request_id] is [None] for the "getMore"
    of an exhaust cursor. *)
Definition receive_message (operation : Z) (request_id : option Z)
    : M SocketInfo.t bytes :=
  try_except
    (let* header := __receive_data_on_socket 16 in
     let* length := struct_unpack_i (take 4 header) in
     (match request_id with
      | Some request_id =>
          let* response_id := struct_unpack_i (take 4 (drop 8 header)) in
          assert_ (request_id =? response_id)
                  ("ids don't match " ++ pretty request_id ++ " "
                                      ++ pretty response_id)
      | None => ret tt
      end) ;;;
     let* opcode := struct_unpack_i (drop 12 header) in
     assert_ (operation =? opcode) EmptyString ;;;
     __receive_data_on_socket (length - 16))
    (λ e, modify close ;;; raise e).

(** ** Python sets *)

(** The order in which Python visits a set is unspecified.  [order] is a
    priority list chosen by the environment: members of [X] listed in it
    come first, in that order, the others follow.  Every enumeration of
    [X] without repetition is [set_iter l X] for some [l] (take [l] to be
    the enumeration itself). *)
Definition set_iter `{Countable A} (order : list A) (X : gset A) : list A :=
  filter (λ x, x ∈ X) (remove_dups order)
  ++ filter (λ x, x ∉ order) (elements X).

(** ** Pool options, the semaphore, the pool *)

Record SSLContext : Type := mk_ssl_context {
  verify_mode : bool
}.

Module PoolOptions.
Record t : Type := mk {
  max_pool_size : option Z;
  connect_timeout : option Z;
  socket_timeout : option Z;
  wait_queue_timeout : option Z;
  wait_queue_multiple : option Z;
  ssl_context : option SSLContext;
  socket_keepalive : bool
}.
End PoolOptions.

(** Modelled from the spec: the semaphore built by
    [thread_util.create_semaphore], which is missing from the sources.  It
    is "initialized to [max_pool_size] permits (or unbounded) with waiter
    cap from options"; [blocked] is the number of callers of other threads
    that are blocked in [acquire]. *)
Module Semaphore.
Record t : Type := mk {
  permits : option Z;
  waiter_cap : option Z;
  blocked : Z
}.
End Semaphore.

(** Modelled from the spec: [thread_util.create_semaphore(max_size,
    max_waiters)], with nobody waiting yet. *)
Definition create_semaphore (max_size max_waiters : option Z) : Semaphore.t :=
  Semaphore.mk max_size max_waiters 0.

(** Modelled from the spec: "[acquire(timeout) → bool]: returns true on
    permit granted within [timeout], false on timeout.  If a waiter cap is
    configured and the number of blocked callers already equals the cap,
    acquisition fails immediately with an overflow error distinct from
    timeout."  In a sequential run nobody releases while the caller waits:
    without a permit the call times out, or never returns when there is no
    timeout. *)
Definition semaphore_acquire (timeout : option Z) : M Semaphore.t bool :=
  λ sem,
    if match Semaphore.waiter_cap sem with
       | Some cap => Semaphore.blocked sem =? cap
       | None => false
       end
    then (Raise ExceededMaxWaiters, sem)
    else match Semaphore.permits sem with
         | None => (Ok true, sem)
         | Some n =>
             if 0 <? n
             then (Ok true, Semaphore.mk (Some (n - 1))
                                         (Semaphore.waiter_cap sem)
                                         (Semaphore.blocked sem))
             else match timeout with
                  | Some _ => (Ok false, sem)
                  | None => (Hang, sem)
                  end
         end.

(** Modelled from the spec: [release()] gives one permit back. *)
Definition semaphore_release (sem : Semaphore.t) : Semaphore.t :=
  Semaphore.mk (Z.succ <$> Semaphore.permits sem)
               (Semaphore.waiter_cap sem) (Semaphore.blocked sem).

Module Pool.
Record t : Type := mk {
  _check_interval_seconds : option Z;
  sockets : gset nat;
  pool_id : Z;
  pid : Z;
  pair : string * Z;
  opts : PoolOptions.t;
  _socket_semaphore : Semaphore.t
}.

Definition set_sockets (s : gset nat) (p : t) : t :=
  mk (_check_interval_seconds p) s (pool_id p) (pid p) (pair p) (opts p)
     (_socket_semaphore p).
Definition set_pool_id (i : Z) (p : t) : t :=
  mk (_check_interval_seconds p) (sockets p) i (pid p) (pair p) (opts p)
     (_socket_semaphore p).
Definition set_pid (i : Z) (p : t) : t :=
  mk (_check_interval_seconds p) (sockets p) (pool_id p) i (pair p) (opts p)
     (_socket_semaphore p).
Definition set_semaphore (s : Semaphore.t) (p : t) : t :=
  mk (_check_interval_seconds p) (sockets p) (pool_id p) (pid p) (pair p)
     (opts p) s.
End Pool.

(** [Pool.__init__(pair, options)], with [os.getpid()] passed in. *)
Definition Pool_init (pair : string * Z) (options : PoolOptions.t)
    (getpid : Z) : Pool.t :=
  let max_waiters :=
    match PoolOptions.wait_queue_multiple options,
          PoolOptions.max_pool_size options with
    | Some multiple, Some size => Some (size * multiple)
    | _, _ => None
    end in
  Pool.mk (Some 1) ∅ 0 getpid pair options
          (create_semaphore (PoolOptions.max_pool_size options) max_waiters).

(** ** The world around the pool *)

(** One result of [socket.getaddrinfo]. *)
Record addrinfo : Type := mk_addrinfo {
  af : family;
  socktype : Z;
  proto : Z;
  canonname : string;
  sa : sockaddr
}.

(** The platform and the network: what [socket], the resolver and TLS
    answer. *)
Record Net : Type := mk_net {
  has_AF_UNIX : bool;
  has_ipv6 : bool;
  getaddrinfo : string → Z → family → result (list addrinfo);
  socket_fault : family → option exn;
  connect_fault : sockaddr → option exn;
  wrap_socket_fault : nat → option exn;
  match_hostname_fault : nat → string → option exn;
  peer_inbox : nat → list wire_event;
  peer_send_faults : nat → list (option exn);
  peer_select : nat → result bool
}.

(** Modelled from the spec: the external calls
    [auth.authenticate(credentials, sock_info)] and
    [auth.logout(source, sock_info)] of [pymongo.auth], which is missing
    from the sources.  "The core only invokes" them; they are handed the
    connection, talk to the server over it with the connection's own
    methods, read its wire-version range ("queried by auth code"), and "any
    external failure propagates" ([check_auth] documents [socket.error] and
    [OperationFailure]).  What one call does is the environment's: a
    sequence of steps on the connection and, if every step returns, the
    verdict of the call, which returns or raises an error of its own. *)
Inductive auth_step : Type :=
| AuthSend (message : bytes)
| AuthReceive (operation : Z) (request_id : option Z)
| AuthWireVersion.

Record auth_call : Type := mk_auth_call {
  auth_steps : list auth_step;
  auth_verdict : option exn
}.

(** What the trace records: the semaphore traffic, the resets and the
    calls into [auth]. *)
Inductive event : Type :=
| EvReset
| EvAcquire (granted : bool)
| EvRelease
| EvLogout (source : string) (sock_info : nat)
| EvAuthenticate (credentials : MongoCredential) (sock_info : nat).

(** The pool, the store of [SocketInfo] objects (a reference is the
    descriptor of the wrapped socket: every [SocketInfo] wraps a socket of
    its own, so that [__eq__] and [__hash__], which compare the sockets,
    compare references; the store is total, a reference always denotes an
    object), and the environment: the process id, the clock, the network,
    what the calls into [auth] will do, and the orders in which Python
    visits the sets of credentials and of connections. *)
Record World : Type := mk_world {
  pool : Pool.t;
  heap : nat → SocketInfo.t;
  getpid : Z;
  now : Z;
  net : Net;
  next_fd : nat;
  auth_script : list auth_call;
  cred_order : list MongoCredential;
  ref_order : list nat;
  log : list event
}.

Definition set_pool (p : Pool.t) (w : World) : World :=
  mk_world p (heap w) (getpid w) (now w) (net w) (next_fd w) (auth_script w)
           (cred_order w) (ref_order w) (log w).
Definition set_heap (h : nat → SocketInfo.t) (w : World) : World :=
  mk_world (pool w) h (getpid w) (now w) (net w) (next_fd w) (auth_script w)
           (cred_order w) (ref_order w) (log w).
Definition set_next_fd (n : nat) (w : World) : World :=
  mk_world (pool w) (heap w) (getpid w) (now w) (net w) n (auth_script w)
           (cred_order w) (ref_order w) (log w).
Definition set_auth_script (a : list auth_call) (w : World) : World :=
  mk_world (pool w) (heap w) (getpid w) (now w) (net w) (next_fd w) a
           (cred_order w) (ref_order w) (log w).
Definition emit (e : event) (w : World) : World :=
  mk_world (pool w) (heap w) (getpid w) (now w) (net w) (next_fd w)
           (auth_script w) (cred_order w) (ref_order w) (log w ++ [e]).

(** Update the object behind a reference. *)
Definition update (r : nat) (f : SocketInfo.t → SocketInfo.t) (w : World)
    : World :=
  set_heap (<[r := f (heap w r)]> (heap w)) w.

(** A [SocketInfo] method run on the object behind a reference. *)
Definition on_ref {A} (r : nat) (m : M SocketInfo.t A) : M World A :=
  zoom (λ w, heap w r) (λ x w, set_heap (<[r := x]> (heap w)) w) m.

(** [for x in l: body(x)] *)
Fixpoint for_each {S A} (l : list A) (body : A → M S unit) : M S unit :=
  match l with
  | [] => ret tt
  | x :: rest => body x ;;; for_each rest body
  end.

(** [_time()]: the monotonic clock, read in whole units (the source
    reads seconds as a float); it moves only when the environment moves
    it. *)
Definition _time : M World Z := gets now.

(** [self._socket_semaphore.acquire(True, timeout)] *)
Definition _socket_semaphore_acquire (timeout : option Z) : M World bool :=
  let* granted :=
    zoom (λ w, Pool._socket_semaphore (pool w))
         (λ s w, set_pool (Pool.set_semaphore s (pool w)) w)
         (semaphore_acquire timeout) in
  modify (emit (EvAcquire granted)) ;;;
  ret granted.

(** [self._socket_semaphore.release()] *)
Definition _socket_semaphore_release : M World unit :=
  modify (λ w, emit EvRelease
                 (set_pool (Pool.set_semaphore
                              (semaphore_release
                                 (Pool._socket_semaphore (pool w)))
                              (pool w)) w)).

(** ** Authentication *)

(** Modelled from the spec: one step of an external call, made with the
    methods of the connection it was handed. *)
Definition auth_step_run (step : auth_step) : M SocketInfo.t unit :=
  match step with
  | AuthSend message => send_message message
  | AuthReceive operation request_id =>
      receive_message operation request_id ;;; ret tt
  | AuthWireVersion => min_wire_version ;;; max_wire_version ;;; ret tt
  end.

(** Modelled from the spec: the next external call on [sock_info].  It
    makes its steps on the connection; an exception of a step propagates
    (the method that raised it has closed the connection, if it closes on
    that); after the steps comes the verdict.  When the script is over, a
    call does nothing and returns. *)
Definition auth_answer (sock_info : nat) : M World unit :=
  λ w, match auth_script w with
       | call :: rest =>
           (on_ref sock_info (for_each (auth_steps call) auth_step_run) ;;;
            match auth_verdict call with
            | Some e => raise e
            | None => ret tt
            end) (set_auth_script rest w)
       | [] => (Ok tt, w)
       end.

(** Modelled from the spec: [auth.logout(source, sock_info)] *)
Definition auth_logout (source : string) (sock_info : nat) : M World unit :=
  modify (emit (EvLogout source sock_info)) ;;; auth_answer sock_info.

(** Modelled from the spec: [auth.authenticate(credentials, sock_info)] *)
Definition auth_authenticate (credentials : MongoCredential) (sock_info : nat)
    : M World unit :=
  modify (emit (EvAuthenticate credentials sock_info)) ;;;
  auth_answer sock_info.

(** [set(itervalues(all_credentials))] *)
Definition itervalues_set (all_credentials : gmap string MongoCredential)
    : gset MongoCredential :=
  list_to_set (map_to_list all_credentials).*2.

(** [SocketInfo.check_auth] *)
Definition check_auth (self : nat)
    (all_credentials : gmap string MongoCredential) : M World unit :=
  let* authset0 := gets (λ w, SocketInfo.authset (heap w self)) in
  if bool_decide (all_credentials ≠ ∅) || bool_decide (authset0 ≠ ∅) then
    let cached := itervalues_set all_credentials in
    let authset := authset0 in
    let* order := gets cred_order in
    for_each (set_iter order (authset ∖ cached))
      (λ credentials,
         auth_logout (source credentials) self ;;;
         modify (update self (λ x,
           SocketInfo.set_authset (SocketInfo.authset x ∖ {[credentials]}) x)))
    ;;;
    for_each (set_iter order (cached ∖ authset))
      (λ credentials,
         auth_authenticate credentials self ;;;
         modify (update self (λ x,
           SocketInfo.set_authset ({[credentials]} ∪ SocketInfo.authset x) x)))
  else ret tt.

(** [SocketInfo.authenticate] *)
Definition authenticate (self : nat) (credentials : MongoCredential)
    : M World unit :=
  auth_authenticate credentials self ;;;
  modify (update self (λ x,
    SocketInfo.set_authset ({[credentials]} ∪ SocketInfo.authset x) x)).

(** ** Pool *)

(** [sock_info.close()] through a reference. *)
Definition close_ref (sock_info : nat) : M World unit :=
  modify (update sock_info close).

(** [Pool.reset] *)
Definition reset : M World unit :=
  modify (emit EvReset) ;;;
  modify (λ w, set_pool (Pool.set_pool_id (Pool.pool_id (pool w) + 1) (pool w)) w) ;;;
  modify (λ w, set_pool (Pool.set_pid (getpid w) (pool w)) w) ;;;
  let* sockets := gets (λ w, Pool.sockets (pool w)) in
  modify (λ w, set_pool (Pool.set_sockets ∅ (pool w)) w) ;;;
  let* order := gets ref_order in
  for_each (set_iter order sockets) close_ref.

(** [host.endswith(suffix)] *)
Definition endswith (host suffix : string) : bool :=
  bool_decide (String.list_ascii_of_string suffix
                 `suffix_of` String.list_ascii_of_string host).

(** [socket.socket(af, ...)]: a new descriptor, talking to the peer the
    network assigns to it. *)
Definition socket_socket (af : family) : M World socket :=
  λ w, match socket_fault (net w) af with
       | Some e => (Raise e, w)
       | None =>
           let n := next_fd w in
           (Ok (mk_socket n af None (peer_inbox (net w) n)
                          (peer_send_faults (net w) n) []
                          (peer_select (net w) n) None false),
            set_next_fd (S n) w)
       end.

(** [sock.connect(address)].  The options set before it on a TCP socket
    ([TCP_NODELAY], [SO_KEEPALIVE]) have no state in the model, and an
    error they raise is an error of the attempt. *)
Definition sock_connect (address : sockaddr) (sock : socket) : M World socket :=
  λ w, match connect_fault (net w) address with
       | Some e => (Raise e, w)
       | None => (Ok (sock_connected address sock), w)
       end.

(** The loop of [Pool.create_connection] over the resolver's results,
    with the local [err]. *)
Fixpoint create_connection_loop (connect_timeout : option Z)
    (results : list addrinfo) (err : option exn) : M World socket :=
  match results with
  | res :: rest =>
      (* sock = None; try: sock = socket.socket(af, socktype, proto) *)
      try_except_else (socket_socket (af res))
        (λ e, if is_socket_error e
              then create_connection_loop connect_timeout rest (Some e)
              else raise e)
        (λ sock,
           try_except
             (let sock := sock_settimeout connect_timeout sock in
              sock_connect (sa res) sock)
             (λ e, if is_socket_error e
                   then let _ := sock_close sock in
                        create_connection_loop connect_timeout rest (Some e)
                   else raise e))
  | [] =>
      match err with
      | Some e => raise e
      | None => raise (SocketError "getaddrinfo failed")
      end
  end.

(** [Pool.create_connection] *)
Definition create_connection : M World socket :=
  let* (host, port) := gets (λ w, Pool.pair (pool w)) in
  let* platform := gets net in
  if endswith host ".sock" then
    if negb (has_AF_UNIX platform) then
      raise (ConnectionFailure "UNIX-sockets are not supported on this system")
    else
      let* sock := socket_socket AF_UNIX in
      try_except
        (sock_connect (UnixPath host) sock)
        (λ e, if is_socket_error e
              then let _ := sock_close sock in raise e
              else raise e)
  else
    let family :=
      if has_ipv6 platform && negb (bool_decide (host = "localhost"))
      then AF_UNSPEC else AF_INET in
    let* connect_timeout :=
      gets (λ w, PoolOptions.connect_timeout (Pool.opts (pool w))) in
    match getaddrinfo platform host port family with
    | Ok results => create_connection_loop connect_timeout results None
    | Raise e => raise e
    | Hang => hang
    end.

(** [ssl_context.wrap_socket(sock)] *)
Definition wrap_socket (sock : socket) : M World socket :=
  λ w, match wrap_socket_fault (net w) (fd sock) with
       | Some e => (Raise e, w)
       | None => (Ok sock, w)
       end.

(** [match_hostname(sock.getpeercert(), hostname)] *)
Definition match_hostname (sock : socket) (hostname : string) : M World unit :=
  λ w, match match_hostname_fault (net w) (fd sock) hostname with
       | Some e => (Raise e, w)
       | None => (Ok tt, w)
       end.

(** [Pool.connect]; the new [SocketInfo] is stored under the descriptor
    of its socket. *)
Definition connect : M World nat :=
  let* sock := create_connection in
  let* hostname := gets (λ w, (Pool.pair (pool w)).1) in
  let* ssl_context :=
    gets (λ w, PoolOptions.ssl_context (Pool.opts (pool w))) in
  let* sock :=
    match ssl_context with
    | Some ssl_context =>
        let* sock :=
          try_except (wrap_socket sock)
            (λ e, if is_IOError e
                  then let _ := sock_close sock in
                       raise (ConnectionFailure
                                ("SSL handshake failed. MongoDB may "
                                 ++ "not be configured with SSL support."))
                  else raise e) in
        if verify_mode ssl_context then
          try_except (match_hostname sock hostname)
            (λ e, if is_CertificateError e
                  then let _ := sock_close sock in raise e
                  else raise e) ;;;
          ret sock
        else ret sock
    | None => ret sock
    end in
  let* socket_timeout :=
    gets (λ w, PoolOptions.socket_timeout (Pool.opts (pool w))) in
  let sock := sock_settimeout socket_timeout sock in
  let* t := _time in
  let* pool_id := gets (λ w, Pool.pool_id (pool w)) in
  modify (λ w, set_heap (<[fd sock := SocketInfo_init sock pool_id hostname t]>
                           (heap w)) w) ;;;
  ret (fd sock).

(** [Pool._check] *)
Definition _check (sock_info : nat) : M World nat :=
  let* t := _time in
  let* x := gets (λ w, heap w sock_info) in
  let age := t - SocketInfo.last_checkout x in
  let* pool_id := gets (λ w, Pool.pool_id (pool w)) in
  let* interval := gets (λ w, Pool._check_interval_seconds (pool w)) in
  let* error :=
    if SocketInfo.closed x then ret true
    else if negb (pool_id =? SocketInfo.pool_id x) then
      close_ref sock_info ;;; ret true
    else if match interval with
            | Some i => (0 =? i) || (age >? i)
            | None => false
            end
    then
      if _closed (SocketInfo.sock x) then close_ref sock_info ;;; ret true
      else ret false
    else ret false in
  if negb error then ret sock_info
  else
    try_except connect
      (λ e, if is_socket_error e then reset ;;; raise e else raise e).

(** [%r] of an optional integer. *)
Definition repr (x : option Z) : string :=
  match x with
  | Some n => pretty n
  | None => "None"
  end.

(** [Pool._raise_wait_queue_timeout] *)
Definition _raise_wait_queue_timeout {A} : M World A :=
  let* opts := gets (λ w, Pool.opts (pool w)) in
  raise (ConnectionFailure
           ("Timed out waiting for socket from pool with max_size "
            ++ repr (PoolOptions.max_pool_size opts)
            ++ " and wait_queue_timeout "
            ++ repr (PoolOptions.wait_queue_timeout opts))).

(** [self.sockets.pop()] *)
Definition sockets_pop : M World nat :=
  λ w, match set_iter (ref_order w) (Pool.sockets (pool w)) with
       | [] => (Raise (KeyError "pop from an empty set"), w)
       | x :: _ =>
           (Ok x, set_pool (Pool.set_sockets (Pool.sockets (pool w) ∖ {[x]})
                                             (pool w)) w)
       end.

Definition is_KeyError (e : exn) : bool :=
  match e with KeyError _ => true | _ => false end.

(** [Pool._get_socket_no_auth] *)
Definition _get_socket_no_auth : M World nat :=
  let* fork := gets (λ w, negb (Pool.pid (pool w) =? getpid w)) in
  (if fork then reset else ret tt) ;;;
  let* wait_queue_timeout :=
    gets (λ w, PoolOptions.wait_queue_timeout (Pool.opts (pool w))) in
  let* granted := _socket_semaphore_acquire wait_queue_timeout in
  (if negb granted then _raise_wait_queue_timeout else ret tt) ;;;
  let* sock_info :=
    try_except
      (let* (sock_info, from_pool) :=
         try_except
           (let* sock_info := sockets_pop in ret (sock_info, true))
           (λ e, if is_KeyError e
                 then let* sock_info := connect in ret (sock_info, false)
                 else raise e) in
       if (from_pool : bool) then _check sock_info else ret sock_info)
      (λ e, _socket_semaphore_release ;;; raise e) in
  let* t := _time in
  modify (update sock_info (SocketInfo.set_last_checkout t)) ;;;
  ret sock_info.

(** [Pool._return_socket] *)
Definition _return_socket (sock_info : nat) : M World unit :=
  let* max_size :=
    gets (λ w, PoolOptions.max_pool_size (Pool.opts (pool w))) in
  let* sockets := gets (λ w, Pool.sockets (pool w)) in
  let too_many_sockets :=
    match max_size with
    | Some max_size => len (elements sockets) >=? max_size
    | None => false
    end in
  let* x := gets (λ w, heap w sock_info) in
  let* pool_id := gets (λ w, Pool.pool_id (pool w)) in
  (if negb too_many_sockets && (SocketInfo.pool_id x =? pool_id)
   then modify (λ w, set_pool (Pool.set_sockets
                                 ({[sock_info]} ∪ Pool.sockets (pool w))
                                 (pool w)) w)
   else close_ref sock_info) ;;;
  _socket_semaphore_release.

(** [Pool.maybe_return_socket] *)
Definition maybe_return_socket (sock_info : nat) : M World unit :=
  let* fork := gets (λ w, negb (Pool.pid (pool w) =? getpid w)) in
  if fork then
    _socket_semaphore_release ;;;
    reset
  else
    let* closed := gets (λ w, SocketInfo.closed (heap w sock_info)) in
    if closed then _socket_semaphore_release
    else _return_socket sock_info.

(** [Pool.get_socket], a context manager: [body] is the block of the
    [with] statement, run where the generator yields [sock_info]. *)
Definition get_socket {A} (all_credentials : gmap string MongoCredential)
    (min_wire_version max_wire_version : Z) (checkout : bool)
    (body : nat → M World A) : M World A :=
  let* sock_info := _get_socket_no_auth in
  modify (update sock_info
            (set_wire_version_range min_wire_version max_wire_version)) ;;;
  try_except_else
    (check_auth sock_info all_credentials ;;;
     body sock_info)
    (λ e, if is_socket_error e || is_ConnectionFailure e
          then close_ref sock_info ;;;
               maybe_return_socket sock_info ;;;
               raise e
          else maybe_return_socket sock_info ;;;
               raise e)
    (λ a, if negb checkout
          then maybe_return_socket sock_info ;;; ret a
          else ret a).

(** ** Callers *)

(** Programs over the pool's interface, for statements about "any sequence
    of pool operations": calls of the pool and of its connections in any
    order and nesting, exceptions thrown and caught by the caller, and the
    moves of the environment (a fork, the clock). *)
Inductive prog : Type :=
| Skip
| Seq (p q : prog)
| Try (p q : prog)
| Throw (e : exn)
| Fork (child : Z)
| Tick (t : Z)
| Call_reset
| Call_connect (k : nat → prog)
| Call_get_socket_no_auth (k : nat → prog)
| Call_check (sock_info : nat) (k : nat → prog)
| Call_return_socket (sock_info : nat)
| Call_maybe_return_socket (sock_info : nat)
| Call_get_socket (all_credentials : gmap string MongoCredential)
    (min_wire_version max_wire_version : Z) (checkout : bool)
    (body : nat → prog)
| Call_check_auth (sock_info : nat)
    (all_credentials : gmap string MongoCredential)
| Call_authenticate (sock_info : nat) (credentials : MongoCredential)
| Call_close (sock_info : nat)
| Call_send_message (sock_info : nat) (message : bytes)
| Call_receive_message (sock_info : nat) (operation : Z)
    (request_id : option Z).

Definition set_getpid (p : Z) (w : World) : World :=
  mk_world (pool w) (heap w) p (now w) (net w) (next_fd w) (auth_script w)
           (cred_order w) (ref_order w) (log w).
Definition set_now (t : Z) (w : World) : World :=
  mk_world (pool w) (heap w) (getpid w) t (net w) (next_fd w) (auth_script w)
           (cred_order w) (ref_order w) (log w).

Fixpoint run (p : prog) : M World unit :=
  match p with
  | Skip => ret tt
  | Seq p q => run p ;;; run q
  | Try p q => try_except (run p) (λ _, run q)
  | Throw e => raise e
  | Fork child => modify (set_getpid child)
  | Tick t => modify (λ w, set_now (now w + Z.abs t) w)
  | Call_reset => reset
  | Call_connect k => let* r := connect in run (k r)
  | Call_get_socket_no_auth k => let* r := _get_socket_no_auth in run (k r)
  | Call_check sock_info k => let* r := _check sock_info in run (k r)
  | Call_return_socket sock_info => _return_socket sock_info
  | Call_maybe_return_socket sock_info => maybe_return_socket sock_info
  | Call_get_socket all_credentials min_wire_version max_wire_version
                    checkout body =>
      get_socket all_credentials min_wire_version max_wire_version checkout
                 (λ r, run (body r))
  | Call_check_auth sock_info all_credentials =>
      check_auth sock_info all_credentials
  | Call_authenticate sock_info credentials =>
      authenticate sock_info credentials
  | Call_close sock_info => close_ref sock_info
  | Call_send_message sock_info message =>
      on_ref sock_info (send_message message)
  | Call_receive_message sock_info operation request_id =>
      on_ref sock_info (receive_message operation request_id) ;;; ret tt
  end.

(** ** What the stream holds *)

(** [queued n i]: the next [n] bytes of the stream [i], when they arrive
    before any error or the end of the stream, with what is left of the
    stream behind them. *)
Fixpoint queued (n : nat) (i : list wire_event) {struct i}
    : option (bytes * list wire_event) :=
  match n with
  | O => Some ([], i)
  | S _ =>
      match i with
      | Chunk data :: rest =>
          if decide (data = []) then None
          else if (length data <=? n)%nat then
            match queued (n - length data) rest with
            | Some (more, i') => Some (data ++ more, i')
            | None => None
            end
          else Some (take n data, Chunk (drop n data) :: rest)
      | _ => None
      end
  end.

(** [runs_dry n i]: the stream [i] ends (the peer yields zero bytes) before
    [n] bytes have arrived, and no error comes first. *)
Fixpoint runs_dry (n : nat) (i : list wire_event) {struct i} : bool :=
  match n with
  | O => false
  | S _ =>
      match i with
      | [] => true
      | Chunk data :: rest =>
          if decide (data = []) then true
          else if (length data <? n)%nat then runs_dry (n - length data) rest
          else false
      | RecvFault _ :: _ => false
      end
  end.

(** The connection with the stream of its socket replaced. *)
Definition with_inbox (i : list wire_event) (self : SocketInfo.t)
    : SocketInfo.t :=
  SocketInfo.set_sock (set_inbox i (SocketInfo.sock self)) self.

(** The three header fields [receive_message] reads. *)
Definition le_int32 (bs : bytes) : Z :=
  let u := le_unsigned bs in if u <? 2 ^ 31 then u else u - 2 ^ 32.
Definition header_length (header : bytes) : Z := le_int32 (take 4 header).
Definition header_response_to (header : bytes) : Z :=
  le_int32 (take 4 (drop 8 header)).
Definition header_opcode (header : bytes) : Z := le_int32 (drop 12 header).

(** ** The vocabulary of the statements *)

(** Every run of [m] takes a state to one related to it by [R]. *)
Definition preserves {S A} (R : relation S) (m : M S A) : Prop :=
  ∀ s, R s (m s).2.

(** The generation never decreases. *)
Definition generation_le (w w' : World) : Prop :=
  Pool.pool_id (pool w) ≤ Pool.pool_id (pool w').

(** The trace only grows. *)
Definition log_extends (w w' : World) : Prop := log w `prefix_of` log w'.

(** The events that are calls of the semaphore. *)
Definition is_semaphore_event (e : event) : bool :=
  match e with EvAcquire _ | EvRelease => true | _ => false end.

(** The semaphore traffic of a trace. *)
Definition sem_trace (w : World) : list event :=
  List.filter is_semaphore_event (log w).

(** The semaphore is left alone. *)
Definition same_semaphore (w w' : World) : Prop :=
  Pool._socket_semaphore (pool w) = Pool._socket_semaphore (pool w')
  ∧ sem_trace w = sem_trace w'.

(** The pool's semaphore. *)
Definition semaphore_of (w : World) : Semaphore.t :=
  Pool._socket_semaphore (pool w).

(** One permit was given back between [w] and [w']. *)
Definition released (w w' : World) : Prop :=
  semaphore_of w' = semaphore_release (semaphore_of w)
  ∧ sem_trace w' = sem_trace w ++ [EvRelease].

(** One permit was taken between [w] and [w']. *)
Definition acquired (w w' : World) : Prop :=
  semaphore_release (semaphore_of w') = semaphore_of w
  ∧ Semaphore.permits (semaphore_of w')
    = Z.pred <$> Semaphore.permits (semaphore_of w)
  ∧ sem_trace w' = sem_trace w ++ [EvAcquire true].

(** One permit was taken and given back between [w] and [w']. *)
Definition balanced (w w' : World) : Prop :=
  semaphore_of w' = semaphore_of w
  ∧ sem_trace w' = sem_trace w ++ [EvAcquire true; EvRelease].

(** The calls into [auth] that a trace shows. *)
Definition logouts (self : nat) (l : list MongoCredential) : list event :=
  (λ c, EvLogout (source c) self) <$> l.
Definition logins (self : nat) (l : list MongoCredential) : list event :=
  (λ c, EvAuthenticate c self) <$> l.

(** The idle set has room for one more connection. *)
Definition has_room (w : World) : Prop :=
  match PoolOptions.max_pool_size (Pool.opts (pool w)) with
  | Some max_size => Z.of_nat (size (Pool.sockets (pool w))) < max_size
  | None => True
  end.

(** The connection was minted in the pool's current generation. *)
Definition current (r : nat) (w : World) : Prop :=
  SocketInfo.pool_id (heap w r) = Pool.pool_id (pool w).

(** What [get_socket] does when its block raises. *)
Definition on_error (sock_info : nat) (e : exn) : M World unit :=
  if is_socket_error e || is_ConnectionFailure e
  then close_ref sock_info ;;; maybe_return_socket sock_info
  else maybe_return_socket sock_info.

(** The error, if any, that the attempt on a resolver result meets:
    creating the socket, or connecting it. *)
Definition candidate_error (n : Net) (res : addrinfo) : option exn :=
  match socket_fault n (af res) with
  | Some e => Some e
  | None => connect_fault n (sa res)
  end.

(** The attempt on a resolver result fails with a [socket.error]. *)
Definition refused (n : Net) (res : addrinfo) : Prop :=
  ∃ e, candidate_error n res = Some e ∧ is_socket_error e = true.

(** ** Sample inputs *)

(** A dual-stack resolver on a platform whose IPv6 sockets cannot be
    created; every peer is silent. *)
Definition sample_net : Net :=
  mk_net true true
    (λ host port family,
       Ok [mk_addrinfo AF_INET6 1 6 EmptyString (InetAddr host port);
           mk_addrinfo AF_INET 1 6 EmptyString (InetAddr host port)])
    (λ af, match af with
           | AF_INET6 => Some (SocketError "Address family not supported")
           | _ => None
           end)
    (λ _, None) (λ _, None) (λ _ _, None)
    (λ _, []) (λ _, []) (λ _, Ok false).

Definition sample_options : PoolOptions.t :=
  PoolOptions.mk (Some 2) None None (Some 100) None None false.

(** A connection of generation 0 whose peer will send [i]. *)
Definition sample_connection (i : list wire_event) : SocketInfo.t :=
  SocketInfo_init (mk_socket 0 AF_INET None i [] [] (Ok false) None false)
                  0 "db.example" 0.

(** A fresh pool of process 10. *)
Definition sample_world : World :=
  mk_world (Pool_init ("db.example", 27017) sample_options 10)
           (λ _, sample_connection []) 10 0 sample_net 0 [] [] [] [].

(** The same pool, seen from a child process 11 after a fork, with
    connections 0 and 1 idle. *)
Definition forked_world : World :=
  set_getpid 11
    (set_pool (Pool.set_sockets {[0%nat; 1%nat]} (pool sample_world))
              sample_world).

(** Header [length=32, request_id=0, response_to=7, opcode=1] and a body
    of 16 bytes [0xAA]. *)
Definition sample_header : bytes :=
  [x20; x00; x00; x00;  x00; x00; x00; x00;
   x07; x00; x00; x00;  x01; x00; x00; x00].
Definition sample_payload : bytes := repeat xaa 16.

(** The response, cut by the network into three segments. *)
Definition sample_stream : list wire_event :=
  [Chunk (take 5 sample_header);
   Chunk (drop 5 sample_header ++ take 3 sample_payload);
   Chunk (drop 3 sample_payload)].

Definition cred_admin : MongoCredential :=
  mk_credential "SCRAM-SHA-1" "admin" "u1" "k1".
Definition cred_app : MongoCredential :=
  mk_credential "SCRAM-SHA-1" "app" "u2" "k2".

(** A world whose connection 0 is authenticated as [cred_admin]. *)
Definition authenticated_world : World :=
  update 0 (SocketInfo.set_authset {[cred_admin]}) sample_world.

(** What the callers of the samples want to be authenticated as. *)
Definition wants_admin : gmap string MongoCredential :=
  {["admin" := cred_admin]}.
Definition wants_app : gmap string MongoCredential :=
  {["app" := cred_app]}.

(** A block that fails with a domain error. *)
Definition failing_block (r : nat) : M World unit :=
  raise (OperationFailure "not master").

(** ** [SocketInfo.command] and [Pool.__del__] *)

(** The collaborators of [SocketInfo.command], none of them in the
    sources, taken as parameters: [message.query], the list under
    ['data'] of [helpers._unpack_response], [helpers._check_command_response]
    and [repr] of a command document. *)
Record Helpers (doc : Type) : Type := mk_helpers {
  message_query : Z → string → Z → Z → doc → Z * bytes * Z;
  _unpack_response : bytes → result (list doc);
  _check_command_response : doc → string → result unit;
  repr_spec : doc → string
}.
Arguments mk_helpers {doc}.
Arguments message_query {doc}.
Arguments _unpack_response {doc}.
Arguments _check_command_response {doc}.
Arguments repr_spec {doc}.

(** The outcome of a call that does not touch the state. *)
Definition of_result {S A} (r : result A) : M S A := λ s, (r, s).

(** [s.replace("%", "%%")] *)
Fixpoint replace_percent (s : string) : string :=
  match s with
  | EmptyString => EmptyString
  | String c rest =>
      if String.eqb (String c EmptyString) "%"
      then ("%%" ++ replace_percent rest)%string
      else String c (replace_percent rest)
  end.

(** [SocketInfo.command] *)
Definition command {doc} (helpers : Helpers doc) (dbname : string)
    (spec : doc) : M SocketInfo.t doc :=
  let ns := (dbname ++ ".$cmd")%string in
  let '(request_id, msg, _) := message_query helpers 0 ns 0 (-1) spec in
  send_message msg ;;;
  let* response := receive_message 1 (Some request_id) in
  let* data := of_result (_unpack_response helpers response) in
  let* unpacked :=
    match data with
    | first :: _ => ret first
    | [] => raise (OtherException "IndexError" "list index out of range")
    end in
  let msg := ("command " ++ replace_percent (repr_spec helpers spec)
              ++ " on namespace " ++ ns ++ " failed: %s")%string in
  of_result (_check_command_response helpers unpacked msg) ;;;
  ret unpacked.

(** [Pool.__del__] *)
Definition Pool_del : M World unit :=
  let* sockets := gets (λ w, Pool.sockets (pool w)) in
  let* order := gets ref_order in
  for_each (set_iter order sockets) close_ref.

(** The next [sendall] on the socket goes through. *)
Definition send_goes_through (s : socket) : bool :=
  match send_faults s with
  | Some _ :: _ => false
  | _ => true
  end.

(** The request of a command: its id and its bytes. *)
Definition command_request {doc} (helpers : Helpers doc) (dbname : string)
    (spec : doc) : Z * bytes :=
  (message_query helpers 0 (dbname ++ ".$cmd")%string 0 (-1) spec).1.

(** [breaks n i]: the error that the stream [i] raises before [n] bytes
    have arrived, if one comes before the end of the stream. *)
Fixpoint breaks (n : nat) (i : list wire_event) {struct i} : option exn :=
  match n with
  | O => None
  | S _ =>
      match i with
      | RecvFault e :: _ => Some e
      | Chunk data :: rest =>
          if decide (data = []) then None
          else if (length data <? n)%nat then breaks (n - length data) rest
          else None
      | [] => None
      end
  end.

(** The header answers the expected opcode and, if one is expected, the
    expected request. *)
Definition answers (header : bytes) (operation : Z) (request_id : option Z)
    : Prop :=
  operation = header_opcode header
  ∧ (request_id = None ∨ request_id = Some (header_response_to header)).

(** The message that [command] hands to the response checker. *)
Definition command_failure_template {doc} (helpers : Helpers doc)
    (dbname : string) (spec : doc) : string :=
  ("command " ++ replace_percent (repr_spec helpers spec)
   ++ " on namespace " ++ (dbname ++ ".$cmd") ++ " failed: %s")%string.

(** The steps of [connect] behind [create_connection]: the TLS handshake
    and the hostname check, if configured. *)
Definition tls_steps (ssl_context : option SSLContext) (hostname : string)
    (sock : socket) : M World socket :=
  match ssl_context with
  | Some ssl_context =>
      let* sock :=
        try_except (wrap_socket sock)
          (λ e, if is_IOError e
                then let _ := sock_close sock in
                     raise (ConnectionFailure
                              ("SSL handshake failed. MongoDB may "
                               ++ "not be configured with SSL support."))
                else raise e) in
      if verify_mode ssl_context then
        try_except (match_hostname sock hostname)
          (λ e, if is_CertificateError e
                then let _ := sock_close sock in raise e
                else raise e) ;;;
        ret sock
      else ret sock
  | None => ret sock
  end.

(** ** More vocabulary *)

(** The idle set respects [max_pool_size]. *)
Definition idle_bounded (w : World) : Prop :=
  match PoolOptions.max_pool_size (Pool.opts (pool w)) with
  | Some max_size =>
      Z.of_nat (size (Pool.sockets (pool w))) ≤ Z.max 0 max_size
  | None => True
  end.

(** The options are kept and the idle set has not grown. *)
Definition idle_within (w w' : World) : Prop :=
  Pool.opts (pool w') = Pool.opts (pool w)
  ∧ Pool.sockets (pool w') ⊆ Pool.sockets (pool w).

(** The options are kept, and so is the bound on the idle set. *)
Definition keeps_idle_bound (w w' : World) : Prop :=
  Pool.opts (pool w') = Pool.opts (pool w)
  ∧ (idle_bounded w → idle_bounded w').

(** Descriptors are not given out twice, and a connection made so far
    that is closed stays closed. *)
Definition closed_stays (w w' : World) : Prop :=
  (next_fd w ≤ next_fd w')%nat
  ∧ ∀ r, (r < next_fd w)%nat →
         SocketInfo.closed (heap w r) = true →
         SocketInfo.closed (heap w' r) = true.

(** The connection, if closed, is still closed. *)
Definition stays_closed (x x' : SocketInfo.t) : Prop :=
  SocketInfo.closed x = true → SocketInfo.closed x' = true.

(** Modelled from the spec: the external calls [calls], as the trace
    names them, made in turn on [self], each one when the one before it
    has returned, and nothing else: what [check_auth] is compared with. *)
Definition auth_calls (self : nat) (calls : list event) : M World unit :=
  for_each calls (λ call, modify (emit call) ;;; auth_answer self).

(** The two connections differ in [authset] at most. *)
Definition beside_authset (x x' : SocketInfo.t) : Prop :=
  SocketInfo.set_authset ∅ x' = SocketInfo.set_authset ∅ x.

(** The two worlds differ in the [authset] of [self] at most. *)
Definition beside_authset_of (self : nat) (w w' : World) : Prop :=
  pool w' = pool w
  ∧ getpid w' = getpid w
  ∧ now w' = now w
  ∧ net w' = net w
  ∧ next_fd w' = next_fd w
  ∧ auth_script w' = auth_script w
  ∧ cred_order w' = cred_order w
  ∧ ref_order w' = ref_order w
  ∧ log w' = log w
  ∧ (∀ r, r ≠ self → heap w' r = heap w r)
  ∧ beside_authset (heap w self) (heap w' self).

(** Two runs that end alike, in worlds that differ in the [authset] of
    [self] at most. *)
Definition alike (self : nat) (a c : result unit * World) : Prop :=
  a.1 = c.1 ∧ beside_authset_of self a.2 c.2.

(** A method of a connection that does not look at [authset]. *)
Definition authset_blind {A} (m : M SocketInfo.t A) : Prop :=
  ∀ x a, m (SocketInfo.set_authset a x)
         = ((m x).1, SocketInfo.set_authset a (m x).2).

(** Of the connection, only the socket, [authset] and the closed flag may
    have changed. *)
Definition beside_wire (x x' : SocketInfo.t) : Prop :=
  SocketInfo.host x' = SocketInfo.host x
  ∧ SocketInfo.last_checkout x' = SocketInfo.last_checkout x
  ∧ SocketInfo._min_wire_version x' = SocketInfo._min_wire_version x
  ∧ SocketInfo._max_wire_version x' = SocketInfo._max_wire_version x
  ∧ SocketInfo.pool_id x' = SocketInfo.pool_id x.

(** Nothing has changed but what authentication on [self] may change: the
    trace, the script of the external calls, and, of [self], the socket,
    [authset] and the closed flag. *)
Definition auth_frame (self : nat) (w w' : World) : Prop :=
  pool w' = pool w
  ∧ next_fd w' = next_fd w
  ∧ getpid w' = getpid w
  ∧ now w' = now w
  ∧ net w' = net w
  ∧ (∀ r, r ≠ self → heap w' r = heap w r)
  ∧ beside_wire (heap w self) (heap w' self).

(** Whenever the computation returns, it has taken the state to one
    related to it by [R]. *)
Definition returns_with {S A} (R : relation S) (m : M S A) : Prop :=
  ∀ s a s', m s = (Ok a, s') → R s s'.

(** The closed flag is as it was. *)
Definition same_closed (x x' : SocketInfo.t) : Prop :=
  SocketInfo.closed x' = SocketInfo.closed x.
Definition same_closed_at (self : nat) (w w' : World) : Prop :=
  SocketInfo.closed (heap w' self) = SocketInfo.closed (heap w self).

(** A method of a connection that leaves it closed whenever it raises. *)
Definition closes_on_error {A} (m : M SocketInfo.t A) : Prop :=
  ∀ x e x', m x = (Raise e, x') → SocketInfo.closed x' = true.

(** ** More sample inputs *)

(** Two copies of the sample response, back to back. *)
Definition sample_stream_twice : list wire_event :=
  sample_stream ++ sample_stream.

(** Header [length=16, request_id=0, response_to=7, opcode=1]: a reply
    with no payload; and the same with [length=8]. *)
Definition empty_reply_header : bytes :=
  [x10; x00; x00; x00;  x00; x00; x00; x00;
   x07; x00; x00; x00;  x01; x00; x00; x00].
Definition short_reply_header : bytes :=
  [x08; x00; x00; x00;  x00; x00; x00; x00;
   x07; x00; x00; x00;  x01; x00; x00; x00].

(** The peer sends half a header, then the read times out. *)
Definition timed_out_stream : list wire_event :=
  [Chunk (take 8 sample_header); RecvFault (SocketError "timed out")].

(** Collaborators for the samples: a document is its bytes, the request
    gets id 7, a reply holds one document, and a document that starts with
    a zero byte is an error of the server. *)
Definition sample_helpers : Helpers bytes :=
  mk_helpers
    (λ _ _ _ _ spec, (7, spec, 0))
    (λ response, Ok [response])
    (λ document msg,
       match document with
       | x00 :: _ => Raise (OperationFailure msg)
       | _ => Ok tt
       end)
    (λ _, "{'ping': 1}").

Definition ping : bytes := [x01].

(** The sample response with a payload that the server marks as failed,
    and one that answers request 8. *)
Definition failed_payload : bytes := repeat x00 16.
Definition failed_stream : list wire_event :=
  [Chunk (sample_header ++ failed_payload)].
Definition foreign_header : bytes :=
  [x20; x00; x00; x00;  x00; x00; x00; x00;
   x08; x00; x00; x00;  x01; x00; x00; x00].
Definition foreign_stream : list wire_event :=
  [Chunk (foreign_header ++ sample_payload)].

(** A connection whose next [sendall] fails. *)
Definition unwritable_connection : SocketInfo.t :=
  SocketInfo_init
    (mk_socket 0 AF_INET None [] [Some (SocketError "Broken pipe")] []
               (Ok false) None false)
    0 "db.example" 0.

(** The next call into [auth] raises: the server refuses. *)
Definition refusing_world : World :=
  set_auth_script
    [mk_auth_call [] (Some (OperationFailure "Authentication failed."))]
    authenticated_world.
Definition refusing_fresh_world : World :=
  set_auth_script
    [mk_auth_call [] (Some (OperationFailure "Authentication failed."))]
    sample_world.

(** The server accepts one call into [auth] and refuses the next. *)
Definition half_refusing_world : World :=
  set_auth_script
    [mk_auth_call [] None;
     mk_auth_call [] (Some (OperationFailure "Authentication failed."))]
    authenticated_world.


(** A pool that connects with TLS and checks hostnames, on a network
    whose handshakes fail. *)
Definition tls_options : PoolOptions.t :=
  PoolOptions.mk (Some 2) None (Some 30) (Some 100) None
                 (Some (mk_ssl_context true)) false.
Definition tls_net : Net :=
  mk_net true false
    (λ host port family,
       Ok [mk_addrinfo AF_INET 1 6 EmptyString (InetAddr host port)])
    (λ _, None) (λ _, None)
    (λ _, Some (SocketError "EOF occurred in violation of protocol"))
    (λ _ _, None)
    (λ _, []) (λ _, []) (λ _, Ok false).
Definition tls_world : World :=
  mk_world (Pool_init ("db.example", 27017) tls_options 10)
           (λ _, sample_connection []) 10 0 tls_net 0 [] [] [] [].
Definition tls_socket : socket :=
  mk_socket 0 AF_INET (Some (InetAddr "db.example" 27017)) [] [] []
            (Ok false) None false.

(** Connection 0 has been made and closed. *)
Definition stale_world : World :=
  set_next_fd 1 (update 0 close sample_world).

(** Connection 0 has been made and is idle. *)
Definition idle_world : World :=
  set_next_fd 1
    (set_pool (Pool.set_sockets {[0%nat]} (pool sample_world)) sample_world).

(** No permit is left. *)
Definition exhausted_world : World :=
  set_pool (Pool.set_semaphore (Semaphore.mk (Some 0) None 0)
                               (pool sample_world)) sample_world.

(** A network whose IPv6 sockets cannot be created and whose [connect]
    rejects the address with an error that is not a [socket.error]. *)
Definition rejecting_net : Net :=
  mk_net true true
    (λ host port family,
       Ok [mk_addrinfo AF_INET6 1 6 EmptyString (InetAddr host port);
           mk_addrinfo AF_INET 1 6 EmptyString (InetAddr host port);
           mk_addrinfo AF_INET 1 6 EmptyString (InetAddr host port)])
    (λ af, match af with
           | AF_INET6 => Some (SocketError "Address family not supported")
           | _ => None
           end)
    (λ _, Some (OtherException "OverflowError" "port must be 0-65535."))
    (λ _, None) (λ _ _, None)
    (λ _, []) (λ _, []) (λ _, Ok false).
Definition rejecting_world : World :=
  mk_world (Pool_init ("db.example", 27017) sample_options 10)
           (λ _, sample_connection []) 10 0 rejecting_net 0 [] [] [] [].

(** A network that refuses every connection, and a pool on it whose
    connection 0 has been made and closed and whose connection 1 is
    idle. *)
Definition unreachable_net : Net :=
  mk_net true false
    (λ host port family,
       Ok [mk_addrinfo AF_INET 1 6 EmptyString (InetAddr host port)])
    (λ _, None)
    (λ _, Some (SocketError "Connection refused"))
    (λ _, None) (λ _ _, None)
    (λ _, []) (λ _, []) (λ _, Ok false).
Definition unreachable_world : World :=
  mk_world (Pool.set_sockets {[1%nat]}
              (Pool_init ("db.example", 27017) sample_options 10))
           (<[0%nat := close (sample_connection [])]>
              (λ _, sample_connection []))
           10 0 unreachable_net 2 [] [] [] [].

(** A server that answers the request of a login with the reply to
    another request: [auth] sends [ping], waits for the reply to request
    7, and the peer of every connection sends the reply to request 8. *)
Definition confused_net : Net :=
  mk_net true true
    (λ host port family,
       Ok [mk_addrinfo AF_INET6 1 6 EmptyString (InetAddr host port);
           mk_addrinfo AF_INET 1 6 EmptyString (InetAddr host port)])
    (λ af, match af with
           | AF_INET6 => Some (SocketError "Address family not supported")
           | _ => None
           end)
    (λ _, None) (λ _, None) (λ _ _, None)
    (λ _, foreign_stream) (λ _, []) (λ _, Ok false).
Definition confused_world : World :=
  mk_world (Pool_init ("db.example", 27017) sample_options 10)
           (λ _, sample_connection []) 10 0 confused_net 0
           [mk_auth_call [AuthSend ping; AuthReceive 1 (Some 7)] None]
           [] [] [].

(** Callers for the samples. *)
Definition checkout_and_return : prog :=
  Seq (Call_get_socket_no_auth (λ r, Call_return_socket r))
      (Call_get_socket ∅ 0 3 false (λ _, Skip)).
Definition release_and_reuse : prog :=
  Seq (Call_maybe_return_socket 0)
      (Call_get_socket_no_auth (λ r, Call_send_message r [])).

(** * Running a computation *)

Lemma bind_run {S A B} (m : M S A) (k : A → M S B) s :
  bind m k s = match m s with
               | (Ok a, s') => k a s'
               | (Raise e, s') => (Raise e, s')
               | (Hang, s') => (Hang, s')
               end.
Proof. reflexivity. Qed.

(** * Framing: what [receive_message] and [send_message] do *)

Lemma with_inbox_same self : with_inbox (inbox (SocketInfo.sock self)) self = self.
Proof. by destruct self as [[] ? ? ? ? ? ? ?]. Qed.

Lemma with_inbox_twice i j self : with_inbox i (with_inbox j self) = with_inbox i self.
Proof. reflexivity. Qed.

Lemma inbox_with_inbox i self : inbox (SocketInfo.sock (with_inbox i self)) = i.
Proof. reflexivity. Qed.

Lemma queued_length i : ∀ n data i', queued n i = Some (data, i') → length data = n.
Proof.
  induction i as [|ev rest IH]; intros n data i' H.
  - destruct n; simpl in H; [by inversion H | congruence].
  - destruct n as [|n]; [simpl in H; by inversion H|].
    simpl in H. destruct ev as [c|e]; [|congruence].
    destruct (decide (c = [])); [congruence|].
    destruct (length c <=? S n)%nat eqn:Hle.
    + destruct (queued (S n - length c) rest) as [[more i'']|] eqn:Hq; [|congruence].
      apply IH in Hq. apply Nat.leb_le in Hle. inversion H; subst.
      rewrite length_app. lia.
    + apply Nat.leb_gt in Hle. inversion H; subst. rewrite length_take. lia.
Qed.

Lemma recv_step (n : nat) self :
  on_sock (sock_recv (Z.of_nat n)) self =
  match inbox (SocketInfo.sock self) with
  | [] => (Ok [], self)
  | RecvFault e :: rest => (Raise e, with_inbox rest self)
  | Chunk data :: rest =>
      if (length data <=? n)%nat then (Ok data, with_inbox rest self)
      else (Ok (take n data), with_inbox (Chunk (drop n data) :: rest) self)
  end.
Proof.
  unfold on_sock, zoom, sock_recv.
  destruct (Z.of_nat n <? 0) eqn:Hn; [apply Z.ltb_lt in Hn; lia|].
  rewrite Nat2Z.id.
  destruct self as [[? ? ? i ? ? ? ? ?] ? ? ? ? ? ? ?]; simpl.
  destruct i as [|[c|e] rest]; try reflexivity.
  by destruct (length c <=? n)%nat.
Qed.

Lemma receive_data_loop_queued i :
  ∀ n fuel message self data i',
    inbox (SocketInfo.sock self) = i →
    queued n i = Some (data, i') →
    (n ≤ fuel)%nat →
    receive_data_loop fuel (Z.of_nat n) message self
    = (Ok (message ++ data), with_inbox i' self).
Proof.
  induction i as [|ev rest IH]; intros n fuel message self data i' Hi Hq Hf.
  - destruct n; simpl in Hq; [|congruence]. inversion Hq; subst.
    destruct fuel; simpl; rewrite app_nil_r, <- Hi, with_inbox_same; done.
  - destruct n as [|n].
    { simpl in Hq. inversion Hq; subst.
      destruct fuel; simpl; rewrite app_nil_r, <- Hi, with_inbox_same; done. }
    destruct fuel as [|fuel]; [lia|].
    cbn [receive_data_loop].
    destruct (Z.of_nat (S n) =? 0) eqn:Hz; [apply Z.eqb_eq in Hz; lia|].
    unfold bind at 1. rewrite recv_step, Hi.
    simpl in Hq. destruct ev as [c|e]; [|congruence].
    destruct (decide (c = [])) as [|Hc]; [congruence|].
    destruct (length c <=? S n)%nat eqn:Hle.
    + destruct (queued (S n - length c) rest) as [[more i'']|] eqn:Hq'; [|congruence].
      inversion Hq; subst. apply Nat.leb_le in Hle.
      destruct (decide (c = [])); [done|].
      replace (Z.of_nat (S n) - len c) with (Z.of_nat (S n - length c))
        by (unfold len; lia).
      rewrite (IH _ fuel (message ++ c) (with_inbox rest self) more i');
        [by rewrite app_assoc| done | done |].
      destruct c; [done|]. simpl in *. lia.
    + inversion Hq; subst. apply Nat.leb_gt in Hle.
      destruct (decide (take (S n) c = [])) as [Ht|Ht].
      { destruct c; simpl in *; [lia|congruence]. }
      replace (Z.of_nat (S n) - len (take (S n) c)) with 0
        by (unfold len; rewrite length_take; lia).
      by destruct fuel.
Qed.

Lemma receive_data_loop_runs_dry i :
  ∀ n fuel message self,
    inbox (SocketInfo.sock self) = i →
    runs_dry n i = true →
    (n ≤ fuel)%nat →
    ∃ self', receive_data_loop fuel (Z.of_nat n) message self
             = (Raise (AutoReconnect "connection closed"), self').
Proof.
  induction i as [|ev rest IH]; intros n fuel message self Hi Hd Hf.
  - destruct n as [|n]; [simpl in Hd; congruence|].
    destruct fuel as [|fuel]; [lia|].
    cbn [receive_data_loop].
    destruct (Z.of_nat (S n) =? 0) eqn:Hz; [apply Z.eqb_eq in Hz; lia|].
    unfold bind at 1. rewrite recv_step, Hi. simpl. eauto.
  - destruct n as [|n]; [simpl in Hd; congruence|].
    destruct fuel as [|fuel]; [lia|].
    cbn [receive_data_loop].
    destruct (Z.of_nat (S n) =? 0) eqn:Hz; [apply Z.eqb_eq in Hz; lia|].
    unfold bind at 1. rewrite recv_step, Hi.
    simpl in Hd. destruct ev as [c|e]; [|congruence].
    destruct (decide (c = [])) as [->|Hc].
    { simpl. eauto. }
    destruct (length c <? S n)%nat eqn:Hlt; [|congruence].
    apply Nat.ltb_lt in Hlt.
    destruct (length c <=? S n)%nat eqn:Hle; [|apply Nat.leb_gt in Hle; lia].
    destruct (decide (c = [])); [done|].
    replace (Z.of_nat (S n) - len c) with (Z.of_nat (S n - length c))
      by (unfold len; lia).
    apply IH; [done|done|].
    destruct c; [done|]. simpl in *. lia.
Qed.

Lemma receive_data_loop_returns fuel :
  ∀ n message self,
    (Z.to_nat n < fuel)%nat →
    (receive_data_loop fuel n message self).1 ≠ Hang.
Proof.
  induction fuel as [|fuel IH]; intros n message self Hf; [lia|].
  cbn [receive_data_loop].
  destruct (n =? 0) eqn:Hz; [done|]. apply Z.eqb_neq in Hz.
  unfold bind at 1, on_sock, zoom, sock_recv.
  destruct (n <? 0) eqn:Hn; [done|]. apply Z.ltb_ge in Hn.
  destruct (inbox (SocketInfo.sock self)) as [|[c|e] rest]; simpl; try done.
  destruct (length c <=? Z.to_nat n)%nat eqn:Hle.
  - destruct (decide (c = [])); [done|]. apply IH.
    apply Nat.leb_le in Hle. destruct c; [done|]. unfold len. simpl in *. lia.
  - destruct (decide (take (Z.to_nat n) c = [])); [done|]. apply IH.
    apply Nat.leb_gt in Hle. unfold len. rewrite length_take. lia.
Qed.

Lemma receive_data_on_socket_returns n self :
  (__receive_data_on_socket n self).1 ≠ Hang.
Proof. apply receive_data_loop_returns. lia. Qed.

Lemma receive_data_on_socket_queued (n : nat) self data i' :
  queued n (inbox (SocketInfo.sock self)) = Some (data, i') →
  __receive_data_on_socket (Z.of_nat n) self = (Ok data, with_inbox i' self).
Proof.
  intros Hq. unfold __receive_data_on_socket.
  erewrite receive_data_loop_queued; [done|done|done|lia].
Qed.

Lemma receive_data_on_socket_runs_dry (n : nat) self :
  runs_dry n (inbox (SocketInfo.sock self)) = true →
  ∃ self', __receive_data_on_socket (Z.of_nat n) self
           = (Raise (AutoReconnect "connection closed"), self').
Proof.
  intros Hd. unfold __receive_data_on_socket.
  eapply receive_data_loop_runs_dry; [done|done|lia].
Qed.

(** Whatever is raised inside [try: ... except: self.close(); raise] leaves
    the connection closed. *)
Lemma close_and_reraise {A} (m : M SocketInfo.t A) self e self' :
  try_except m (λ e, modify close ;;; raise e) self = (Raise e, self') →
  SocketInfo.closed self' = true.
Proof.
  unfold try_except. destruct (m self) as [[a|e0|] s1]; try congruence.
  unfold bind, modify, raise. intros H. by inversion H.
Qed.

Lemma close_and_reraise_raise {A} (m : M SocketInfo.t A) self e s1 :
  m self = (Raise e, s1) →
  try_except m (λ e, modify close ;;; raise e) self = (Raise e, close s1).
Proof. unfold try_except. by intros ->. Qed.

Lemma close_and_reraise_ok {A} (m : M SocketInfo.t A) self a s1 :
  m self = (Ok a, s1) →
  try_except m (λ e, modify close ;;; raise e) self = (Ok a, s1).
Proof. unfold try_except. by intros ->. Qed.

Lemma struct_unpack_i_4 {S} (bs : bytes) (s : S) :
  length bs = 4%nat → struct_unpack_i bs s = (Ok (le_int32 bs), s).
Proof. intros H. unfold struct_unpack_i. by destruct (decide _). Qed.

(** The part of [receive_message] that follows a complete header. *)
Lemma receive_message_header operation request_id self header i1 :
  queued 16 (inbox (SocketInfo.sock self)) = Some (header, i1) →
  receive_message operation request_id self
  = try_except
      ((match request_id with
        | Some request_id =>
            assert_ (request_id =? header_response_to header)
              ("ids don't match " ++ pretty request_id ++ " "
                                  ++ pretty (header_response_to header))
        | None => ret tt
        end) ;;;
       assert_ (operation =? header_opcode header) EmptyString ;;;
       __receive_data_on_socket (header_length header - 16))
      (λ e, modify close ;;; raise e) (with_inbox i1 self).
Proof.
  intros Hq. pose proof (queued_length _ _ _ _ Hq) as Hlen.
  pose proof (receive_data_on_socket_queued 16 self header i1 Hq) as Hr.
  change (Z.of_nat 16) with 16 in Hr.
  unfold receive_message, try_except, bind. rewrite Hr. cbn beta iota.
  rewrite struct_unpack_i_4 by (rewrite length_take; lia). cbn beta iota.
  fold (header_length header).
  destruct request_id as [rid|].
  - rewrite struct_unpack_i_4 by (rewrite length_take, length_drop; lia).
    cbn beta iota. fold (header_response_to header).
    destruct (assert_ _ _ _) as [[[]|e|] s1]; try reflexivity.
    rewrite struct_unpack_i_4 by (rewrite length_drop; lia).
    reflexivity.
  - unfold ret. cbn beta iota.
    rewrite struct_unpack_i_4 by (rewrite length_drop; lia).
    reflexivity.
Qed.

(** [receive_message] always comes back: with the bytes, or raising. *)
Lemma receive_message_returns operation request_id self :
  (receive_message operation request_id self).1 ≠ Hang.
Proof.
  unfold receive_message, try_except.
  match goal with
  | |- context [bind ?m ?k self] => destruct (bind m k self) as [[a|e|] s1] eqn:Hrun
  end; [done|done|].
  exfalso. revert Hrun. rewrite bind_run.
  pose proof (receive_data_on_socket_returns 16 self) as H16.
  destruct (__receive_data_on_socket 16 self) as [[header|e|] s2];
    [|done|done].
  rewrite bind_run. unfold struct_unpack_i at 1.
  destruct (decide _); [|done]. unfold ret at 1. cbn beta iota.
  rewrite bind_run.
  match goal with
  | |- context [match ?c s2 with _ => _ end] =>
      assert (Hc : (c s2).1 ≠ Hang);
      [|destruct (c s2) as [[[]|e'|] s3]; [|done|done]]
  end.
  { destruct request_id as [rid|]; [|done].
    rewrite bind_run. unfold struct_unpack_i.
    destruct (decide _); [|done]. unfold ret, assert_, raise.
    cbn beta iota. by destruct (rid =? _). }
  rewrite bind_run. unfold struct_unpack_i at 1.
  destruct (decide _); [|done]. unfold ret at 1. cbn beta iota.
  rewrite bind_run. unfold assert_, ret, raise.
  destruct (operation =? _); [|done]. cbn beta iota.
  intros Hrun.
  eapply receive_data_on_socket_returns. by rewrite Hrun.
Qed.

(** C2.  Framing correlation.  Let the stream of the connection hold a
    response: a 16-byte header, then the payload, [total length - 16]
    bytes, however the network cuts them into segments.  If [operation] is
    the opcode of the header and [request_id] is [None] or the response-to
    field, [receive_message] returns exactly the payload and leaves the
    rest of the stream in place.  If the opcode differs, or a [request_id]
    is given that differs from the response-to field, it raises
    [AssertionError] (and closes the connection). *)
Theorem receive_message_framing (self : SocketInfo.t) (operation : Z)
    (request_id : option Z) (header payload : bytes)
    (i1 i2 : list wire_event) :
  queued 16 (inbox (SocketInfo.sock self)) = Some (header, i1) →
  queued (length payload) i1 = Some (payload, i2) →
  header_length header = 16 + len payload →
  (operation = header_opcode header
   ∧ (request_id = None ∨ request_id = Some (header_response_to header)) →
   receive_message operation request_id self
   = (Ok payload, with_inbox i2 self))
  ∧ (operation ≠ header_opcode header
     ∨ (∃ rid, request_id = Some rid ∧ rid ≠ header_response_to header) →
     ∃ msg, receive_message operation request_id self
            = (Raise (AssertionError msg), close (with_inbox i1 self))).
Proof.
  intros Hh Hp Hlen.
  rewrite (receive_message_header _ _ _ _ _ Hh).
  split.
  - intros [-> Hid]. apply close_and_reraise_ok.
    assert (Hrid : (match request_id with
                    | Some request_id =>
                        assert_ (request_id =? header_response_to header)
                          ("ids don't match " ++ pretty request_id ++ " "
                             ++ pretty (header_response_to header))
                    | None => ret tt
                    end) (with_inbox i1 self) = (Ok tt, with_inbox i1 self)).
    { destruct Hid as [->| ->]; [done|]. by rewrite Z.eqb_refl. }
    unfold bind. rewrite Hrid, Z.eqb_refl. cbn beta iota.
    unfold assert_, ret. cbn beta iota.
    replace (header_length header - 16) with (Z.of_nat (length payload))
      by (unfold len in Hlen; lia).
    by rewrite (receive_data_on_socket_queued _ _ payload i2).
  - intros Hbad.
    destruct request_id as [rid|].
    + destruct (rid =? header_response_to header) eqn:Hrid.
      * apply Z.eqb_eq in Hrid. destruct Hbad as [Hop|(rid' & [= <-] & Hne)];
          [|done].
        exists EmptyString. apply close_and_reraise_raise.
        unfold bind, assert_, ret, raise. cbn beta iota.
        by destruct (operation =? header_opcode header) eqn:Ho;
          [apply Z.eqb_eq in Ho|].
      * eexists. apply close_and_reraise_raise.
        unfold bind, assert_, raise. by cbn beta iota.
    + destruct Hbad as [Hop|(rid' & [=] & _)].
      exists EmptyString. apply close_and_reraise_raise.
      unfold bind, assert_, ret, raise. cbn beta iota.
      by destruct (operation =? header_opcode header) eqn:Ho;
        [apply Z.eqb_eq in Ho|].
Qed.

Lemma receive_data_loop_breaks i :
  ∀ n fuel message self e,
    inbox (SocketInfo.sock self) = i →
    breaks n i = Some e →
    (n ≤ fuel)%nat →
    ∃ self', receive_data_loop fuel (Z.of_nat n) message self = (Raise e, self').
Proof.
  induction i as [|ev rest IH]; intros n fuel message self e Hi Hb Hf.
  - destruct n; simpl in Hb; congruence.
  - destruct n as [|n]; [simpl in Hb; congruence|].
    destruct fuel as [|fuel]; [lia|].
    cbn [receive_data_loop].
    destruct (Z.of_nat (S n) =? 0) eqn:Hz; [apply Z.eqb_eq in Hz; lia|].
    unfold bind at 1. rewrite recv_step, Hi.
    simpl in Hb. destruct ev as [c|e'].
    + destruct (decide (c = [])) as [->|Hc]; [congruence|].
      destruct (length c <? S n)%nat eqn:Hlt; [|congruence].
      apply Nat.ltb_lt in Hlt.
      destruct (length c <=? S n)%nat eqn:Hle; [|apply Nat.leb_gt in Hle; lia].
      destruct (decide (c = [])); [done|].
      replace (Z.of_nat (S n) - len c) with (Z.of_nat (S n - length c))
        by (unfold len; lia).
      eapply IH; [done|done|].
      destruct c; [done|]. simpl in *. lia.
    + injection Hb as ->. eauto.
Qed.

Lemma receive_data_on_socket_breaks (n : nat) self e :
  breaks n (inbox (SocketInfo.sock self)) = Some e →
  ∃ self', __receive_data_on_socket (Z.of_nat n) self = (Raise e, self').
Proof.
  intros Hb. unfold __receive_data_on_socket.
  eapply receive_data_loop_breaks; [done|done|lia].
Qed.

(** What [send_message] does, by what [sendall] does. *)
Lemma send_message_goes_through message self :
  send_goes_through (SocketInfo.sock self) = true →
  ∃ self',
    send_message message self = (Ok tt, self')
    ∧ SocketInfo.closed self' = SocketInfo.closed self
    ∧ inbox (SocketInfo.sock self') = inbox (SocketInfo.sock self)
    ∧ outbox (SocketInfo.sock self')
      = outbox (SocketInfo.sock self) ++ [message].
Proof.
  unfold send_goes_through, send_message, try_except, on_sock, zoom,
    sock_sendall.
  destruct self as [[? ? ? ? faults ? ? ? ?] ? ? ? ? ? ? ?]. cbn.
  destruct faults as [|[e|] rest]; [|done|]; intros _; by eexists.
Qed.

Lemma send_message_refused message self e rest :
  send_faults (SocketInfo.sock self) = Some e :: rest →
  ∃ self',
    send_message message self = (Raise e, self')
    ∧ SocketInfo.closed self' = true
    ∧ inbox (SocketInfo.sock self') = inbox (SocketInfo.sock self)
    ∧ outbox (SocketInfo.sock self') = outbox (SocketInfo.sock self).
Proof.
  unfold send_message, try_except, on_sock, zoom, sock_sendall.
  destruct self as [[? ? ? ? faults ? ? ? ?] ? ? ? ? ? ? ?]. cbn.
  intros ->. by eexists.
Qed.

(** C3.  Short reads and I/O errors.  When the peer yields zero bytes
    before the header is complete, or after a header that passes the
    checks but before the payload is complete, [receive_message] raises
    [AutoReconnect("connection closed")] and the connection is closed.
    Whatever [receive_message] or [send_message] raises, the connection is
    closed when the exception reaches the caller.  And they do raise: an
    error of [sendall] makes [send_message] raise that error, with the
    connection closed and nothing recorded as sent, while a [sendall]
    that goes through makes [send_message] return, the message sent and
    the connection as open as it was; an error of [recv] in the header
    makes [receive_message] raise that error, with the connection
    closed. *)
Theorem short_read_and_io_errors_close :
  (∀ self operation request_id,
     runs_dry 16 (inbox (SocketInfo.sock self)) = true →
     ∃ self', receive_message operation request_id self
              = (Raise (AutoReconnect "connection closed"), self')
              ∧ SocketInfo.closed self' = true)
  ∧ (∀ self operation request_id header i1,
       queued 16 (inbox (SocketInfo.sock self)) = Some (header, i1) →
       operation = header_opcode header →
       request_id = None ∨ request_id = Some (header_response_to header) →
       runs_dry (Z.to_nat (header_length header - 16)) i1 = true →
       ∃ self', receive_message operation request_id self
                = (Raise (AutoReconnect "connection closed"), self')
                ∧ SocketInfo.closed self' = true)
  ∧ (∀ self operation request_id e self',
       receive_message operation request_id self = (Raise e, self') →
       SocketInfo.closed self' = true)
  ∧ (∀ self message e self',
       send_message message self = (Raise e, self') →
       SocketInfo.closed self' = true)
  ∧ (∀ self message e rest,
       send_faults (SocketInfo.sock self) = Some e :: rest →
       ∃ self', send_message message self = (Raise e, self')
                ∧ SocketInfo.closed self' = true
                ∧ outbox (SocketInfo.sock self')
                  = outbox (SocketInfo.sock self))
  ∧ (∀ self message,
       send_goes_through (SocketInfo.sock self) = true →
       ∃ self', send_message message self = (Ok tt, self')
                ∧ SocketInfo.closed self' = SocketInfo.closed self
                ∧ outbox (SocketInfo.sock self')
                  = outbox (SocketInfo.sock self) ++ [message])
  ∧ (∀ self operation request_id e,
       breaks 16 (inbox (SocketInfo.sock self)) = Some e →
       ∃ self', receive_message operation request_id self = (Raise e, self')
                ∧ SocketInfo.closed self' = true).
Proof.
  split; [|split; [|split; [|split; [|split; [|split]]]]].
  - intros self operation request_id Hdry.
    destruct (receive_data_on_socket_runs_dry 16 self Hdry) as [s1 Hr].
    change (Z.of_nat 16) with 16 in Hr.
    exists (close s1). split; [|done].
    apply close_and_reraise_raise. unfold bind. by rewrite Hr.
  - intros self operation request_id header i1 Hh -> Hid Hdry.
    rewrite (receive_message_header _ _ _ _ _ Hh).
    assert (Hpos : (0 < Z.to_nat (header_length header - 16))%nat).
    { destruct (Z.to_nat (header_length header - 16)); [|lia].
      by destruct i1. }
    destruct (receive_data_on_socket_runs_dry _ (with_inbox i1 self) Hdry)
      as [s1 Hr].
    rewrite Z2Nat.id in Hr by lia.
    exists (close s1). split; [|done].
    apply close_and_reraise_raise.
    unfold bind. rewrite Z.eqb_refl.
    destruct Hid as [->| ->]; [|rewrite Z.eqb_refl];
      unfold assert_, ret; cbn beta iota; by rewrite Hr.
  - intros self operation request_id e self' H.
    by apply close_and_reraise in H.
  - intros self message e self' H.
    by apply close_and_reraise in H.
  - intros self message e rest Hfault.
    destruct (send_message_refused message self e rest Hfault)
      as (self' & Hrun & Hclosed & _ & Hout).
    by exists self'.
  - intros self message Hsend.
    destruct (send_message_goes_through message self Hsend)
      as (self' & Hrun & Hclosed & _ & Hout).
    by exists self'.
  - intros self operation request_id e Hb.
    destruct (receive_data_on_socket_breaks 16 self e Hb) as [s1 Hr].
    change (Z.of_nat 16) with 16 in Hr.
    exists (close s1). split; [|done].
    apply close_and_reraise_raise. rewrite bind_run. by rewrite Hr.
Qed.

(** ** Relations that every step of a computation respects *)

Global Instance generation_le_preorder : PreOrder generation_le.
Proof. split; unfold generation_le; [intros ?; lia | intros ? ? ?; lia]. Qed.

Global Instance log_extends_preorder : PreOrder log_extends.
Proof.
  split; unfold log_extends; [by intros ? | intros ? ? ? ? ?; by etrans].
Qed.

Global Instance same_semaphore_preorder : PreOrder same_semaphore.
Proof.
  split; unfold same_semaphore; [done|].
  intros ? ? ? [-> ->] [-> ->]; done.
Qed.

Section preserves.
Context {S : Type} (R : relation S) `{!PreOrder R}.

Lemma preserves_ret {A} (a : A) : preserves R (ret a).
Proof. intros s. reflexivity. Qed.

Lemma preserves_raise {A} (e : exn) : preserves R (@raise S A e).
Proof. intros s. reflexivity. Qed.

Lemma preserves_hang {A} : preserves R (@hang S A).
Proof. intros s. reflexivity. Qed.

Lemma preserves_gets {A} (f : S → A) : preserves R (gets f).
Proof. intros s. reflexivity. Qed.

Lemma preserves_modify (f : S → S) :
  (∀ s, R s (f s)) → preserves R (modify f).
Proof. intros H s. apply H. Qed.

Lemma preserves_bind {A B} (m : M S A) (k : A → M S B) :
  preserves R m → (∀ a, preserves R (k a)) → preserves R (bind m k).
Proof.
  intros Hm Hk s. unfold bind. specialize (Hm s).
  destruct (m s) as [[a|e|] s1]; simpl in *; [|done|done].
  etrans; [exact Hm | apply Hk].
Qed.

Lemma preserves_try_except {A} (m : M S A) (h : exn → M S A) :
  preserves R m → (∀ e, preserves R (h e)) → preserves R (try_except m h).
Proof.
  intros Hm Hh s. unfold try_except. specialize (Hm s).
  destruct (m s) as [[a|e|] s1]; simpl in *; [done| |done].
  etrans; [exact Hm | apply Hh].
Qed.

Lemma preserves_try_except_else {A B} (m : M S A) (h : exn → M S B)
    (k : A → M S B) :
  preserves R m → (∀ e, preserves R (h e)) → (∀ a, preserves R (k a)) →
  preserves R (try_except_else m h k).
Proof.
  intros Hm Hh Hk s. unfold try_except_else. specialize (Hm s).
  destruct (m s) as [[a|e|] s1]; simpl in *; [| |done].
  - etrans; [exact Hm | apply Hk].
  - etrans; [exact Hm | apply Hh].
Qed.

Lemma preserves_for_each {A} (l : list A) (body : A → M S unit) :
  (∀ x, preserves R (body x)) → preserves R (for_each l body).
Proof.
  intros Hb. induction l as [|x l IH]; simpl.
  - apply preserves_ret.
  - apply preserves_bind; [apply Hb | intros _; apply IH].
Qed.
End preserves.

(** One step of a proof that a computation preserves a relation: follow
    the structure of the computation. *)
Ltac preserves_step :=
  match goal with
  | |- preserves _ (bind _ _) =>
      apply preserves_bind; [tc_solve| |intros ?]
  | |- preserves _ (try_except _ _) =>
      apply preserves_try_except; [tc_solve| |intros ?]
  | |- preserves _ (try_except_else _ _ _) =>
      apply preserves_try_except_else; [tc_solve| |intros ?|intros ?]
  | |- preserves _ (for_each _ _) =>
      apply preserves_for_each; [tc_solve|intros ?]
  | |- preserves _ (ret _) => apply preserves_ret; tc_solve
  | |- preserves _ (raise _) => apply preserves_raise; tc_solve
  | |- preserves _ hang => apply preserves_hang; tc_solve
  | |- preserves _ (gets _) => apply preserves_gets; tc_solve
  | |- preserves _ (modify _) => apply preserves_modify; intros ?
  | |- preserves _ (if ?b then _ else _) => destruct b
  | |- preserves _ (match ?x with _ => _ end) => destruct x
  end.

(** The relations at hand, on the states the primitives produce. *)
Ltac relation_done :=
  unfold generation_le, log_extends, same_semaphore, sem_trace in *;
  simpl in *;
  try rewrite !List.filter_app; simpl;
  try rewrite !app_nil_r;
  first [ done | lia | by apply prefix_app_r | by eexists | by split ].

(** A computation written as a function of the world: look at each of
    its cases. *)
Ltac preserves_prim :=
  let w := fresh "w" in
  intros w;
  unfold socket_socket, sock_connect, wrap_socket, match_hostname,
    sockets_pop, _time, zoom, gets;
  repeat case_match; simplify_eq; relation_done.

Create HintDb preserves.

Ltac preserves_auto :=
  repeat first
    [ preserves_step
    | solve [ eauto with preserves ]
    | solve [ relation_done ]
    | solve [ preserves_prim ] ].

(** An external call respects a relation that the script and the methods
    of the connection respect. *)
Lemma preserves_auth_answer (R : relation World) `{!PreOrder R} r :
  (∀ w a, R w (set_auth_script a w)) →
  (∀ A (m : M SocketInfo.t A), preserves R (on_ref r m)) →
  preserves R (auth_answer r).
Proof.
  intros Hs Hon w. unfold auth_answer.
  destruct (auth_script w) as [|call rest]; [reflexivity|].
  etrans; [apply (Hs w rest)|].
  apply preserves_bind; [done|apply Hon|]. intros _.
  destruct (auth_verdict call); [by apply preserves_raise|by apply preserves_ret].
Qed.

Lemma generation_le_auth_answer r : preserves generation_le (auth_answer r).
Proof.
  apply preserves_auth_answer; [tc_solve|intros w a; relation_done|].
  intros A m. unfold on_ref. preserves_prim.
Qed.
#[export] Hint Resolve generation_le_auth_answer : preserves.

Lemma generation_le_reset : preserves generation_le reset.
Proof. unfold reset, close_ref. preserves_auto. Qed.

Lemma generation_le_create_connection_loop t results :
  ∀ err, preserves generation_le (create_connection_loop t results err).
Proof.
  induction results as [|res rest IH]; intros err; simpl; preserves_auto.
Qed.
#[export] Hint Resolve generation_le_reset generation_le_create_connection_loop : preserves.

Lemma generation_le_connect : preserves generation_le connect.
Proof. unfold connect, create_connection. preserves_auto. Qed.
#[export] Hint Resolve generation_le_connect : preserves.

Lemma generation_le_check r : preserves generation_le (_check r).
Proof. unfold _check, close_ref. preserves_auto. Qed.

Lemma generation_le_get_socket_no_auth :
  preserves generation_le _get_socket_no_auth.
Proof.
  unfold _get_socket_no_auth, _socket_semaphore_acquire,
    _socket_semaphore_release, _raise_wait_queue_timeout.
  pose proof generation_le_check. preserves_auto.
Qed.

Lemma generation_le_maybe_return_socket r :
  preserves generation_le (maybe_return_socket r).
Proof.
  unfold maybe_return_socket, _return_socket, _socket_semaphore_release,
    close_ref.
  preserves_auto.
Qed.

Lemma generation_le_check_auth r c : preserves generation_le (check_auth r c).
Proof. unfold check_auth, auth_logout, auth_authenticate. preserves_auto. Qed.

#[export] Hint Resolve generation_le_check generation_le_get_socket_no_auth
  generation_le_maybe_return_socket generation_le_check_auth : preserves.




(** *** The trace only grows *)

Lemma log_extends_reset : preserves log_extends reset.
Proof. unfold reset, close_ref. preserves_auto. Qed.

Lemma log_extends_create_connection_loop t results :
  ∀ err, preserves log_extends (create_connection_loop t results err).
Proof.
  induction results as [|res rest IH]; intros err; simpl; preserves_auto.
Qed.
#[export] Hint Resolve log_extends_reset log_extends_create_connection_loop
  : preserves.

Lemma log_extends_connect : preserves log_extends connect.
Proof. unfold connect, create_connection. preserves_auto. Qed.
#[export] Hint Resolve log_extends_connect : preserves.

Lemma log_extends_check r : preserves log_extends (_check r).
Proof. unfold _check, close_ref. preserves_auto. Qed.
#[export] Hint Resolve log_extends_check : preserves.

Lemma log_extends_get_socket_no_auth : preserves log_extends _get_socket_no_auth.
Proof.
  unfold _get_socket_no_auth, _socket_semaphore_acquire,
    _socket_semaphore_release, _raise_wait_queue_timeout.
  preserves_auto.
Qed.

(** *** What leaves the semaphore alone *)

Lemma same_semaphore_auth_answer r : preserves same_semaphore (auth_answer r).
Proof.
  apply preserves_auth_answer; [tc_solve|intros w a; relation_done|].
  intros A m. unfold on_ref. preserves_prim.
Qed.
#[export] Hint Resolve same_semaphore_auth_answer : preserves.

Lemma same_semaphore_reset : preserves same_semaphore reset.
Proof. unfold reset, close_ref. preserves_auto. Qed.

Lemma same_semaphore_create_connection_loop t results :
  ∀ err, preserves same_semaphore (create_connection_loop t results err).
Proof.
  induction results as [|res rest IH]; intros err; simpl; preserves_auto.
Qed.
#[export] Hint Resolve same_semaphore_reset
  same_semaphore_create_connection_loop : preserves.

Lemma same_semaphore_connect : preserves same_semaphore connect.
Proof. unfold connect, create_connection. preserves_auto. Qed.
#[export] Hint Resolve same_semaphore_connect : preserves.

Lemma same_semaphore_check r : preserves same_semaphore (_check r).
Proof. unfold _check, close_ref. preserves_auto. Qed.

Lemma same_semaphore_check_auth r c : preserves same_semaphore (check_auth r c).
Proof. unfold check_auth, auth_logout, auth_authenticate. preserves_auto. Qed.
#[export] Hint Resolve same_semaphore_check same_semaphore_check_auth
  : preserves.

(** *** Permit accounting *)

Lemma released_same_l w w1 w2 :
  same_semaphore w w1 → released w1 w2 → released w w2.
Proof. unfold same_semaphore, released, semaphore_of. by intros [-> ->]. Qed.

Lemma released_same_r w w1 w2 :
  released w w1 → same_semaphore w1 w2 → released w w2.
Proof.
  unfold same_semaphore, released, semaphore_of. by intros [<- <-] [<- <-].
Qed.

Lemma acquired_same_l w w1 w2 :
  same_semaphore w w1 → acquired w1 w2 → acquired w w2.
Proof. unfold same_semaphore, acquired, semaphore_of. by intros [-> ->]. Qed.

Lemma acquired_same_r w w1 w2 :
  acquired w w1 → same_semaphore w1 w2 → acquired w w2.
Proof.
  unfold same_semaphore, acquired, semaphore_of. by intros (? & ? & ?) [<- <-].
Qed.

Lemma acquired_released w w1 w2 :
  acquired w w1 → released w1 w2 → balanced w w2.
Proof.
  unfold acquired, released, balanced. intros (Hs & _ & Ht) [Hs' Ht'].
  split; [congruence|]. by rewrite Ht', Ht, <- app_assoc.
Qed.

Lemma for_each_modify_returns {S A} (l : list A) (f : A → S → S) s :
  (for_each l (λ x, modify (f x)) s).1 = Ok tt.
Proof.
  revert s. induction l as [|x l IH]; intros s; [done|].
  simpl. unfold bind, modify. apply IH.
Qed.

Lemma reset_returns w : (reset w).1 = Ok tt.
Proof.
  unfold reset, close_ref, bind, modify, gets. apply for_each_modify_returns.
Qed.

Lemma socket_semaphore_release_spec w :
  ∃ w', _socket_semaphore_release w = (Ok tt, w') ∧ released w w'.
Proof.
  eexists. split; [reflexivity|].
  unfold released, sem_trace, semaphore_of. simpl.
  split; [done|]. by rewrite List.filter_app.
Qed.

Lemma reset_same_semaphore w :
  ∃ w', reset w = (Ok tt, w') ∧ same_semaphore w w'.
Proof.
  exists (reset w).2. split; [|apply same_semaphore_reset].
  rewrite <- (reset_returns w). by destruct (reset w).
Qed.

Lemma semaphore_acquire_granted t sem sem' :
  semaphore_acquire t sem = (Ok true, sem') →
  semaphore_release sem' = sem
  ∧ Semaphore.permits sem' = Z.pred <$> Semaphore.permits sem.
Proof.
  unfold semaphore_acquire, semaphore_release.
  destruct sem as [[n|] [cap|] b]; simpl; intros H;
    repeat case_match; simplify_eq; simpl; split; try done;
    try (f_equal; f_equal; lia).
Qed.

Lemma semaphore_acquire_not_granted t sem r sem' :
  semaphore_acquire t sem = (r, sem') → r ≠ Ok true →
  sem' = sem ∧ (∀ e, r = Raise e → e = ExceededMaxWaiters).
Proof.
  unfold semaphore_acquire.
  destruct sem as [[n|] [cap|] b]; simpl; intros H;
    repeat case_match; simplify_eq; try done; split; try done;
    intros ? ?; by simplify_eq.
Qed.

(** How [acquire] ends, as seen by the accounts. *)
Lemma socket_semaphore_acquire_spec t w :
  match _socket_semaphore_acquire t w with
  | (Ok true, w') => acquired w w'
  | (Ok false, w') =>
      semaphore_of w' = semaphore_of w
      ∧ sem_trace w' = sem_trace w ++ [EvAcquire false]
  | (Raise e, w') => e = ExceededMaxWaiters ∧ same_semaphore w w'
  | (Hang, _) => True
  end.
Proof.
  unfold _socket_semaphore_acquire, bind, zoom, modify, ret.
  destruct (semaphore_acquire t (Pool._socket_semaphore (pool w)))
    as [[[]|e|] sem'] eqn:Hacq; [| | |done].
  - apply semaphore_acquire_granted in Hacq as [Hr Hp].
    unfold acquired, semaphore_of, sem_trace. simpl.
    by rewrite List.filter_app.
  - apply semaphore_acquire_not_granted in Hacq as [-> _]; [|done].
    unfold semaphore_of, sem_trace. simpl.
    by rewrite List.filter_app.
  - apply semaphore_acquire_not_granted in Hacq as [-> He]; [|done].
    split; [by apply He|]. by destruct w as [[] ? ? ? ? ? ? ? ? ?].
Qed.

Lemma maybe_return_socket_releases r w :
  ∃ w', maybe_return_socket r w = (Ok tt, w') ∧ released w w'.
Proof.
  unfold maybe_return_socket, bind, gets.
  destruct (negb _).
  - destruct (socket_semaphore_release_spec w) as (w1 & -> & Hrel).
    destruct (reset_same_semaphore w1) as (w2 & -> & Hs).
    exists w2. split; [done|]. by eapply released_same_r.
  - destruct (SocketInfo.closed (heap w r)).
    + apply socket_semaphore_release_spec.
    + unfold _return_socket, bind, gets, close_ref, modify.
      match goal with
      | |- context [if ?b then _ else _] => destruct b
      end.
      * edestruct socket_semaphore_release_spec as (w1 & -> & Hrel).
        exists w1. split; [done|]. eapply released_same_l; [|exact Hrel]. done.
      * edestruct socket_semaphore_release_spec as (w1 & -> & Hrel).
        exists w1. split; [done|]. eapply released_same_l; [|exact Hrel]. done.
Qed.

(** [try: inner except: release; raise] gives the permit back exactly when
    [inner] raises. *)
Lemma guarded_by_release {A} (inner : M World A) w :
  preserves same_semaphore inner →
  match try_except inner (λ e, _socket_semaphore_release ;;; raise e) w with
  | (Ok _, w') => same_semaphore w w'
  | (Raise _, w') => released w w'
  | (Hang, _) => True
  end.
Proof.
  intros Hi. unfold try_except. specialize (Hi w).
  destruct (inner w) as [[a|e|] w1]; simpl in Hi; [done| |done].
  rewrite bind_run.
  destruct (socket_semaphore_release_spec w1) as (w2 & -> & Hrel).
  by eapply released_same_l.
Qed.

(** How [_get_socket_no_auth] ends, as seen by the accounts: with a
    connection and a permit taken; or raising with the permit given back;
    or raising without ever having had one (the wait timed out, or the
    waiter cap was reached). *)
Lemma get_socket_no_auth_accounts w :
  match _get_socket_no_auth w with
  | (Ok _, w') => acquired w w'
  | (Raise e, w') =>
      balanced w w'
      ∨ (semaphore_of w' = semaphore_of w
         ∧ sem_trace w' = sem_trace w ++ [EvAcquire false]
         ∧ is_ConnectionFailure e = true)
      ∨ (same_semaphore w w' ∧ e = ExceededMaxWaiters)
  | (Hang, _) => True
  end.
Proof.
  unfold _get_socket_no_auth.
  rewrite bind_run. unfold gets at 1. cbn beta iota.
  rewrite bind_run.
  assert (∃ w1, (if negb (Pool.pid (pool w) =? getpid w)
                 then reset else ret tt) w = (Ok tt, w1)
                ∧ same_semaphore w w1) as (w1 & -> & Hs1).
  { destruct (negb _); [apply reset_same_semaphore | by eexists]. }
  cbn beta iota.
  rewrite bind_run. unfold gets at 1. cbn beta iota.
  rewrite bind_run.
  pose proof (socket_semaphore_acquire_spec
                (PoolOptions.wait_queue_timeout (Pool.opts (pool w1))) w1)
    as Hacq.
  destruct (_socket_semaphore_acquire _ w1) as [[[]|e|] w2];
    cbn beta iota; [| | |done].
  - (* granted *)
    rewrite bind_run. cbn [negb]. unfold ret at 1. cbn beta iota.
    rewrite bind_run.
    match goal with
    | |- context [try_except ?i ?h w2] =>
        pose proof (guarded_by_release i w2) as Hg;
        destruct (try_except i h w2) as [[r|e|] w3]
    end; cbn beta iota; [| |done].
    + rewrite bind_run. unfold _time, gets at 1. cbn beta iota.
      rewrite bind_run. unfold modify at 1. cbn beta iota. unfold ret.
      eapply acquired_same_l; [exact Hs1|].
      eapply acquired_same_r; [exact Hacq|].
      etrans; [apply Hg|done].
      unfold _check. preserves_auto.
    + left. eapply acquired_released; [|apply Hg].
      * by eapply acquired_same_l.
      * unfold _check. preserves_auto.
  - (* timed out *)
    rewrite bind_run. cbn [negb]. unfold _raise_wait_queue_timeout.
    rewrite bind_run. unfold gets at 1. cbn beta iota. unfold raise.
    right; left. destruct Hacq as [Hsem Htr], Hs1 as [Hs Ht].
    unfold semaphore_of in *. by rewrite Hsem, Htr, Hs, Ht.
  - (* too many waiters *)
    right; right. destruct Hacq as [-> Hs2]. split; [|done]. by etrans.
Qed.

(** C1.  Release totality.  Let the block of the [with] statement leave
    the semaphore alone.  However [get_socket] and its block end, the
    permits are accounted for: if the call raises, the semaphore is as it
    was, and either one permit was acquired and released once, or none
    was ever acquired (the wait timed out, or the waiter cap was reached);
    if the block ends normally without [checkout], the semaphore is as it
    was after one acquire and one release; with [checkout] the one permit
    acquired stays with the connection handed over. *)
Theorem get_socket_release_totality {A}
    (all_credentials : gmap string MongoCredential)
    (min_wire_version max_wire_version : Z) (checkout : bool)
    (body : nat → M World A) (w : World) :
  (∀ r, preserves same_semaphore (body r)) →
  match get_socket all_credentials min_wire_version max_wire_version
                   checkout body w with
  | (Ok _, w') =>
      if checkout
      then Semaphore.permits (semaphore_of w')
           = Z.pred <$> Semaphore.permits (semaphore_of w)
           ∧ sem_trace w' = sem_trace w ++ [EvAcquire true]
      else semaphore_of w' = semaphore_of w
           ∧ sem_trace w' = sem_trace w ++ [EvAcquire true; EvRelease]
  | (Raise e, w') =>
      semaphore_of w' = semaphore_of w
      ∧ (sem_trace w' = sem_trace w ++ [EvAcquire true; EvRelease]
         ∨ (sem_trace w' = sem_trace w ++ [EvAcquire false]
            ∧ is_ConnectionFailure e = true)
         ∨ (sem_trace w' = sem_trace w ∧ e = ExceededMaxWaiters))
  | (Hang, _) => True
  end.
Proof.
  intros Hbody. unfold get_socket.
  rewrite bind_run.
  pose proof (get_socket_no_auth_accounts w) as Hget.
  destruct (_get_socket_no_auth w) as [[r|e|] w1]; [| |done].
  2:{ destruct Hget as [[Hs Ht]|[(Hs & Ht & He)|[[Hs Ht] He]]].
      - split; [done|]. by left.
      - split; [done|]. right; left. done.
      - split; [done|]. right; right. done. }
  rewrite bind_run. unfold modify at 1. cbn beta iota.
  set (w2 := update r _ w1).
  assert (Hacq : acquired w w2).
  { eapply acquired_same_r; [exact Hget|]. done. }
  clearbody w2. clear Hget w1.
  unfold try_except_else.
  match goal with
  | |- context [bind ?m ?k w2] =>
      assert (Hs : preserves same_semaphore (bind m k))
        by (apply preserves_bind;
            [tc_solve | apply same_semaphore_check_auth | intros _; apply Hbody]);
      specialize (Hs w2);
      destruct (bind m k w2) as [[a|e|] w3]
  end; simpl in Hs; [| |done].
  - destruct checkout; cbn [negb].
    + unfold ret. destruct (acquired_same_r _ _ _ Hacq Hs) as (_ & Hp & Ht).
      done.
    + rewrite bind_run.
      destruct (maybe_return_socket_releases r w3) as (w4 & -> & Hrel).
      unfold ret.
      apply (acquired_released w w3 w4); [|done]. by eapply acquired_same_r.
  - assert (∃ w4,
      (if is_socket_error e || is_ConnectionFailure e
       then close_ref r ;;; maybe_return_socket r ;;; raise e
       else maybe_return_socket r ;;; raise e) w3 = (Raise e, w4)
      ∧ released w3 w4) as (w4 & -> & Hrel).
    { destruct (_ || _).
      - rewrite bind_run. unfold close_ref, modify. cbn beta iota.
        rewrite bind_run.
        edestruct maybe_return_socket_releases as (w4 & -> & Hrel).
        exists w4. split; [done|]. eapply released_same_l; [|exact Hrel]. done.
      - rewrite bind_run.
        edestruct maybe_return_socket_releases as (w4 & -> & Hrel).
        exists w4. done. }
    destruct (acquired_released w w3 w4) as [Hsem Htr]; [|done|].
    + by eapply acquired_same_r.
    + split; [done|]. by left.
Qed.

(** * Authentication reconciliation *)

Section set_iter.
Context {A : Type} `{!EqDecision A, !Countable A}.
Implicit Types (order : list A) (X : gset A).

Lemma elem_of_set_iter order X x : x ∈ set_iter order X ↔ x ∈ X.
Proof.
  unfold set_iter. rewrite elem_of_app, !list_elem_of_filter.
  rewrite elem_of_remove_dups, elem_of_elements.
  destruct (decide (x ∈ order)); tauto.
Qed.

Lemma NoDup_set_iter order X : NoDup (set_iter order X).
Proof.
  unfold set_iter. apply NoDup_app. split; [|split].
  - apply NoDup_filter, NoDup_remove_dups.
  - intros x. rewrite !list_elem_of_filter, elem_of_remove_dups. tauto.
  - apply NoDup_filter, NoDup_elements.
Qed.

Lemma set_iter_perm order X : set_iter order X ≡ₚ elements X.
Proof.
  apply NoDup_Permutation; [apply NoDup_set_iter | apply NoDup_elements |].
  intros x. by rewrite elem_of_set_iter, elem_of_elements.
Qed.

Lemma set_iter_empty order : set_iter order (∅ : gset A) = [].
Proof.
  apply Permutation_nil_r. by rewrite set_iter_perm, elements_empty.
Qed.

Lemma list_to_set_set_iter order X : list_to_set (set_iter order X) = X.
Proof.
  apply set_eq. intros x. by rewrite elem_of_list_to_set, elem_of_set_iter.
Qed.

Lemma remove_dups_NoDup order : NoDup order → remove_dups order = order.
Proof.
  induction 1 as [|x l Hx Hl IH]; [done|].
  simpl. destruct (decide_rel _ _ _); [done|]. by rewrite IH.
Qed.

Lemma filter_all (P : A → Prop) `{!∀ x, Decision (P x)} (l : list A) :
  Forall P l → filter P l = l.
Proof.
  induction 1 as [|x l Hx Hl IH]; [done|].
  rewrite filter_cons_True by done. by rewrite IH.
Qed.

Lemma filter_none (P : A → Prop) `{!∀ x, Decision (P x)} (l : list A) :
  Forall (λ x, ¬ P x) l → filter P l = [].
Proof.
  induction 1 as [|x l Hx Hl IH]; [done|].
  by rewrite filter_cons_False.
Qed.

(** Every enumeration of a set is its visiting order for some choice of
    the environment: the model leaves Python's order open. *)
Lemma set_iter_any order X :
  NoDup order → (∀ x, x ∈ order ↔ x ∈ X) → set_iter order X = order.
Proof.
  intros Hnd Hin. unfold set_iter.
  rewrite remove_dups_NoDup, filter_all, filter_none, app_nil_r; try done.
  - apply Forall_forall. intros x. rewrite elem_of_elements, Hin. tauto.
  - apply Forall_forall. intros x. by rewrite Hin.
Qed.
End set_iter.

Lemma elem_of_itervalues_set (X : gmap string MongoCredential) c :
  c ∈ itervalues_set X ↔ ∃ k, X !! k = Some c.
Proof.
  unfold itervalues_set. rewrite elem_of_list_to_set, list_elem_of_fmap.
  split.
  - intros ([k c'] & -> & Hin). exists k. by apply elem_of_map_to_list.
  - intros [k Hk]. exists (k, c). split; [done|]. by apply elem_of_map_to_list.
Qed.

Lemma authset_update self f w :
  SocketInfo.authset (heap (update self f w) self)
  = SocketInfo.authset (f (heap w self)).
Proof. unfold update. simpl. by rewrite fn_lookup_insert. Qed.

(** ** What an external call can do *)

Lemma set_authset_same x : SocketInfo.set_authset (SocketInfo.authset x) x = x.
Proof. by destruct x. Qed.

Lemma authset_blind_ret {A} (a : A) : authset_blind (ret a).
Proof. by intros x b. Qed.

Lemma authset_blind_raise {A} e : authset_blind (@raise SocketInfo.t A e).
Proof. by intros x b. Qed.

Lemma authset_blind_hang {A} : authset_blind (@hang SocketInfo.t A).
Proof. by intros x b. Qed.

Lemma authset_blind_bind {A B} (m : M SocketInfo.t A)
    (k : A → M SocketInfo.t B) :
  authset_blind m → (∀ a, authset_blind (k a)) → authset_blind (bind m k).
Proof.
  intros Hm Hk x b. rewrite !bind_run, Hm.
  destruct (m x) as [[a|e|] x1]; cbn [fst snd]; [apply Hk|done|done].
Qed.

Lemma authset_blind_try_except {A} (m : M SocketInfo.t A)
    (h : exn → M SocketInfo.t A) :
  authset_blind m → (∀ e, authset_blind (h e)) →
  authset_blind (try_except m h).
Proof.
  intros Hm Hh x b. unfold try_except. rewrite Hm.
  destruct (m x) as [[a|e|] x1]; cbn [fst snd]; [done|apply Hh|done].
Qed.

Lemma authset_blind_on_sock {A} (m : M socket A) : authset_blind (on_sock m).
Proof. intros x b. unfold on_sock, zoom. cbn. by destruct (m _). Qed.

Lemma authset_blind_close : authset_blind (modify close).
Proof. by intros x b. Qed.

Lemma authset_blind_struct_unpack_i bs :
  authset_blind (struct_unpack_i bs).
Proof. intros x b. unfold struct_unpack_i. by destruct (decide _). Qed.

Lemma authset_blind_assert b msg : authset_blind (assert_ b msg).
Proof. intros x a. by destruct b. Qed.

Lemma authset_blind_wire_version :
  authset_blind min_wire_version ∧ authset_blind max_wire_version.
Proof.
  split; intros x b; unfold min_wire_version, max_wire_version; cbn.
  - by destruct (SocketInfo._min_wire_version x).
  - by destruct (SocketInfo._max_wire_version x).
Qed.

(** One step of a proof that a method does not look at [authset]. *)
Ltac blind_step :=
  match goal with
  | |- authset_blind (bind _ _) => apply authset_blind_bind; [|intros ?]
  | |- authset_blind (try_except _ _) =>
      apply authset_blind_try_except; [|intros ?]
  | |- authset_blind (ret _) => apply authset_blind_ret
  | |- authset_blind (raise _) => apply authset_blind_raise
  | |- authset_blind hang => apply authset_blind_hang
  | |- authset_blind (on_sock _) => apply authset_blind_on_sock
  | |- authset_blind (modify close) => apply authset_blind_close
  | |- authset_blind (struct_unpack_i _) => apply authset_blind_struct_unpack_i
  | |- authset_blind (assert_ _ _) => apply authset_blind_assert
  | |- authset_blind min_wire_version => apply authset_blind_wire_version
  | |- authset_blind max_wire_version => apply authset_blind_wire_version
  | |- authset_blind (if ?b then _ else _) => destruct b
  | |- authset_blind (match ?x with _ => _ end) => destruct x
  end.

Lemma authset_blind_send_message message :
  authset_blind (send_message message).
Proof. unfold send_message. repeat blind_step. Qed.

Lemma authset_blind_receive_data_loop fuel :
  ∀ length message, authset_blind (receive_data_loop fuel length message).
Proof.
  induction fuel as [|fuel IH]; intros length message;
    cbn [receive_data_loop]; repeat blind_step; apply IH.
Qed.

Lemma authset_blind_receive_message operation request_id :
  authset_blind (receive_message operation request_id).
Proof.
  unfold receive_message, __receive_data_on_socket.
  repeat first [blind_step | apply authset_blind_receive_data_loop].
Qed.

Lemma authset_blind_auth_steps steps :
  authset_blind (for_each steps auth_step_run).
Proof.
  induction steps as [|step steps IH]; cbn [for_each]; [apply authset_blind_ret|].
  apply authset_blind_bind; [|by intros _].
  destruct step; cbn [auth_step_run].
  - apply authset_blind_send_message.
  - apply authset_blind_bind; [apply authset_blind_receive_message|].
    intros ?. apply authset_blind_ret.
  - repeat blind_step.
Qed.

(** A method that does not look at [authset] does not change it. *)
Lemma authset_blind_keeps {A} (m : M SocketInfo.t A) x :
  authset_blind m → SocketInfo.authset (m x).2 = SocketInfo.authset x.
Proof.
  intros Hm. specialize (Hm x (SocketInfo.authset x)).
  rewrite set_authset_same in Hm.
  destruct (m x) as [res x']. cbn [fst snd] in *.
  injection Hm as Hx. by rewrite Hx.
Qed.

Lemma auth_steps_return steps x :
  (for_each steps auth_step_run x).1 ≠ Hang.
Proof.
  revert x. induction steps as [|step steps IH]; intros x; [done|].
  cbn [for_each]. rewrite bind_run.
  assert (Hstep : (auth_step_run step x).1 ≠ Hang).
  { destruct step; cbn [auth_step_run].
    - unfold send_message, try_except, on_sock, zoom, sock_sendall.
      by destruct (send_faults (SocketInfo.sock x)) as [|[e|] rest].
    - rewrite bind_run.
      pose proof (receive_message_returns operation request_id x) as Hr.
      by destruct (receive_message operation request_id x) as [[b|e|] x'].
    - unfold min_wire_version, max_wire_version, bind, ret.
      destruct (SocketInfo._min_wire_version x); [|done].
      by destruct (SocketInfo._max_wire_version x). }
  destruct (auth_step_run step x) as [[[]|e|] x']; [apply IH|done|done].
Qed.

(** An external call returns or raises; it leaves the trace and [authset]
    as they are. *)
Lemma auth_answer_spec self w :
  ∃ res w',
    auth_answer self w = (res, w')
    ∧ res ≠ Hang
    ∧ log w' = log w
    ∧ cred_order w' = cred_order w
    ∧ SocketInfo.authset (heap w' self) = SocketInfo.authset (heap w self).
Proof.
  unfold auth_answer.
  destruct (auth_script w) as [|call rest]; [by exists (Ok tt), w|].
  rewrite bind_run. unfold on_ref, zoom. cbn [heap set_auth_script].
  pose proof (auth_steps_return (auth_steps call) (heap w self)) as Hnh.
  pose proof (authset_blind_keeps _ (heap w self)
                (authset_blind_auth_steps (auth_steps call))) as Hauth.
  destruct (for_each (auth_steps call) auth_step_run (heap w self))
    as [[[]|e|] x']; cbn [fst snd] in *; [|eexists _, _|done].
  - destruct (auth_verdict call) as [e|]; eexists _, _;
      (split; [reflexivity|]); cbn; by rewrite fn_lookup_insert.
  - split; [reflexivity|]. cbn. by rewrite fn_lookup_insert.
Qed.

(** ** The passes of [check_auth] *)

(** One pass of [check_auth]: call [auth] for each credential of [l] in
    turn ([ev] is what the trace shows of a call), then record the change
    [g] in [self.authset]; stop at the first call that raises. *)
Lemma check_auth_pass (self : nat) (call : MongoCredential → M World unit)
    (ev : MongoCredential → event)
    (g : MongoCredential → gset MongoCredential → gset MongoCredential)
    (l : list MongoCredential) :
  (∀ c, call c = (modify (emit (ev c)) ;;; auth_answer self)) →
  ∀ w, ∃ called res w',
    for_each l (λ c, call c ;;;
                     modify (update self (λ x,
                       SocketInfo.set_authset (g c (SocketInfo.authset x)) x)))
             w = (res, w')
    ∧ called `prefix_of` l
    ∧ log w' = log w ++ (ev <$> called)
    ∧ cred_order w' = cred_order w
    ∧ match res with
      | Ok _ =>
          called = l
          ∧ SocketInfo.authset (heap w' self)
            = foldl (λ acc c, g c acc) (SocketInfo.authset (heap w self)) l
      | Raise _ => called ≠ []
      | Hang => False
      end.
Proof.
  intros Hcall. induction l as [|c l IH]; intros w.
  - exists [], (Ok tt), w. simpl. by rewrite app_nil_r.
  - cbn [for_each]. rewrite !bind_run, Hcall, bind_run.
    unfold modify at 1. cbn beta iota.
    destruct (auth_answer_spec self (emit (ev c) w))
      as (res0 & w0 & -> & Hnh & Hlog0 & Hord0 & Hauth0).
    destruct res0 as [[]|e|]; [| |done].
    + (* the call returns *)
      unfold modify at 1. cbn beta iota.
      destruct (IH (update self (λ x, SocketInfo.set_authset
                      (g c (SocketInfo.authset x)) x) w0))
        as (called & res & w' & -> & Hpre & Hlog & Hord & Hres).
      exists (c :: called), res, w'. split; [done|].
      split; [by apply prefix_cons|].
      split; [rewrite Hlog; cbn [log update set_heap]; rewrite Hlog0; simpl;
              by rewrite <- app_assoc|].
      split; [by rewrite Hord|].
      destruct res; [|done|done]. destruct Hres as [-> Hauth].
      split; [done|]. rewrite Hauth, authset_update. cbn. by rewrite Hauth0.
    + (* the call raises *)
      eexists [c], _, _. split; [done|].
      split; [by apply prefix_cons, prefix_nil|].
      split; [by rewrite Hlog0|]. done.
Qed.

(** One pass of [check_auth], with what it leaves in [authset]: the
    changes of the calls that returned, and, when a call raised, that call
    as the last one made. *)
Lemma check_auth_pass_state (self : nat) (call : MongoCredential → M World unit)
    (ev : MongoCredential → event)
    (g : MongoCredential → gset MongoCredential → gset MongoCredential)
    (l : list MongoCredential) :
  (∀ c, call c = (modify (emit (ev c)) ;;; auth_answer self)) →
  ∀ w, ∃ done res w',
    for_each l (λ c, call c ;;;
                     modify (update self (λ x,
                       SocketInfo.set_authset (g c (SocketInfo.authset x)) x)))
             w = (res, w')
    ∧ SocketInfo.authset (heap w' self)
      = foldl (λ acc c, g c acc) (SocketInfo.authset (heap w self)) done
    ∧ cred_order w' = cred_order w
    ∧ match res with
      | Ok _ => done = l ∧ log w' = log w ++ (ev <$> l)
      | Raise _ =>
          ∃ failed rest,
            l = done ++ failed :: rest
            ∧ log w' = log w ++ (ev <$> (done ++ [failed]))
      | Hang => False
      end.
Proof.
  intros Hcall. induction l as [|c l IH]; intros w.
  - exists [], (Ok tt), w. simpl. by rewrite app_nil_r.
  - cbn [for_each]. rewrite !bind_run, Hcall, bind_run.
    unfold modify at 1. cbn beta iota.
    destruct (auth_answer_spec self (emit (ev c) w))
      as (res0 & w0 & -> & Hnh & Hlog0 & Hord0 & Hauth0).
    destruct res0 as [[]|e|]; [| |done].
    + unfold modify at 1. cbn beta iota.
      destruct (IH (update self (λ x, SocketInfo.set_authset
                      (g c (SocketInfo.authset x)) x) w0))
        as (done & res & w' & -> & Hauth & Hord & Hres).
      exists (c :: done), res, w'. split; [done|].
      split; [rewrite Hauth, authset_update; cbn; by rewrite Hauth0|].
      split; [by rewrite Hord|].
      destruct res as [[]|e|]; [| |done].
      * destruct Hres as [-> Hlog]. split; [done|].
        rewrite Hlog. cbn [log update set_heap]. rewrite Hlog0. cbn.
        by rewrite <- app_assoc.
      * destruct Hres as (failed & rest & -> & Hlog).
        exists failed, rest. split; [done|].
        rewrite Hlog. cbn [log update set_heap]. rewrite Hlog0. cbn.
        by rewrite <- app_assoc.
    + exists [], (Raise e), w0.
      split; [done|]. split; [by rewrite Hauth0|]. split; [done|].
      exists c, l. split; [done|]. by rewrite Hlog0.
Qed.

Lemma foldl_discard (l : list MongoCredential) :
  ∀ X : gset MongoCredential,
    foldl (λ acc c, acc ∖ {[c]}) X l = X ∖ list_to_set l.
Proof.
  induction l as [|c l IH]; intros X; simpl; [set_solver|].
  rewrite IH. set_solver.
Qed.

Lemma foldl_add (l : list MongoCredential) :
  ∀ X : gset MongoCredential,
    foldl (λ acc c, {[c]} ∪ acc) X l = list_to_set l ∪ X.
Proof.
  induction l as [|c l IH]; intros X; simpl; [set_solver|].
  rewrite IH. set_solver.
Qed.

(** [check_auth], as the two passes it makes when it has something to
    compare. *)
Lemma check_auth_unfold self X w :
  check_auth self X w
  = if bool_decide (X ≠ ∅)
       || bool_decide (SocketInfo.authset (heap w self) ≠ ∅)
    then
      (for_each (set_iter (cred_order w)
                   (SocketInfo.authset (heap w self) ∖ itervalues_set X))
         (λ c, auth_logout (source c) self ;;;
               modify (update self (λ x,
                 SocketInfo.set_authset (SocketInfo.authset x ∖ {[c]}) x)))
       ;;;
       for_each (set_iter (cred_order w)
                   (itervalues_set X ∖ SocketInfo.authset (heap w self)))
         (λ c, auth_authenticate c self ;;;
               modify (update self (λ x,
                 SocketInfo.set_authset ({[c]} ∪ SocketInfo.authset x) x))))
        w
    else (Ok tt, w).
Proof.
  unfold check_auth. rewrite bind_run. unfold gets at 1. cbn beta iota.
  destruct (_ || _); [|done].
  rewrite bind_run. unfold gets at 1. by cbn beta iota.
Qed.

(** ** [check_auth] and the external calls it makes *)

Lemma for_each_app {S A} (l1 l2 : list A) (body : A → M S unit) s :
  for_each (l1 ++ l2) body s = (for_each l1 body ;;; for_each l2 body) s.
Proof.
  revert s. induction l1 as [|x l1 IH]; intros s; [done|].
  cbn [app for_each]. rewrite !bind_run.
  destruct (body x s) as [[[]|e|] s1]; [|done|done].
  by rewrite IH, bind_run.
Qed.

Lemma beside_authset_of_refl self w : beside_authset_of self w w.
Proof. unfold beside_authset_of, beside_authset. by repeat split. Qed.

Lemma beside_authset_of_emit self ev wa wc :
  beside_authset_of self wa wc →
  beside_authset_of self (emit ev wa) (emit ev wc).
Proof.
  unfold beside_authset_of.
  intros (? & ? & ? & ? & ? & ? & ? & ? & Hlog & ? & ?). cbn.
  rewrite Hlog. by repeat split.
Qed.

Lemma beside_authset_of_update self f wa wc :
  beside_authset_of self wa wc →
  beside_authset_of self wa
    (update self (λ x, SocketInfo.set_authset (f x) x) wc).
Proof.
  unfold beside_authset_of, beside_authset, update.
  intros (? & ? & ? & ? & ? & ? & ? & ? & ? & Hoff & Hself). cbn.
  repeat (split; [done|]). split.
  - intros r Hr. rewrite fn_lookup_insert_ne by done. by apply Hoff.
  - rewrite fn_lookup_insert. cbn. exact Hself.
Qed.

Lemma on_ref_alike {A} self (m : M SocketInfo.t A) wa wc :
  authset_blind m →
  beside_authset_of self wa wc →
  (on_ref self m wa).1 = (on_ref self m wc).1
  ∧ beside_authset_of self (on_ref self m wa).2 (on_ref self m wc).2.
Proof.
  intros Hm (Hp & Hg & Ht & Hn & Hfd & Hs & Hc & Hr & Hl & Hoff & Hself).
  unfold on_ref, zoom.
  assert (Hx : heap wc self
               = SocketInfo.set_authset (SocketInfo.authset (heap wc self))
                   (heap wa self)).
  { unfold beside_authset in Hself.
    destruct (heap wc self), (heap wa self).
    unfold SocketInfo.set_authset in *. cbn in *.
    injection Hself as -> -> -> -> -> -> ->. reflexivity. }
  rewrite Hx, Hm.
  destruct (m (heap wa self)) as [res x']. cbn [fst snd].
  split; [done|]. unfold beside_authset_of, beside_authset. cbn.
  repeat (split; [done|]). split.
  - intros r Hne. rewrite !fn_lookup_insert_ne by done. by apply Hoff.
  - by rewrite !fn_lookup_insert.
Qed.

Lemma auth_answer_alike self wa wc :
  beside_authset_of self wa wc →
  alike self (auth_answer self wa) (auth_answer self wc).
Proof.
  intros Hrel. unfold alike, auth_answer.
  assert (Hs : auth_script wc = auth_script wa) by apply Hrel.
  rewrite Hs. destruct (auth_script wa) as [|call rest]; [done|].
  rewrite !bind_run.
  assert (Hrel' : beside_authset_of self (set_auth_script rest wa)
                    (set_auth_script rest wc)).
  { destruct Hrel as (? & ? & ? & ? & ? & ? & ? & ? & ? & ? & ?).
    unfold beside_authset_of. cbn. by repeat split. }
  destruct (on_ref_alike self (for_each (auth_steps call) auth_step_run)
              _ _ (authset_blind_auth_steps _) Hrel') as [Hres Hw].
  destruct (on_ref self _ (set_auth_script rest wa)) as [ra wa'],
           (on_ref self _ (set_auth_script rest wc)) as [rc wc'].
  cbn [fst snd] in *. subst rc.
  destruct ra as [[]|e|]; [|done|done].
  by destruct (auth_verdict call).
Qed.

(** One pass of [check_auth] ends as its external calls end. *)
Lemma pass_alike (self : nat) (call : MongoCredential → M World unit)
    (ev : MongoCredential → event)
    (g : MongoCredential → gset MongoCredential → gset MongoCredential)
    (l : list MongoCredential) :
  (∀ c, call c = (modify (emit (ev c)) ;;; auth_answer self)) →
  ∀ wa wc, beside_authset_of self wa wc →
    alike self
      (auth_calls self (ev <$> l) wa)
      (for_each l (λ c, call c ;;;
                        modify (update self (λ x,
                          SocketInfo.set_authset (g c (SocketInfo.authset x)) x)))
                wc).
Proof.
  intros Hcall. induction l as [|c l IH]; intros wa wc Hrel; [done|].
  unfold auth_calls. cbn [fmap list_fmap for_each].
  rewrite !bind_run, Hcall, !bind_run. unfold modify at 1 3. cbn beta iota.
  destruct (auth_answer_alike self (emit (ev c) wa) (emit (ev c) wc))
    as [Hres Hw]; [by apply beside_authset_of_emit|].
  destruct (auth_answer self (emit (ev c) wa)) as [ra wa'],
           (auth_answer self (emit (ev c) wc)) as [rc wc'].
  cbn [fst snd] in *. subst rc.
  destruct ra as [[]|e|]; [|done|done].
  unfold modify at 1. cbn beta iota.
  apply IH. by apply (beside_authset_of_update self).
Qed.

(** [check_auth] ends as the external calls it makes end, and leaves the
    world as they leave it, [authset] apart. *)
Lemma check_auth_alike self X w :
  alike self
    (auth_calls self
       (logouts self (set_iter (cred_order w)
                        (SocketInfo.authset (heap w self) ∖ itervalues_set X))
        ++ logins self (set_iter (cred_order w)
                          (itervalues_set X ∖ SocketInfo.authset (heap w self))))
       w)
    (check_auth self X w).
Proof.
  rewrite check_auth_unfold.
  destruct (_ || _) eqn:Hcond.
  2:{ apply orb_false_elim in Hcond as [HX Ha].
      apply bool_decide_eq_false in HX, Ha.
      apply dec_stable in HX, Ha. subst X. rewrite Ha.
      replace (itervalues_set ∅) with (∅ : gset MongoCredential) by done.
      replace (∅ ∖ ∅ : gset MongoCredential) with (∅ : gset MongoCredential)
        by set_solver.
      rewrite set_iter_empty. cbn. split; [done|].
      apply beside_authset_of_refl. }
  unfold auth_calls. rewrite for_each_app, !bind_run.
  destruct (pass_alike self (λ c, auth_logout (source c) self)
              (λ c, EvLogout (source c) self) (λ c acc, acc ∖ {[c]})
              (set_iter (cred_order w)
                 (SocketInfo.authset (heap w self) ∖ itervalues_set X))
              (λ _, eq_refl) w w (beside_authset_of_refl self w))
    as [Hres Hw].
  unfold auth_calls, logouts in *.
  destruct (for_each ((λ c, EvLogout (source c) self) <$> _) _ w) as [ra wa],
           (for_each (set_iter (cred_order w)
                        (SocketInfo.authset (heap w self) ∖ itervalues_set X))
                     _ w) as [rc wc].
  cbn [fst snd] in *. subst rc.
  destruct ra as [[]|e|]; [|done|done].
  apply (pass_alike self (λ c, auth_authenticate c self)
           (λ c, EvAuthenticate c self) (λ c acc, {[c]} ∪ acc)
           _ (λ _, eq_refl) wa wc Hw).
Qed.

(** What the two passes of [check_auth] amount to. *)
Lemma check_auth_passes (self : nat)
    (all_credentials : gmap string MongoCredential) (w : World) :
  let authset := SocketInfo.authset (heap w self) in
  let cached := itervalues_set all_credentials in
  (all_credentials = ∅ → authset = ∅ →
   check_auth self all_credentials w = (Ok tt, w))
  ∧ ∃ outs ins,
      outs ≡ₚ elements (authset ∖ cached)
      ∧ ins ≡ₚ elements (cached ∖ authset)
      ∧ match check_auth self all_credentials w with
        | (Ok _, w') =>
            log w' = log w ++ logouts self outs ++ logins self ins
            ∧ SocketInfo.authset (heap w' self) = cached
        | (Raise _, w') =>
            ∃ outs' ins',
              outs' `prefix_of` outs ∧ ins' `prefix_of` ins
              ∧ (ins' ≠ [] → outs' = outs)
              ∧ log w' = log w ++ logouts self outs' ++ logins self ins'
        | (Hang, _) => False
        end.
Proof.
  intros authset cached. rewrite check_auth_unfold. split.
  { intros -> Hempty. subst authset. rewrite Hempty.
    rewrite !bool_decide_eq_false_2; [done| |]; intros Hne; by apply Hne. }
  fold authset cached.
  exists (set_iter (cred_order w) (authset ∖ cached)),
         (set_iter (cred_order w) (cached ∖ authset)).
  split; [apply set_iter_perm|]. split; [apply set_iter_perm|].
  destruct (_ || _) eqn:Hcond.
  2:{ apply orb_false_elim in Hcond as [HX Ha].
      apply bool_decide_eq_false in HX, Ha.
      apply dec_stable in HX, Ha. subst all_credentials.
      assert (cached = ∅) as -> by (subst cached; done).
      fold authset in Ha. rewrite Ha.
      replace (∅ ∖ ∅ : gset MongoCredential) with (∅ : gset MongoCredential)
        by set_solver.
      rewrite set_iter_empty. simpl. by rewrite app_nil_r. }
  rewrite bind_run.
  edestruct (check_auth_pass self (λ c, auth_logout (source c) self)
               (λ c, EvLogout (source c) self) (λ c acc, acc ∖ {[c]})
               (set_iter (cred_order w) (authset ∖ cached)))
    as (outs' & res & w1 & -> & Hpre & Hlog & Hord & Hres); [done|].
  destruct res as [[]|e|]; [| |done].
  2:{ exists outs', []. split; [done|]. split; [apply prefix_nil|].
      split; [done|]. by rewrite Hlog, app_nil_r. }
  destruct Hres as [-> Hauth1]. rewrite foldl_discard in Hauth1.
  edestruct (check_auth_pass self (λ c, auth_authenticate c self)
               (λ c, EvAuthenticate c self) (λ c acc, {[c]} ∪ acc)
               (set_iter (cred_order w) (cached ∖ authset)))
    as (ins' & res & w2 & -> & Hpre2 & Hlog2 & Hord2 & Hres2); [done|].
  destruct res as [[]|e|]; [| |done].
  - destruct Hres2 as [-> Hauth2]. split.
    + by rewrite Hlog2, Hlog, <- app_assoc.
    + rewrite Hauth2, foldl_add, Hauth1, !list_to_set_set_iter.
      fold authset. apply set_eq. intros c.
      rewrite elem_of_union, !elem_of_difference.
      destruct (decide (c ∈ authset)), (decide (c ∈ cached)); tauto.
  - eexists _, ins'. split; [done|]. split; [done|]. split; [done|].
    by rewrite Hlog2, Hlog, <- app_assoc.
Qed.

(** C4.  Authentication reconciliation.  With both the desired
    credentials and [authset] empty, [check_auth] does nothing at all.  In
    general it calls [logout] for the credentials of [authset] that are
    not desired, in some order, then [authenticate] for the desired
    credentials that are not in [authset], in some order, and it ends as
    that sequence of external calls ends: it returns when every call
    returns, it raises the error of the first call that raises, and it
    leaves the world, the connection included, as the calls leave it,
    [authset] apart.  When it returns, exactly these calls were made and
    [authset] is the set of desired credentials.  When a call raises, the
    calls made are those up to the one that raised, and [authset] holds
    the changes of the calls that returned before it. *)
Theorem check_auth_reconciles (self : nat)
    (all_credentials : gmap string MongoCredential) (w : World) :
  let authset := SocketInfo.authset (heap w self) in
  let cached := itervalues_set all_credentials in
  (all_credentials = ∅ → authset = ∅ →
   check_auth self all_credentials w = (Ok tt, w))
  ∧ ∃ outs ins,
      outs ≡ₚ elements (authset ∖ cached)
      ∧ ins ≡ₚ elements (cached ∖ authset)
      ∧ alike self
          (auth_calls self (logouts self outs ++ logins self ins) w)
          (check_auth self all_credentials w)
      ∧ match check_auth self all_credentials w with
        | (Ok _, w') =>
            log w' = log w ++ logouts self outs ++ logins self ins
            ∧ SocketInfo.authset (heap w' self) = cached
        | (Raise _, w') =>
            ∃ outs' ins' failed rest,
              SocketInfo.authset (heap w' self)
              = list_to_set ins' ∪ (authset ∖ list_to_set outs')
              ∧ ((outs = outs' ++ failed :: rest ∧ ins' = []
                  ∧ log w' = log w ++ logouts self (outs' ++ [failed]))
                 ∨ (outs' = outs ∧ ins = ins' ++ failed :: rest
                    ∧ log w' = log w ++ logouts self outs
                                     ++ logins self (ins' ++ [failed])))
        | (Hang, _) => False
        end.
Proof.
  intros authset cached. split.
  { rewrite check_auth_unfold. intros -> Hempty. subst authset.
    rewrite Hempty.
    rewrite !bool_decide_eq_false_2; [done| |]; intros Hne; by apply Hne. }
  exists (set_iter (cred_order w) (authset ∖ cached)),
         (set_iter (cred_order w) (cached ∖ authset)).
  split; [apply set_iter_perm|]. split; [apply set_iter_perm|].
  split; [apply check_auth_alike|].
  rewrite check_auth_unfold. fold authset cached.
  destruct (_ || _) eqn:Hcond.
  2:{ apply orb_false_elim in Hcond as [HX Ha].
      apply bool_decide_eq_false in HX, Ha.
      apply dec_stable in HX, Ha. subst all_credentials.
      assert (cached = ∅) as -> by (subst cached; done).
      fold authset in Ha. rewrite Ha.
      replace (∅ ∖ ∅ : gset MongoCredential) with (∅ : gset MongoCredential)
        by set_solver.
      rewrite set_iter_empty. simpl. by rewrite app_nil_r. }
  rewrite bind_run.
  set (outs := set_iter (cred_order w) (authset ∖ cached)).
  set (ins := set_iter (cred_order w) (cached ∖ authset)).
  edestruct (check_auth_pass_state self (λ c, auth_logout (source c) self)
               (λ c, EvLogout (source c) self) (λ c acc, acc ∖ {[c]}) outs)
    as (od & res & w1 & -> & Hauth1 & Hord & Hres); [done|].
  rewrite foldl_discard in Hauth1. fold authset in Hauth1.
  destruct res as [[]|e|]; [| |done].
  2:{ destruct Hres as (failed & rest & Hl & Hlog).
      exists od, [], failed, rest. split; [rewrite Hauth1; set_solver|].
      left. done. }
  destruct Hres as [-> Hlog1].
  edestruct (check_auth_pass_state self (λ c, auth_authenticate c self)
               (λ c, EvAuthenticate c self) (λ c acc, {[c]} ∪ acc) ins)
    as (id & res & w2 & -> & Hauth2 & Hord2 & Hres2); [done|].
  rewrite foldl_add, Hauth1 in Hauth2.
  destruct res as [[]|e|]; [| |done].
  - destruct Hres2 as [-> Hlog2]. split.
    + unfold logouts, logins. by rewrite Hlog2, Hlog1, <- app_assoc.
    + rewrite Hauth2. unfold outs, ins. rewrite !list_to_set_set_iter.
      apply set_eq. intros c.
      rewrite elem_of_union, !elem_of_difference.
      destruct (decide (c ∈ authset)), (decide (c ∈ cached)); tauto.
  - destruct Hres2 as (failed & rest & Hl & Hlog2).
    exists outs, id, failed, rest. split; [done|]. right.
    split; [done|]. split; [done|].
    unfold logouts, logins. by rewrite Hlog2, Hlog1, <- app_assoc.
Qed.

(** C8.  Applying [check_auth] twice in succession with the same
    credentials does what applying it once does: the second application
    makes no call into [auth] and changes nothing, [authset] included. *)
Theorem check_auth_idempotent (self : nat)
    (all_credentials : gmap string MongoCredential) (w : World) :
  (check_auth self all_credentials ;;; check_auth self all_credentials) w
  = check_auth self all_credentials w
  ∧ ∀ w1, check_auth self all_credentials w = (Ok tt, w1) →
          check_auth self all_credentials w1 = (Ok tt, w1).
Proof.
  assert (Hsecond : ∀ w1, check_auth self all_credentials w = (Ok tt, w1) →
                          check_auth self all_credentials w1 = (Ok tt, w1)).
  { intros w1 Hfirst.
    destruct (check_auth_passes self all_credentials w)
      as (_ & outs & ins & _ & _ & Hspec).
    rewrite Hfirst in Hspec. destruct Hspec as [_ Hauth].
    rewrite check_auth_unfold, Hauth.
    destruct (_ || _); [|done].
    replace (itervalues_set all_credentials ∖ itervalues_set all_credentials)
      with (∅ : gset MongoCredential) by set_solver.
    by rewrite set_iter_empty. }
  split; [|exact Hsecond].
  rewrite bind_run.
  destruct (check_auth self all_credentials w) as [[[]|e|] w1] eqn:Hfirst;
    [|done|done].
  by apply Hsecond.
Qed.

(** * Reset, fork detection and release *)

Lemma close_close x : close (close x) = close x.
Proof. reflexivity. Qed.

Lemma closed_close x : SocketInfo.closed (close x) = true.
Proof. reflexivity. Qed.

(** Closing every connection of a list touches nothing but them. *)
Lemma for_each_close_ref (l : list nat) :
  ∀ w, ∃ w',
    for_each l close_ref w = (Ok tt, w')
    ∧ w' = set_heap (heap w') w
    ∧ ∀ r, heap w' r = if decide (r ∈ l) then close (heap w r) else heap w r.
Proof.
  induction l as [|x l IH]; intros w.
  - exists w. split; [done|]. split; [by destruct w|]. intros r.
    destruct (decide (r ∈ [])) as [Hin|]; [by apply elem_of_nil in Hin|done].
  - cbn [for_each]. rewrite bind_run. unfold close_ref at 1, modify.
    cbn beta iota.
    destruct (IH (update x close w)) as (w' & -> & Hw' & Hheap).
    exists w'. split; [done|]. split; [by rewrite Hw'|]. intros r.
    rewrite Hheap. unfold update. cbn [heap set_heap].
    destruct (decide (r = x)) as [->|Hne].
    + rewrite fn_lookup_insert.
      rewrite (decide_True (P := x ∈ x :: l)) by apply list_elem_of_here.
      by destruct (decide (x ∈ l)).
    + rewrite fn_lookup_insert_ne by done.
      destruct (decide (r ∈ l)) as [Hin|Hnin].
      * by rewrite decide_True by by apply list_elem_of_further.
      * rewrite decide_False; [done|]. by intros [?|?]%elem_of_cons.
Qed.

(** What [reset] does to the world. *)
Lemma reset_spec w :
  ∃ w',
    reset w = (Ok tt, w')
    ∧ w' = set_heap (heap w')
             (set_pool (Pool.set_sockets ∅
                          (Pool.set_pid (getpid w)
                             (Pool.set_pool_id (Pool.pool_id (pool w) + 1)
                                               (pool w))))
                       (emit EvReset w))
    ∧ ∀ r, heap w' r = if decide (r ∈ Pool.sockets (pool w))
                       then close (heap w r) else heap w r.
Proof.
  unfold reset. rewrite !bind_run. unfold modify, gets. cbn beta iota.
  rewrite !bind_run. cbn beta iota.
  match goal with
  | |- context [for_each ?l close_ref ?w0] =>
      destruct (for_each_close_ref l w0) as (w' & -> & Hw' & Hheap)
  end.
  exists w'. split; [done|]. split; [by rewrite Hw' at 1|].
  intros r. rewrite Hheap. cbn [heap set_pool emit].
  destruct (decide (r ∈ set_iter _ _)) as [Hin|Hnin];
    rewrite elem_of_set_iter in *; cbn [pool set_pool emit Pool.sockets
      Pool.set_pid Pool.set_pool_id] in *.
  - by rewrite decide_True.
  - by rewrite decide_False.
Qed.

(** The state in which [_return_socket] releases the permit: the
    connection has been added to the idle set, or closed. *)
Lemma return_socket_spec r w :
  _return_socket r w
  = _socket_semaphore_release
      (if negb (match PoolOptions.max_pool_size (Pool.opts (pool w)) with
                | Some max_size =>
                    len (elements (Pool.sockets (pool w))) >=? max_size
                | None => false
                end)
          && (SocketInfo.pool_id (heap w r) =? Pool.pool_id (pool w))
       then set_pool (Pool.set_sockets ({[r]} ∪ Pool.sockets (pool w))
                                       (pool w)) w
       else update r close w).
Proof.
  unfold _return_socket. rewrite !bind_run. unfold gets. cbn beta iota.
  rewrite ?bind_run. cbn beta iota.
  rewrite ?bind_run. by destruct (_ && _).
Qed.

Lemma maybe_return_socket_same_process r w :
  Pool.pid (pool w) = getpid w →
  maybe_return_socket r w
  = if SocketInfo.closed (heap w r) then _socket_semaphore_release w
    else _return_socket r w.
Proof.
  intros Hpid. unfold maybe_return_socket.
  rewrite !bind_run. unfold gets. cbn beta iota.
  rewrite Hpid, Z.eqb_refl. cbn [negb].
  rewrite ?bind_run. cbn beta iota. by destruct (SocketInfo.closed _).
Qed.

Lemma maybe_return_socket_other_process r w :
  Pool.pid (pool w) ≠ getpid w →
  maybe_return_socket r w = (_socket_semaphore_release ;;; reset) w.
Proof.
  intros Hpid. unfold maybe_return_socket.
  rewrite bind_run. unfold gets at 1. cbn beta iota.
  apply Z.eqb_neq in Hpid. by rewrite Hpid.
Qed.

Lemma repool_test r w :
  negb (match PoolOptions.max_pool_size (Pool.opts (pool w)) with
        | Some max_size =>
            len (elements (Pool.sockets (pool w))) >=? max_size
        | None => false
        end)
  && (SocketInfo.pool_id (heap w r) =? Pool.pool_id (pool w)) = true
  ↔ has_room w ∧ current r w.
Proof.
  unfold has_room, current, len, size, set_size. simpl.
  rewrite andb_true_iff, negb_true_iff, Z.eqb_eq.
  destruct (PoolOptions.max_pool_size _) as [m|]; [|tauto].
  unfold Z.geb.
  destruct (Z.of_nat _ ?= m) eqn:Hc;
    [apply Z.compare_eq in Hc | rewrite Z.compare_lt_iff in Hc
     | rewrite Z.compare_gt_iff in Hc]; split; intros [? ?]; split;
    try done; lia.
Qed.


(** What a caller can see of [reset]. *)
Lemma reset_effects w :
  ∃ w',
    reset w = (Ok tt, w')
    ∧ Pool.pool_id (pool w') = Pool.pool_id (pool w) + 1
    ∧ Pool.pid (pool w') = getpid w'
    ∧ getpid w' = getpid w
    ∧ Pool.sockets (pool w') = ∅
    ∧ (∀ r, r ∈ Pool.sockets (pool w) →
            SocketInfo.closed (heap w' r) = true)
    ∧ (∀ r, r ∉ Pool.sockets (pool w) → heap w' r = heap w r)
    ∧ same_semaphore w w'
    ∧ log w' = log w ++ [EvReset].
Proof.
  destruct (reset_spec w) as (w' & Hrun & Hw' & Hheap).
  exists w'. split; [done|].
  split; [by rewrite Hw'|]. split; [by rewrite Hw'|].
  split; [by rewrite Hw'|]. split; [by rewrite Hw'|].
  split; [intros r Hin; by rewrite Hheap, decide_True|].
  split; [intros r Hnin; by rewrite Hheap, decide_False|].
  split.
  { pose proof (same_semaphore_reset w) as Hs. by rewrite Hrun in Hs. }
  by rewrite Hw'.
Qed.


Lemma get_socket_no_auth_after_reset w w1 :
  Pool.pid (pool w) ≠ getpid w →
  reset w = (Ok tt, w1) →
  _get_socket_no_auth w = _get_socket_no_auth w1.
Proof.
  intros Hpid Hreset.
  destruct (reset_spec w) as (w' & Hrun & Hw' & _).
  rewrite Hreset in Hrun. injection Hrun as <-.
  assert (Hpid1 : Pool.pid (pool w1) = getpid w1) by by rewrite Hw'.
  unfold _get_socket_no_auth.
  rewrite (bind_run _ _ w), (bind_run _ _ w1). unfold gets at 1 3.
  cbn beta iota. apply Z.eqb_neq in Hpid. rewrite Hpid, Hpid1, Z.eqb_refl.
  cbn [negb]. rewrite (bind_run _ _ w), (bind_run _ _ w1), Hreset. done.
Qed.

(** C7.  Fork detection.  When the pool was last used by another process:
    an acquire first performs [reset] (the idle set is emptied, its
    connections are closed, the process id is recorded) and only then goes
    on, semaphore included, as it would from the state that [reset]
    leaves; a release gives the permit back, then performs [reset], and
    leaves the idle set empty, so that the released connection is not in
    it. *)
Theorem fork_detection (w : World) :
  Pool.pid (pool w) ≠ getpid w →
  (∃ w1,
     reset w = (Ok tt, w1)
     ∧ Pool.sockets (pool w1) = ∅
     ∧ (∀ r, r ∈ Pool.sockets (pool w) →
             SocketInfo.closed (heap w1 r) = true)
     ∧ Pool.pid (pool w1) = getpid w
     ∧ same_semaphore w w1
     ∧ log w1 = log w ++ [EvReset]
     ∧ _get_socket_no_auth w = _get_socket_no_auth w1
     ∧ (∃ tl, log (_get_socket_no_auth w).2 = log w ++ EvReset :: tl)
     ∧ (∀ A c mn mx co (body : nat → M World A),
          get_socket c mn mx co body w = get_socket c mn mx co body w1))
  ∧ ∀ r, ∃ w2 w3,
      _socket_semaphore_release w = (Ok tt, w2)
      ∧ reset w2 = (Ok tt, w3)
      ∧ maybe_return_socket r w = (Ok tt, w3)
      ∧ released w w3
      ∧ log w3 = log w ++ [EvRelease; EvReset]
      ∧ Pool.sockets (pool w3) = ∅
      ∧ (r ∉ Pool.sockets (pool w3))
      ∧ (∀ r', r' ∈ Pool.sockets (pool w) →
               SocketInfo.closed (heap w3 r') = true)
      ∧ Pool.pid (pool w3) = getpid w.
Proof.
  intros Hpid. split.
  - destruct (reset_effects w) as
      (w1 & Hrun & Hgen & Hp & Hg & Hidle & Hclosed & _ & Hsem & Hlog).
    exists w1. split; [done|]. split; [done|]. split; [done|].
    split; [congruence|]. split; [done|]. split; [done|].
    pose proof (get_socket_no_auth_after_reset w w1 Hpid Hrun) as Heq.
    split; [done|]. split.
    + rewrite Heq.
      destruct (log_extends_get_socket_no_auth w1) as [tl Htl].
      exists tl. by rewrite Htl, Hlog, <- app_assoc.
    + intros A c mn mx co body. unfold get_socket.
      by rewrite (bind_run _ _ w), (bind_run _ _ w1), Heq.
  - intros r.
    destruct (socket_semaphore_release_spec w) as (w2 & Hrel & Hreleased).
    destruct (reset_effects w2) as
      (w3 & Hrun & Hgen & Hp & Hg & Hidle & Hclosed & _ & Hsem & Hlog).
    exists w2, w3. split; [done|]. split; [done|].
    split.
    { rewrite maybe_return_socket_other_process by done.
      by rewrite bind_run, Hrel. }
    split; [by eapply released_same_r|].
    injection Hrel as <-.
    split; [by rewrite Hlog; cbn; rewrite <- app_assoc|].
    split; [done|]. split; [by rewrite Hidle|]. split; [done|].
    by rewrite Hp, Hg.
Qed.

(** * The scope of [get_socket] *)

Lemma on_error_returns r e w : ∃ w', on_error r e w = (Ok tt, w').
Proof.
  unfold on_error. destruct (_ || _).
  - rewrite bind_run. unfold close_ref, modify. cbn beta iota.
    edestruct maybe_return_socket_releases as (w' & -> & _). by exists w'.
  - edestruct maybe_return_socket_releases as (w' & -> & _). by exists w'.
Qed.

Lemma handler_on_error {A} r e w :
  (if is_socket_error e || is_ConnectionFailure e
   then close_ref r ;;; maybe_return_socket r ;;; @raise World A e
   else maybe_return_socket r ;;; raise e) w
  = (Raise e, (on_error r e w).2).
Proof.
  unfold on_error. destruct (_ || _).
  - rewrite !bind_run. unfold close_ref, modify. cbn beta iota.
    rewrite bind_run.
    edestruct maybe_return_socket_releases as (w' & -> & _). done.
  - rewrite bind_run.
    edestruct maybe_return_socket_releases as (w' & -> & _). done.
Qed.

(** [get_socket] runs up to its [yield] (which is what it does with
    [checkout] and an empty block), then runs the block, then leaves the
    scope. *)
Lemma get_socket_yield {A} c mn mx co (body : nat → M World A) w :
  get_socket c mn mx co body w
  = match get_socket c mn mx true ret w with
    | (Ok r, w3) =>
        match body r w3 with
        | (Ok a, w4) =>
            if co then (Ok a, w4)
            else (Ok a, (maybe_return_socket r w4).2)
        | (Raise e, w4) => (Raise e, (on_error r e w4).2)
        | (Hang, w4) => (Hang, w4)
        end
    | (Raise e, w') => (Raise e, w')
    | (Hang, w') => (Hang, w')
    end.
Proof.
  unfold get_socket. rewrite !(bind_run _get_socket_no_auth).
  destruct (_get_socket_no_auth w) as [[r|e|] w1]; [|done|done].
  rewrite !(bind_run (modify _)). unfold modify. cbn beta iota.
  unfold try_except_else. rewrite !(bind_run (check_auth _ _)).
  destruct (check_auth r c _) as [[[]|e|] w3]; [| |done].
  - cbn [negb]. unfold ret. cbn beta iota.
    destruct (body r w3) as [[a|e|] w4]; [| |done].
    + destruct co; cbn [negb]; [done|]. rewrite bind_run.
      edestruct maybe_return_socket_releases as (w' & -> & _). done.
    + apply handler_on_error.
  - rewrite !handler_on_error. done.
Qed.

(** Between [w] and the state after a successful [acquire], only the
    semaphore and the trace differ. *)
Lemma socket_semaphore_acquire_frame t w b w' :
  _socket_semaphore_acquire t w = (Ok b, w') →
  ∃ sem', w' = emit (EvAcquire b)
                 (set_pool (Pool.set_semaphore sem' (pool w)) w).
Proof.
  unfold _socket_semaphore_acquire. rewrite bind_run. unfold zoom.
  destruct (semaphore_acquire t _) as [[b'|e|] sem']; [|done|done].
  rewrite bind_run. unfold modify, ret. cbn beta iota.
  intros [= <- <-]. by exists sem'.
Qed.

(** The state after the release of an open connection of the current
    generation into an idle set with room, in the owning process. *)
Lemma idle_after_release r w w' :
  Pool.pid (pool w) = getpid w →
  SocketInfo.closed (heap w r) = false →
  has_room w → current r w →
  maybe_return_socket r w = (Ok tt, w') →
  w' = emit EvRelease
         (set_pool
            (Pool.set_semaphore
               (semaphore_release (Pool._socket_semaphore (pool w)))
               (Pool.set_sockets ({[r]} ∪ Pool.sockets (pool w)) (pool w)))
            w).
Proof.
  intros Hpid Hopen Hroom Hcur.
  rewrite maybe_return_socket_same_process, Hopen, return_socket_spec by done.
  rewrite (proj2 (repool_test r w)) by done.
  by intros [= <-].
Qed.



(** * The connector *)

Lemma create_connection_loop_refused t res rest err w e :
  candidate_error (net w) res = Some e →
  is_socket_error e = true →
  ∃ w', create_connection_loop t (res :: rest) err w
        = create_connection_loop t rest (Some e) w'
        ∧ net w' = net w.
Proof.
  unfold candidate_error. intros Hc He. cbn [create_connection_loop].
  unfold try_except_else, socket_socket.
  destruct (socket_fault (net w) (af res)) as [e'|] eqn:Hs.
  - injection Hc as ->. rewrite He. by exists w.
  - unfold try_except, sock_connect. cbn [net set_next_fd].
    rewrite Hc, He. by eexists.
Qed.

Lemma create_connection_loop_connects t res rest err w :
  candidate_error (net w) res = None →
  ∃ sock w', create_connection_loop t (res :: rest) err w = (Ok sock, w')
             ∧ sock_family sock = af res
             ∧ peername sock = Some (sa res)
             ∧ timeout sock = t
             ∧ fd sock = next_fd w.
Proof.
  unfold candidate_error. intros Hc. cbn [create_connection_loop].
  unfold try_except_else, socket_socket.
  destruct (socket_fault (net w) (af res)) as [e'|] eqn:Hs; [done|].
  unfold try_except, sock_connect. cbn [net set_next_fd].
  rewrite Hc. by eexists _, _.
Qed.

(** The candidates that refuse are passed over; the loop goes on with the
    error of the last of them. *)
Lemma create_connection_loop_passes t n failed :
  ∀ rest err w,
    net w = n →
    Forall (refused n) failed →
    ∃ w' err',
      create_connection_loop t (failed ++ rest) err w
      = create_connection_loop t rest err' w'
      ∧ net w' = n
      ∧ (failed = [] → err' = err ∧ w' = w)
      ∧ (∀ f c e, failed = f ++ [c] → candidate_error n c = Some e →
                  err' = Some e).
Proof.
  induction failed as [|c failed IH]; intros rest err w Hn Hall.
  - exists w, err. split; [done|]. split; [done|]. split; [done|].
    intros f c e Hf. by destruct f.
  - inversion Hall as [|? ? (e & Hc & He) Hall']; subst.
    destruct (create_connection_loop_refused t c (failed ++ rest) err w e)
      as (w1 & Hrun & Hn1); [done|done|].
    destruct (IH rest (Some e) w1 Hn1 Hall') as (w' & err' & Hrun' & Hn' & Hnil & Hlast).
    exists w', err'. cbn [app]. rewrite Hrun, Hrun'.
    split; [done|]. split; [congruence|]. split; [done|].
    intros f c' e' Hf Hc'.
    destruct failed as [|c2 failed].
    + destruct f as [|? [|? ?]]; [|done|done]. injection Hf as <-.
      destruct (Hnil eq_refl) as [-> _]. congruence.
    + destruct f as [|c3 f]; [done|]. injection Hf as <- Hf.
      by eapply Hlast.
Qed.

(** [create_connection] on a TCP host, given the resolver's answer. *)
Lemma create_connection_tcp w results :
  endswith (Pool.pair (pool w)).1 ".sock" = false →
  getaddrinfo (net w) (Pool.pair (pool w)).1 (Pool.pair (pool w)).2
    (if has_ipv6 (net w)
        && negb (bool_decide ((Pool.pair (pool w)).1 = "localhost"))
     then AF_UNSPEC else AF_INET) = Ok results →
  create_connection w
  = create_connection_loop
      (PoolOptions.connect_timeout (Pool.opts (pool w))) results None w.
Proof.
  intros Hsock Hres. unfold create_connection.
  rewrite bind_run. unfold gets at 1. cbn beta iota.
  destruct (Pool.pair (pool w)) as [host port]. cbn [fst snd] in *.
  rewrite bind_run. unfold gets at 1. cbn beta iota.
  rewrite Hsock, bind_run. unfold gets at 1. cbn beta iota.
  by rewrite Hres.
Qed.

(** C9.  The connector.  For a host ending in [.sock]: without [AF_UNIX]
    on the platform, [ConnectionFailure("UNIX-sockets are not supported on
    this system")]; with it, a UNIX socket connected to that path.
    Otherwise the host is resolved with family [AF_UNSPEC] exactly when
    the platform has IPv6 and the host is not ["localhost"], and with
    [AF_INET] else; the socket returned is the one of the first resolver
    result, in order, whose attempt succeeds, those before it having been
    refused; if every result is refused, the error of the last one is
    raised; if there is no result, [socket.error("getaddrinfo failed")]. *)
Theorem create_connection_algorithm (w : World) :
  let host := (Pool.pair (pool w)).1 in
  let port := (Pool.pair (pool w)).2 in
  let family :=
    if has_ipv6 (net w) && negb (bool_decide (host = "localhost"))
    then AF_UNSPEC else AF_INET in
  (endswith host ".sock" = true →
   (has_AF_UNIX (net w) = false →
    create_connection w
    = (Raise (ConnectionFailure
                "UNIX-sockets are not supported on this system"), w))
   ∧ (has_AF_UNIX (net w) = true →
      socket_fault (net w) AF_UNIX = None →
      connect_fault (net w) (UnixPath host) = None →
      ∃ sock w',
        create_connection w = (Ok sock, w')
        ∧ sock_family sock = AF_UNIX
        ∧ peername sock = Some (UnixPath host)))
  ∧ (family = AF_UNSPEC
     ↔ has_ipv6 (net w) = true ∧ host ≠ "localhost")
  ∧ (family = AF_INET
     ↔ ¬ (has_ipv6 (net w) = true ∧ host ≠ "localhost"))
  ∧ (endswith host ".sock" = false →
     ∀ results,
       getaddrinfo (net w) host port family = Ok results →
       (∀ failed res rest,
          results = failed ++ res :: rest →
          Forall (refused (net w)) failed →
          candidate_error (net w) res = None →
          ∃ sock w',
            create_connection w = (Ok sock, w')
            ∧ sock_family sock = af res
            ∧ peername sock = Some (sa res))
       ∧ (∀ failed res e,
            results = failed ++ [res] →
            Forall (refused (net w)) (failed ++ [res]) →
            candidate_error (net w) res = Some e →
            ∃ w', create_connection w = (Raise e, w'))
       ∧ (results = [] →
          create_connection w
          = (Raise (SocketError "getaddrinfo failed"), w))).
Proof.
  intros host port family. split; [|split; [|split]].
  - intros Hsock. split.
    + intros Hunix. unfold create_connection.
      rewrite bind_run. unfold gets at 1. cbn beta iota.
      subst host. destruct (Pool.pair (pool w)) as [host port'].
      cbn [fst snd] in *.
      rewrite bind_run. unfold gets at 1. cbn beta iota.
      by rewrite Hsock, Hunix.
    + intros Hunix Hs Hc. unfold create_connection.
      rewrite bind_run. unfold gets at 1. cbn beta iota.
      subst host. destruct (Pool.pair (pool w)) as [host port'].
      cbn [fst snd] in *.
      rewrite bind_run. unfold gets at 1. cbn beta iota.
      rewrite Hsock, Hunix. cbn [negb]. rewrite bind_run.
      unfold socket_socket. rewrite Hs.
      unfold try_except, sock_connect. cbn [net set_next_fd].
      rewrite Hc. by eexists _, _.
  - subst family. destruct (has_ipv6 (net w)); cbn [andb]; [|naive_solver].
    destruct (decide (host = "localhost")) as [Heq|Hne].
    + rewrite bool_decide_eq_true_2 by done. cbn. naive_solver.
    + rewrite bool_decide_eq_false_2 by done. cbn. naive_solver.
  - subst family. destruct (has_ipv6 (net w)); cbn [andb]; [|naive_solver].
    destruct (decide (host = "localhost")) as [Heq|Hne].
    + rewrite bool_decide_eq_true_2 by done. cbn. naive_solver.
    + rewrite bool_decide_eq_false_2 by done. cbn. naive_solver.
  - intros Hsock results Hres.
    rewrite (create_connection_tcp w results) by done.
    split; [|split].
    + intros failed res rest -> Hfailed Hc.
      destruct (create_connection_loop_passes
                  (PoolOptions.connect_timeout (Pool.opts (pool w)))
                  (net w) failed (res :: rest) None w eq_refl Hfailed)
        as (w1 & err1 & -> & Hn & _).
      rewrite <- Hn in Hc.
      destruct (create_connection_loop_connects
                  (PoolOptions.connect_timeout (Pool.opts (pool w)))
                  res rest err1 w1 Hc)
        as (sock & w' & -> & Hfam & Hpeer & _).
      by exists sock, w'.
    + intros failed res e -> Hall Hc.
      destruct (create_connection_loop_passes
                  (PoolOptions.connect_timeout (Pool.opts (pool w)))
                  (net w) (failed ++ [res]) [] None w eq_refl Hall)
        as (w1 & err1 & Hrun & Hn & _ & Hlast).
      rewrite app_nil_r in Hrun. rewrite Hrun.
      rewrite (Hlast failed res e eq_refl Hc). by exists w1.
    + by intros ->.
Qed.

(** * The theorems at work on the samples *)

(** Release totality on the sample pool, with a block that fails: the
    permit taken for the block is back when the error reaches the caller. *)
Lemma get_socket_release_totality_witness :
  (∀ r, preserves same_semaphore (failing_block r))
  ∧ match get_socket wants_admin 0 3 false failing_block
                     sample_world with
    | (Ok _, w') =>
        if false
        then Semaphore.permits (semaphore_of w')
             = Z.pred <$> Semaphore.permits (semaphore_of sample_world)
             ∧ sem_trace w' = sem_trace sample_world ++ [EvAcquire true]
        else semaphore_of w' = semaphore_of sample_world
             ∧ sem_trace w'
               = sem_trace sample_world ++ [EvAcquire true; EvRelease]
    | (Raise e, w') =>
        semaphore_of w' = semaphore_of sample_world
        ∧ (sem_trace w'
           = sem_trace sample_world ++ [EvAcquire true; EvRelease]
           ∨ (sem_trace w' = sem_trace sample_world ++ [EvAcquire false]
              ∧ is_ConnectionFailure e = true)
           ∨ (sem_trace w' = sem_trace sample_world
              ∧ e = ExceededMaxWaiters))
    | (Hang, _) => True
    end.
Proof.
  assert (Hblock : ∀ r, preserves same_semaphore (failing_block r)).
  { intros r s. split; reflexivity. }
  split; [exact Hblock|].
  exact (get_socket_release_totality wants_admin 0 3 false
           failing_block sample_world Hblock).
Defined.

(** Framing on the sample response, cut into three segments: the payload
    comes back for [(1, 7)]; opcode 2 is an assertion failure. *)
Lemma receive_message_framing_witness :
  queued 16 sample_stream
  = Some (sample_header,
          [Chunk (take 3 sample_payload); Chunk (drop 3 sample_payload)])
  ∧ queued (length sample_payload)
           [Chunk (take 3 sample_payload); Chunk (drop 3 sample_payload)]
    = Some (sample_payload, [])
  ∧ header_length sample_header = 16 + len sample_payload
  ∧ receive_message 1 (Some 7) (sample_connection sample_stream)
    = (Ok sample_payload, with_inbox [] (sample_connection sample_stream))
  ∧ ∃ msg, receive_message 2 (Some 7) (sample_connection sample_stream)
           = (Raise (AssertionError msg),
              close (with_inbox [Chunk (take 3 sample_payload);
                                 Chunk (drop 3 sample_payload)]
                                (sample_connection sample_stream))).
Proof.
  assert (H1 : queued 16 (inbox (SocketInfo.sock
                                   (sample_connection sample_stream)))
               = Some (sample_header,
                       [Chunk (take 3 sample_payload);
                        Chunk (drop 3 sample_payload)]))
    by reflexivity.
  assert (H2 : queued (length sample_payload)
                 [Chunk (take 3 sample_payload); Chunk (drop 3 sample_payload)]
               = Some (sample_payload, [])) by reflexivity.
  assert (H3 : header_length sample_header = 16 + len sample_payload)
    by reflexivity.
  split; [exact H1|]. split; [exact H2|]. split; [exact H3|]. split.
  - apply (proj1 (receive_message_framing _ 1 (Some 7) _ _ _ _ H1 H2 H3)).
    split; [reflexivity | right; reflexivity].
  - apply (proj2 (receive_message_framing _ 2 (Some 7) _ _ _ _ H1 H2 H3)).
    left. vm_compute. discriminate.
Defined.

(** The peer closes after 8 header bytes; and a request that cannot be
    written. *)
Lemma short_read_and_io_errors_close_witness :
  runs_dry 16 [Chunk (take 8 sample_header)] = true
  ∧ (∃ self',
       receive_message 1 (Some 7)
         (sample_connection [Chunk (take 8 sample_header)])
       = (Raise (AutoReconnect "connection closed"), self')
       ∧ SocketInfo.closed self' = true)
  ∧ send_faults (SocketInfo.sock unwritable_connection)
    = [Some (SocketError "Broken pipe")]
  ∧ ∃ self',
      send_message ping unwritable_connection
      = (Raise (SocketError "Broken pipe"), self')
      ∧ SocketInfo.closed self' = true
      ∧ outbox (SocketInfo.sock self')
        = outbox (SocketInfo.sock unwritable_connection).
Proof.
  assert (H : runs_dry 16 (inbox (SocketInfo.sock
                (sample_connection [Chunk (take 8 sample_header)]))) = true)
    by reflexivity.
  assert (H2 : send_faults (SocketInfo.sock unwritable_connection)
               = [Some (SocketError "Broken pipe")]) by reflexivity.
  split; [exact H|].
  split; [exact (proj1 short_read_and_io_errors_close _ 1 (Some 7) H)|].
  split; [exact H2|].
  exact (proj1 (proj2 (proj2 (proj2 (proj2 short_read_and_io_errors_close))))
           _ ping _ _ H2).
Defined.

(** Connection 0, authenticated as [cred_admin], is wanted as [cred_app]:
    one logout, then one login; and the same when the server refuses the
    login, which leaves the connection logged out. *)
Lemma check_auth_reconciles_witness :
  (∃ w', check_auth 0 wants_app authenticated_world = (Ok tt, w')
         ∧ log w' = [EvLogout "admin" 0; EvAuthenticate cred_app 0]
         ∧ SocketInfo.authset (heap w' 0) = itervalues_set wants_app)
  ∧ (∃ w', check_auth 0 wants_app half_refusing_world
           = (Raise (OperationFailure "Authentication failed."), w')
           ∧ log w' = [EvLogout "admin" 0; EvAuthenticate cred_app 0]
           ∧ SocketInfo.authset (heap w' 0) = ∅).
Proof.
  split.
  - destruct (check_auth_reconciles 0 wants_app authenticated_world)
      as [_ (outs & ins & Hout & Hin & [Hres Hrel] & Hmatch)].
    vm_compute in Hout, Hin.
    apply Permutation_singleton_r in Hout, Hin. subst outs ins.
    destruct (check_auth 0 wants_app authenticated_world) as [res w'].
    cbn [fst snd] in Hres, Hrel.
    assert (res = Ok tt) as -> by (rewrite <- Hres; vm_compute; reflexivity).
    exists w'. split; [reflexivity|]. exact Hmatch.
  - destruct (check_auth_reconciles 0 wants_app half_refusing_world)
      as [_ (outs & ins & Hout & Hin & [Hres Hrel] & Hmatch)].
    vm_compute in Hout, Hin.
    apply Permutation_singleton_r in Hout, Hin. subst outs ins.
    destruct (check_auth 0 wants_app half_refusing_world) as [res w'].
    cbn [fst snd] in Hres, Hrel.
    assert (res = Raise (OperationFailure "Authentication failed.")) as ->
      by (rewrite <- Hres; vm_compute; reflexivity).
    exists w'. split; [reflexivity|].
    assert (Hlog : log w' = [EvLogout "admin" 0; EvAuthenticate cred_app 0]).
    { destruct Hrel as (_ & _ & _ & _ & _ & _ & _ & _ & -> & _).
      vm_compute. reflexivity. }
    split; [exact Hlog|].
    destruct Hmatch as (outs' & ins' & failed & rest & Hauth & Hcase).
    rewrite Hauth.
    destruct Hcase as [(Ho & _ & Hl)|(-> & Hi & _)].
    + destruct outs' as [|? [|? ?]]; [|done|done].
      rewrite Hlog in Hl. discriminate Hl.
    + destruct ins' as [|? [|? ?]]; [|done|done].
      change (SocketInfo.authset (heap half_refusing_world 0))
        with ({[cred_admin]} : gset MongoCredential).
      set_solver.
Defined.



(** Release in the child of a fork. *)
Lemma fork_detection_witness :
  Pool.pid (pool forked_world) ≠ getpid forked_world
  ∧ ∃ w2 w3,
      _socket_semaphore_release forked_world = (Ok tt, w2)
      ∧ reset w2 = (Ok tt, w3)
      ∧ maybe_return_socket 2 forked_world = (Ok tt, w3)
      ∧ released forked_world w3
      ∧ log w3 = log forked_world ++ [EvRelease; EvReset]
      ∧ Pool.sockets (pool w3) = ∅
      ∧ (2%nat ∉ Pool.sockets (pool w3))
      ∧ (∀ r', r' ∈ Pool.sockets (pool forked_world) →
               SocketInfo.closed (heap w3 r') = true)
      ∧ Pool.pid (pool w3) = getpid forked_world.
Proof.
  assert (H : Pool.pid (pool forked_world) ≠ getpid forked_world)
    by (vm_compute; discriminate).
  split; [exact H|].
  exact (proj2 (fork_detection forked_world H) 2%nat).
Defined.

(** A second [check_auth] after the auth differential changes nothing. *)
Lemma check_auth_idempotent_witness :
  check_auth 0 wants_app authenticated_world
  = (Ok tt, (check_auth 0 wants_app authenticated_world).2)
  ∧ check_auth 0 wants_app
      (check_auth 0 wants_app authenticated_world).2
    = (Ok tt, (check_auth 0 wants_app authenticated_world).2).
Proof.
  assert (H1 : (check_auth 0 wants_app authenticated_world).1 = Ok tt)
    by (vm_compute; reflexivity).
  assert (H : check_auth 0 wants_app authenticated_world
              = (Ok tt, (check_auth 0 wants_app authenticated_world).2)).
  { destruct (check_auth 0 wants_app authenticated_world) as [res w1].
    cbn [fst snd] in *. by rewrite H1. }
  split; [exact H|].
  exact (proj2 (check_auth_idempotent 0 wants_app
                  authenticated_world) _ H).
Defined.

(** The sample resolver answers with an IPv6 candidate that is refused
    and an IPv4 one that connects. *)
Lemma create_connection_algorithm_witness :
  endswith (Pool.pair (pool sample_world)).1 ".sock" = false
  ∧ ∃ sock w',
      create_connection sample_world = (Ok sock, w')
      ∧ sock_family sock = AF_INET
      ∧ peername sock = Some (InetAddr "db.example" 27017).
Proof.
  assert (H : endswith (Pool.pair (pool sample_world)).1 ".sock" = false)
    by reflexivity.
  split; [exact H|].
  refine (proj1 (proj2 (proj2 (proj2
            (create_connection_algorithm sample_world))) H _ eq_refl)
            [mk_addrinfo AF_INET6 1 6 EmptyString (InetAddr "db.example" 27017)]
            (mk_addrinfo AF_INET 1 6 EmptyString (InetAddr "db.example" 27017))
            [] eq_refl _ eq_refl).
  constructor; [|constructor].
  exists (SocketError "Address family not supported"). split; reflexivity.
Defined.


(** * The scenarios of the specification, run *)

(** Auth differential: a connection authenticated as [cred_admin], wanted
    as [cred_app], is logged out of ["admin"] and then authenticated. *)
Example auth_differential :
  let w' := (check_auth 0 wants_app authenticated_world).2 in
  log w' = [EvLogout "admin" 0; EvAuthenticate cred_app 0]
  ∧ elements (SocketInfo.authset (heap w' 0)) = [cred_app].
Proof. split; vm_compute; reflexivity. Qed.

(** Reset mid-checkout: the caller holds connection 0 of generation 0
    when [reset] runs; on release the connection is closed, the idle set
    stays empty and the permit is back. *)
Example reset_mid_checkout :
  let w' := (run (Call_get_socket ∅ 0 3 false (λ _, Call_reset))
                 sample_world).2 in
  Pool.pool_id (pool w') = 1
  ∧ elements (Pool.sockets (pool w')) = []
  ∧ SocketInfo.closed (heap w' 0) = true
  ∧ Semaphore.permits (semaphore_of w') = Some 2
  ∧ log w' = [EvAcquire true; EvReset; EvRelease].
Proof. repeat split; vm_compute; reflexivity. Qed.

(** Bounded checkout: with two connections held, a third acquire times
    out with a [ConnectionFailure]. *)
Example bounded_checkout :
  (run (Call_get_socket_no_auth (λ _,
          Call_get_socket_no_auth (λ _,
            Call_get_socket_no_auth (λ _, Skip))))
       sample_world).1
  = Raise (ConnectionFailure
             ("Timed out waiting for socket from pool with max_size 2"
              ++ " and wait_queue_timeout 100")).
Proof. vm_compute. reflexivity. Qed.

(** Fork recovery: in the child, the next acquire resets the pool (both
    idle connections are closed) and opens a connection of the new
    generation. *)
Example fork_recovery :
  let out := _get_socket_no_auth forked_world in
  out.1 = Ok 0%nat
  ∧ SocketInfo.pool_id (heap out.2 0) = 1
  ∧ SocketInfo.closed (heap out.2 1) = true
  ∧ elements (Pool.sockets (pool out.2)) = []
  ∧ log out.2 = [EvReset; EvAcquire true].
Proof. repeat split; vm_compute; reflexivity. Qed.

(** * More on framing *)

(** The checks of [receive_message] on a header that answers. *)
Lemma receive_message_checks_pass header operation request_id self :
  answers header operation request_id →
  ((match request_id with
    | Some request_id =>
        assert_ (request_id =? header_response_to header)
          ("ids don't match " ++ pretty request_id ++ " "
                              ++ pretty (header_response_to header))
    | None => ret tt
    end) ;;;
   assert_ (operation =? header_opcode header) EmptyString ;;;
   __receive_data_on_socket (header_length header - 16)) self
  = __receive_data_on_socket (header_length header - 16) self.
Proof.
  intros [-> Hid]. rewrite bind_run.
  destruct Hid as [->| ->].
  - unfold ret at 1. cbn beta iota. rewrite bind_run, Z.eqb_refl. done.
  - rewrite Z.eqb_refl. unfold assert_ at 1, ret at 1. cbn beta iota.
    rewrite bind_run, Z.eqb_refl. done.
Qed.

(** A complete response that answers is received whole. *)
Lemma receive_message_payload self operation request_id header payload i1 i2 :
  queued 16 (inbox (SocketInfo.sock self)) = Some (header, i1) →
  queued (length payload) i1 = Some (payload, i2) →
  header_length header = 16 + len payload →
  answers header operation request_id →
  receive_message operation request_id self
  = (Ok payload, with_inbox i2 self).
Proof.
  intros Hh Hp Hlen Hans.
  rewrite (receive_message_header _ _ _ _ _ Hh).
  apply close_and_reraise_ok.
  rewrite receive_message_checks_pass by done.
  replace (header_length header - 16) with (Z.of_nat (length payload))
    by (unfold len in Hlen; lia).
  by rewrite (receive_data_on_socket_queued _ _ payload i2).
Qed.

(** X1.  Responses queued back to back are received one per call, in the
    order of the stream: the first call takes exactly the first response
    and leaves the second whole for the next call. *)
Theorem receive_message_in_sequence (self : SocketInfo.t)
    (operation1 operation2 : Z) (request_id1 request_id2 : option Z)
    (header1 payload1 header2 payload2 : bytes)
    (i1 i2 i3 i4 : list wire_event) :
  queued 16 (inbox (SocketInfo.sock self)) = Some (header1, i1) →
  queued (length payload1) i1 = Some (payload1, i2) →
  header_length header1 = 16 + len payload1 →
  answers header1 operation1 request_id1 →
  queued 16 i2 = Some (header2, i3) →
  queued (length payload2) i3 = Some (payload2, i4) →
  header_length header2 = 16 + len payload2 →
  answers header2 operation2 request_id2 →
  (let* first := receive_message operation1 request_id1 in
   let* second := receive_message operation2 request_id2 in
   ret (first, second)) self
  = (Ok (payload1, payload2), with_inbox i4 self).
Proof.
  intros H1 H2 H3 H4 H5 H6 H7 H8.
  rewrite bind_run.
  rewrite (receive_message_payload self _ _ header1 payload1 i1 i2) by done.
  rewrite bind_run.
  rewrite (receive_message_payload (with_inbox i2 self) _ _
             header2 payload2 i3 i4) by done.
  done.
Qed.

(** X2.  The two edges of the length field.  A header whose total length
    is exactly 16 gives the empty payload without another read: the
    stream behind the header is left as it is.  A header whose total
    length is below 16 makes [recv] refuse the negative size: the
    [ValueError] reaches the caller and the connection is closed. *)
Theorem receive_message_length_edges (self : SocketInfo.t) (operation : Z)
    (request_id : option Z) (header : bytes) (i1 : list wire_event) :
  queued 16 (inbox (SocketInfo.sock self)) = Some (header, i1) →
  answers header operation request_id →
  (header_length header = 16 →
   receive_message operation request_id self = (Ok [], with_inbox i1 self))
  ∧ (header_length header < 16 →
     receive_message operation request_id self
     = (Raise (ValueError "negative buffersize in recv"),
        close (with_inbox i1 self))).
Proof.
  intros Hh Hans. rewrite (receive_message_header _ _ _ _ _ Hh). split.
  - intros Hlen. apply close_and_reraise_ok.
    rewrite receive_message_checks_pass by done.
    by rewrite Hlen.
  - intros Hlen. apply close_and_reraise_raise.
    rewrite receive_message_checks_pass by done.
    unfold __receive_data_on_socket.
    cbn [receive_data_loop].
    destruct (header_length header - 16 =? 0) eqn:Hz;
      [apply Z.eqb_eq in Hz; lia|].
    rewrite bind_run. unfold on_sock, zoom, sock_recv.
    destruct (header_length header - 16 <? 0) eqn:Hn;
      [|apply Z.ltb_ge in Hn; lia].
    by destruct self as [[? ? ? ? ? ? ? ? ?] ? ? ? ? ? ? ?].
Qed.

(** X3.  An error of [recv] is not turned into [AutoReconnect]: whether it
    strikes in the header or, after a header that answers, in the payload,
    the very exception that [recv] raised reaches the caller, and the
    connection is closed. *)
Theorem receive_message_recv_error (self : SocketInfo.t) (operation : Z)
    (request_id : option Z) (e : exn) :
  (breaks 16 (inbox (SocketInfo.sock self)) = Some e →
   ∃ self', receive_message operation request_id self = (Raise e, self')
            ∧ SocketInfo.closed self' = true)
  ∧ (∀ header i1,
       queued 16 (inbox (SocketInfo.sock self)) = Some (header, i1) →
       answers header operation request_id →
       breaks (Z.to_nat (header_length header - 16)) i1 = Some e →
       ∃ self', receive_message operation request_id self = (Raise e, self')
                ∧ SocketInfo.closed self' = true).
Proof.
  split.
  - intros Hb.
    destruct (receive_data_on_socket_breaks 16 self e Hb) as [s1 Hr].
    change (Z.of_nat 16) with 16 in Hr.
    exists (close s1). split; [|done].
    apply close_and_reraise_raise. rewrite bind_run. by rewrite Hr.
  - intros header i1 Hh Hans Hb.
    rewrite (receive_message_header _ _ _ _ _ Hh).
    assert (Hpos : (0 < Z.to_nat (header_length header - 16))%nat).
    { destruct (Z.to_nat (header_length header - 16)); [|lia].
      by destruct i1. }
    destruct (receive_data_on_socket_breaks _ (with_inbox i1 self) e Hb)
      as [s1 Hr].
    rewrite Z2Nat.id in Hr by lia.
    exists (close s1). split; [|done].
    apply close_and_reraise_raise.
    by rewrite receive_message_checks_pass.
Qed.

(** * Sending, and commands *)

Lemma with_inbox_closed i self :
  SocketInfo.closed (with_inbox i self) = SocketInfo.closed self.
Proof. reflexivity. Qed.

Lemma with_inbox_outbox i self :
  outbox (SocketInfo.sock (with_inbox i self)) = outbox (SocketInfo.sock self).
Proof. reflexivity. Qed.

(** [command], once its request is known. *)
Lemma command_unfold {doc} (helpers : Helpers doc) dbname spec request_id msg :
  command_request helpers dbname spec = (request_id, msg) →
  command helpers dbname spec
  = (send_message msg ;;;
     let* response := receive_message 1 (Some request_id) in
     let* data := of_result (_unpack_response helpers response) in
     let* unpacked :=
       match data with
       | first :: _ => ret first
       | [] => raise (OtherException "IndexError" "list index out of range")
       end in
     of_result (_check_command_response helpers unpacked
                  (command_failure_template helpers dbname spec)) ;;;
     ret unpacked).
Proof.
  unfold command_request, command, command_failure_template.
  destruct (message_query helpers 0 _ 0 (-1) spec) as [[rid m] x].
  by intros [= -> ->].
Qed.

(** X4.  A command whose request goes out and whose reply answers it
    (opcode 1, response-to equal to the id that [message.query] gave the
    request) returns the first document of the reply, once the response
    checker has passed it.  The request is recorded as sent, exactly the
    reply is consumed, and the connection stays as it was. *)
Theorem command_returns_first_document {doc} (helpers : Helpers doc)
    (dbname : string) (spec : doc) (self : SocketInfo.t)
    (request_id : Z) (msg header payload : bytes)
    (i1 i2 : list wire_event) (first : doc) (others : list doc) :
  command_request helpers dbname spec = (request_id, msg) →
  send_goes_through (SocketInfo.sock self) = true →
  queued 16 (inbox (SocketInfo.sock self)) = Some (header, i1) →
  queued (length payload) i1 = Some (payload, i2) →
  header_length header = 16 + len payload →
  header_opcode header = 1 →
  header_response_to header = request_id →
  _unpack_response helpers payload = Ok (first :: others) →
  _check_command_response helpers first
    (command_failure_template helpers dbname spec) = Ok tt →
  ∃ self',
    command helpers dbname spec self = (Ok first, self')
    ∧ SocketInfo.closed self' = SocketInfo.closed self
    ∧ inbox (SocketInfo.sock self') = i2
    ∧ outbox (SocketInfo.sock self') = outbox (SocketInfo.sock self) ++ [msg].
Proof.
  intros Hreq Hsend Hh Hp Hlen Hop Hid Hunpack Hcheck.
  rewrite (command_unfold _ _ _ _ _ Hreq), bind_run.
  destruct (send_message_goes_through msg self Hsend)
    as (s1 & -> & Hclosed & Hin & Hout).
  rewrite bind_run.
  rewrite (receive_message_payload s1 1 (Some request_id) header payload i1 i2);
    [|by rewrite Hin|done|done|].
  2:{ split; [done|]. right. by rewrite Hid. }
  rewrite bind_run. unfold of_result at 1. rewrite Hunpack.
  rewrite bind_run. unfold ret at 1. cbn beta iota.
  rewrite bind_run. unfold of_result. rewrite Hcheck. unfold ret.
  eexists. split; [reflexivity|].
  by rewrite with_inbox_closed, with_inbox_outbox, inbox_with_inbox.
Qed.

(** X5.  A command does not take the reply to another request for its
    own: if the response-to field of the next response differs from the
    id of the request, or its opcode is not 1, the command fails with
    [AssertionError], whatever the payload holds, and the connection is
    closed. *)
Theorem command_rejects_foreign_reply {doc} (helpers : Helpers doc)
    (dbname : string) (spec : doc) (self : SocketInfo.t)
    (request_id : Z) (msg header : bytes) (i1 : list wire_event) :
  command_request helpers dbname spec = (request_id, msg) →
  send_goes_through (SocketInfo.sock self) = true →
  queued 16 (inbox (SocketInfo.sock self)) = Some (header, i1) →
  header_response_to header ≠ request_id ∨ header_opcode header ≠ 1 →
  ∃ text self',
    command helpers dbname spec self = (Raise (AssertionError text), self')
    ∧ SocketInfo.closed self' = true.
Proof.
  intros Hreq Hsend Hh Hbad.
  rewrite (command_unfold _ _ _ _ _ Hreq), bind_run.
  destruct (send_message_goes_through msg self Hsend)
    as (s1 & -> & Hclosed & Hin & Hout).
  rewrite bind_run. rewrite <- Hin in Hh.
  rewrite (receive_message_header _ _ _ _ _ Hh).
  destruct (request_id =? header_response_to header) eqn:Hrid.
  - pose proof Hrid as Heq. apply Z.eqb_eq in Heq.
    destruct Hbad as [Hne|Hop]; [congruence|].
    erewrite close_and_reraise_raise.
    2:{ rewrite bind_run. cbn beta iota.
        unfold assert_ at 1, ret at 1. cbn beta iota.
        rewrite bind_run.
        destruct (1 =? header_opcode header) eqn:Ho;
          [apply Z.eqb_eq in Ho; congruence|].
        reflexivity. }
    by eexists _, _.
  - erewrite close_and_reraise_raise.
    2:{ rewrite bind_run. cbn beta iota. reflexivity. }
    by eexists _, _.
Qed.

(** X6.  An error that the response checker finds in the reply (a domain
    error of the server) reaches the caller of [command] as it is, and
    the connection is not closed for it: the exchange is complete, the
    request sent and the reply consumed. *)
Theorem command_error_keeps_connection {doc} (helpers : Helpers doc)
    (dbname : string) (spec : doc) (self : SocketInfo.t)
    (request_id : Z) (msg header payload : bytes)
    (i1 i2 : list wire_event) (first : doc) (others : list doc) (e : exn) :
  command_request helpers dbname spec = (request_id, msg) →
  send_goes_through (SocketInfo.sock self) = true →
  queued 16 (inbox (SocketInfo.sock self)) = Some (header, i1) →
  queued (length payload) i1 = Some (payload, i2) →
  header_length header = 16 + len payload →
  header_opcode header = 1 →
  header_response_to header = request_id →
  _unpack_response helpers payload = Ok (first :: others) →
  _check_command_response helpers first
    (command_failure_template helpers dbname spec) = Raise e →
  ∃ self',
    command helpers dbname spec self = (Raise e, self')
    ∧ SocketInfo.closed self' = SocketInfo.closed self
    ∧ inbox (SocketInfo.sock self') = i2
    ∧ outbox (SocketInfo.sock self') = outbox (SocketInfo.sock self) ++ [msg].
Proof.
  intros Hreq Hsend Hh Hp Hlen Hop Hid Hunpack Hcheck.
  rewrite (command_unfold _ _ _ _ _ Hreq), bind_run.
  destruct (send_message_goes_through msg self Hsend)
    as (s1 & -> & Hclosed & Hin & Hout).
  rewrite bind_run.
  rewrite (receive_message_payload s1 1 (Some request_id) header payload i1 i2);
    [|by rewrite Hin|done|done|].
  2:{ split; [done|]. right. by rewrite Hid. }
  rewrite bind_run. unfold of_result at 1. rewrite Hunpack.
  rewrite bind_run. unfold ret at 1. cbn beta iota.
  rewrite bind_run. unfold of_result. rewrite Hcheck.
  eexists. split; [reflexivity|].
  by rewrite with_inbox_closed, with_inbox_outbox, inbox_with_inbox.
Qed.

(** X7.  When the request cannot be sent, [command] raises the error of
    [sendall] and closes the connection without waiting for a reply:
    nothing is read from the stream, nothing is recorded as sent. *)
Theorem command_send_failure {doc} (helpers : Helpers doc)
    (dbname : string) (spec : doc) (self : SocketInfo.t) (e : exn)
    (rest : list (option exn)) :
  send_faults (SocketInfo.sock self) = Some e :: rest →
  ∃ self',
    command helpers dbname spec self = (Raise e, self')
    ∧ SocketInfo.closed self' = true
    ∧ inbox (SocketInfo.sock self') = inbox (SocketInfo.sock self)
    ∧ outbox (SocketInfo.sock self') = outbox (SocketInfo.sock self).
Proof.
  intros Hfault.
  destruct (command_request helpers dbname spec) as [request_id msg] eqn:Hreq.
  rewrite (command_unfold _ _ _ _ _ Hreq), bind_run.
  destruct (send_message_refused msg self e rest Hfault)
    as (s1 & -> & Hclosed & Hin & Hout).
  by exists s1.
Qed.

(** * More on authentication *)

(** How far [check_auth] got, however it ends: the logouts and logins that
    returned, and the calls made. *)
Lemma check_auth_progress (self : nat)
    (all_credentials : gmap string MongoCredential) (w : World) :
  let authset := SocketInfo.authset (heap w self) in
  let cached := itervalues_set all_credentials in
  ∃ outs_done ins_done outs_called ins_called res w',
    check_auth self all_credentials w = (res, w')
    ∧ SocketInfo.authset (heap w' self)
      = list_to_set ins_done ∪ (authset ∖ list_to_set outs_done)
    ∧ log w' = log w ++ logouts self outs_called ++ logins self ins_called
    ∧ (∀ c, c ∈ outs_called → c ∈ authset ∧ c ∉ cached)
    ∧ (∀ c, c ∈ ins_called → c ∈ cached ∧ c ∉ authset)
    ∧ match res with
      | Ok _ =>
          outs_called = outs_done ∧ ins_called = ins_done
          ∧ list_to_set outs_done = authset ∖ cached
          ∧ list_to_set ins_done = cached ∖ authset
      | Raise _ =>
          (ins_done = [] ∧ ins_called = []
           ∧ ∃ failed, outs_called = outs_done ++ [failed]
                       ∧ failed ∉ outs_done)
          ∨ (outs_called = outs_done
             ∧ list_to_set outs_done = authset ∖ cached
             ∧ ∃ failed, ins_called = ins_done ++ [failed]
                         ∧ failed ∉ ins_done)
      | Hang => False
      end.
Proof.
  intros authset cached. rewrite check_auth_unfold.
  fold authset cached.
  destruct (_ || _) eqn:Hcond.
  2:{ apply orb_false_elim in Hcond as [HX Ha].
      apply bool_decide_eq_false in HX, Ha.
      apply dec_stable in HX, Ha. subst all_credentials.
      assert (Hc : cached = ∅) by (subst cached; done).
      fold authset in Ha.
      exists [], [], [], [], (Ok tt), w. rewrite Hc, Ha.
      split; [done|]. split; [set_solver|]. split; [by rewrite app_nil_r|].
      split; [by intros ? ?%elem_of_nil|].
      split; [by intros ? ?%elem_of_nil|].
      split; [done|]. split; [done|]. split; set_solver. }
  rewrite bind_run.
  set (outs := set_iter (cred_order w) (authset ∖ cached)).
  set (ins := set_iter (cred_order w) (cached ∖ authset)).
  assert (Houts : ∀ c, c ∈ outs → c ∈ authset ∧ c ∉ cached).
  { intros c. unfold outs. rewrite elem_of_set_iter, elem_of_difference. done. }
  assert (Hins : ∀ c, c ∈ ins → c ∈ cached ∧ c ∉ authset).
  { intros c. unfold ins. rewrite elem_of_set_iter, elem_of_difference. done. }
  edestruct (check_auth_pass_state self (λ c, auth_logout (source c) self)
               (λ c, EvLogout (source c) self) (λ c acc, acc ∖ {[c]}) outs)
    as (od & res & w1 & -> & Hauth1 & Hord & Hres); [done|].
  rewrite foldl_discard in Hauth1. fold authset in Hauth1.
  destruct res as [[]|e|]; [| |done].
  2:{ destruct Hres as (failed & rest & Hl & Hlog).
      exists od, [], (od ++ [failed]), [], (Raise e), w1.
      split; [done|]. split; [rewrite Hauth1; set_solver|].
      split; [by rewrite Hlog, app_nil_r|].
      split.
      { intros c Hc. apply Houts. rewrite Hl.
        apply elem_of_app in Hc as [Hc|Hc%list_elem_of_singleton].
        - apply elem_of_app. by left.
        - subst c. apply elem_of_app. right. apply list_elem_of_here. }
      split; [by intros ? ?%elem_of_nil|].
      left. split; [done|]. split; [done|]. exists failed. split; [done|].
      pose proof (NoDup_set_iter (cred_order w) (authset ∖ cached)) as Hnd.
      fold outs in Hnd. rewrite Hl in Hnd.
      apply NoDup_app in Hnd as (_ & Hdisj & _).
      intros Hin. apply (Hdisj failed Hin). apply list_elem_of_here. }
  destruct Hres as [-> Hlog1].
  edestruct (check_auth_pass_state self (λ c, auth_authenticate c self)
               (λ c, EvAuthenticate c self) (λ c acc, {[c]} ∪ acc) ins)
    as (id & res & w2 & -> & Hauth2 & Hord2 & Hres2); [done|].
  rewrite foldl_add, Hauth1 in Hauth2.
  assert (Hoset : list_to_set outs = authset ∖ cached)
    by apply list_to_set_set_iter.
  destruct res as [[]|e|]; [| |done].
  - destruct Hres2 as [-> Hlog2].
    exists outs, ins, outs, ins, (Ok tt), w2.
    split; [done|]. split; [done|].
    split; [by rewrite Hlog2, Hlog1, <- app_assoc|].
    split; [done|]. split; [done|]. split; [done|]. split; [done|].
    split; [done|]. apply list_to_set_set_iter.
  - destruct Hres2 as (failed & rest & Hl & Hlog2).
    exists outs, id, outs, (id ++ [failed]), (Raise e), w2.
    split; [done|]. split; [done|].
    split; [by rewrite Hlog2, Hlog1, <- app_assoc|].
    split; [done|]. split.
    { intros c Hc. apply Hins. rewrite Hl.
      apply elem_of_app in Hc as [Hc|Hc%list_elem_of_singleton].
      - apply elem_of_app. by left.
      - subst c. apply elem_of_app. right. apply list_elem_of_here. }
    right. split; [done|]. split; [done|]. exists failed. split; [done|].
    pose proof (NoDup_set_iter (cred_order w) (cached ∖ authset)) as Hnd.
    fold ins in Hnd. rewrite Hl in Hnd.
    apply NoDup_app in Hnd as (_ & Hdisj & _).
    intros Hin. apply (Hdisj failed Hin). apply list_elem_of_here.
Qed.

(** X8.  When [check_auth] raises, [authset] holds exactly the changes of
    the calls that returned before the one that raised: the credentials
    logged out so far are gone, those authenticated so far are in, the
    credential of the failed call is as it was (still in [authset] for a
    failed logout, not in it for a failed authenticate), and the trace
    ends with the failed call.  A failed logout means no authenticate was
    attempted; a failed authenticate means every logout was done.  In
    particular what was held and wanted is still held, and nothing is held
    that was neither held nor wanted. *)
Theorem check_auth_failure_state (self : nat)
    (all_credentials : gmap string MongoCredential) (w w' : World) (e : exn) :
  check_auth self all_credentials w = (Raise e, w') →
  let authset := SocketInfo.authset (heap w self) in
  let cached := itervalues_set all_credentials in
  ∃ outs_done ins_done failed,
    SocketInfo.authset (heap w' self)
    = list_to_set ins_done ∪ (authset ∖ list_to_set outs_done)
    ∧ (∀ c, c ∈ outs_done → c ∈ authset ∧ c ∉ cached)
    ∧ (∀ c, c ∈ ins_done → c ∈ cached ∧ c ∉ authset)
    ∧ ((ins_done = []
        ∧ failed ∈ authset ∧ (failed ∉ cached) ∧ (failed ∉ outs_done)
        ∧ log w' = log w ++ logouts self (outs_done ++ [failed]))
       ∨ (list_to_set outs_done = authset ∖ cached
          ∧ failed ∈ cached ∧ (failed ∉ authset) ∧ (failed ∉ ins_done)
          ∧ log w' = log w ++ logouts self outs_done
                           ++ logins self (ins_done ++ [failed])))
    ∧ authset ∩ cached ⊆ SocketInfo.authset (heap w' self)
    ∧ SocketInfo.authset (heap w' self) ⊆ authset ∪ cached.
Proof.
  intros Hrun authset cached.
  destruct (check_auth_progress self all_credentials w)
    as (od & id & oc & ic & res & w2 & Hrun' & Hauth & Hlog & Hoc & Hic & Hres).
  rewrite Hrun in Hrun'. injection Hrun' as <- <-.
  fold authset cached in Hauth, Hoc, Hic, Hres.
  destruct Hres as [(-> & -> & failed & -> & Hnew)
                   |(-> & Hall & failed & -> & Hnew)].
  - exists od, [], failed.
    assert (Hod : ∀ c, c ∈ od → c ∈ authset ∧ c ∉ cached).
    { intros c Hc. apply Hoc, elem_of_app. by left. }
    assert (Hf : failed ∈ authset ∧ failed ∉ cached).
    { apply Hoc, elem_of_app. right. apply list_elem_of_here. }
    split; [done|]. split; [done|]. split; [by intros ? ?%elem_of_nil|].
    split.
    { left. split; [done|]. destruct Hf. split; [done|]. split; [done|].
      split; [done|]. by rewrite Hlog, app_nil_r. }
    rewrite Hauth. split.
    + intros c [Ha Hc]%elem_of_intersection.
      apply elem_of_union. right. apply elem_of_difference. split; [done|].
      rewrite elem_of_list_to_set. intros Hin. by destruct (Hod c Hin).
    + intros c [Hin|[Ha _]%elem_of_difference]%elem_of_union;
        [by apply elem_of_list_to_set, elem_of_nil in Hin|].
      apply elem_of_union. by left.
  - exists od, id, failed.
    assert (Hid : ∀ c, c ∈ id → c ∈ cached ∧ c ∉ authset).
    { intros c Hc. apply Hic, elem_of_app. by left. }
    assert (Hf : failed ∈ cached ∧ failed ∉ authset).
    { apply Hic, elem_of_app. right. apply list_elem_of_here. }
    split; [done|]. split; [done|]. split; [done|].
    split.
    { right. split; [done|]. destruct Hf. done. }
    rewrite Hauth. split.
    + intros c [Ha Hc]%elem_of_intersection.
      apply elem_of_union. right. apply elem_of_difference. split; [done|].
      rewrite elem_of_list_to_set. intros Hin. by destruct (Hoc c Hin).
    + intros c [Hin%elem_of_list_to_set|[Ha _]%elem_of_difference]%elem_of_union.
      * apply elem_of_union. right. by apply Hid.
      * apply elem_of_union. by left.
Qed.

(** What [authenticate] does, by how the external call ends. *)
Lemma authenticate_spec self c w :
  match authenticate self c w with
  | (Ok _, w') =>
      SocketInfo.authset (heap w' self)
      = {[c]} ∪ SocketInfo.authset (heap w self)
      ∧ log w' = log w ++ [EvAuthenticate c self]
  | (Raise _, w') =>
      SocketInfo.authset (heap w' self) = SocketInfo.authset (heap w self)
      ∧ log w' = log w ++ [EvAuthenticate c self]
  | (Hang, _) => False
  end.
Proof.
  unfold authenticate, auth_authenticate.
  rewrite !bind_run. unfold modify at 1. cbn beta iota.
  destruct (auth_answer_spec self (emit (EvAuthenticate c self) w))
    as (res & w0 & -> & Hnh & Hlog & _ & Hauth).
  destruct res as [[]|e|]; [| |done].
  - unfold modify. cbn beta iota. rewrite authset_update. cbn.
    by rewrite Hauth, Hlog.
  - by rewrite Hauth, Hlog.
Qed.

(** X9.  [authenticate] records a credential only when [auth.authenticate]
    returned; and a credential so recorded is known to [check_auth]: the
    next [check_auth], whatever it is asked for and however it ends, makes
    no call to authenticate that credential again, and keeps it in
    [authset] if it is among the wanted ones. *)
Theorem authenticate_then_check_auth (self : nat) (c : MongoCredential)
    (w : World) :
  (∀ e w1, authenticate self c w = (Raise e, w1) →
           SocketInfo.authset (heap w1 self)
           = SocketInfo.authset (heap w self))
  ∧ (∀ w1, authenticate self c w = (Ok tt, w1) →
       c ∈ SocketInfo.authset (heap w1 self)
       ∧ ∀ all_credentials, ∃ calls,
           log (check_auth self all_credentials w1).2 = log w1 ++ calls
           ∧ (EvAuthenticate c self ∉ calls)
           ∧ (c ∈ itervalues_set all_credentials →
              c ∈ SocketInfo.authset
                    (heap (check_auth self all_credentials w1).2 self))).
Proof.
  pose proof (authenticate_spec self c w) as Hspec. split.
  - intros e w1 Hrun. rewrite Hrun in Hspec. by destruct Hspec.
  - intros w1 Hrun. rewrite Hrun in Hspec. destruct Hspec as [Hauth1 _].
    assert (Hheld : c ∈ SocketInfo.authset (heap w1 self)).
    { rewrite Hauth1. apply elem_of_union. left. by apply elem_of_singleton. }
    split; [done|]. intros all_credentials.
    destruct (check_auth_progress self all_credentials w1)
      as (od & id & oc & ic & res & w2 & -> & Hauth & Hlog & Hoc & Hic & Hres).
    exists (logouts self oc ++ logins self ic). cbn [snd].
    split; [done|]. split.
    + intros [Hin|Hin]%elem_of_app.
      * unfold logouts in Hin. apply list_elem_of_fmap in Hin as (c' & [=] & _).
      * unfold logins in Hin.
        apply list_elem_of_fmap in Hin as (c' & [= <-] & Hin).
        by destruct (Hic c Hin).
    + intros Hwanted. rewrite Hauth.
      apply elem_of_union. right. apply elem_of_difference. split; [done|].
      rewrite elem_of_list_to_set. intros Hin.
      assert (Hcalled : c ∈ oc).
      { destruct res as [[]|e|]; [| |done].
        - by destruct Hres as (-> & _).
        - destruct Hres as [(_ & _ & failed & -> & _)|(-> & _)]; [|done].
          apply elem_of_app. by left. }
      by destruct (Hoc c Hcalled).
Qed.

(** * Connecting *)

Lemma set_next_fd_same w : set_next_fd (next_fd w) w = w.
Proof. by destruct w. Qed.

(** [create_connection] changes nothing but the descriptor counter, and
    the socket it returns is a new one. *)
Lemma create_connection_loop_frame t results :
  ∀ err w, ∃ n',
    (next_fd w ≤ n')%nat
    ∧ (create_connection_loop t results err w).2 = set_next_fd n' w
    ∧ ∀ sock, (create_connection_loop t results err w).1 = Ok sock →
        (next_fd w ≤ fd sock < n')%nat
        ∧ sock_closed sock = false
        ∧ timeout sock = t.
Proof.
  induction results as [|res rest IH]; intros err w.
  - exists (next_fd w). split; [done|]. cbn [create_connection_loop].
    destruct err; cbn; by rewrite set_next_fd_same.
  - cbn [create_connection_loop]. unfold try_except_else, socket_socket.
    destruct (socket_fault (net w) (af res)) as [e|].
    + destruct (is_socket_error e); [apply IH|].
      exists (next_fd w). cbn. by rewrite set_next_fd_same.
    + unfold try_except, sock_connect. cbn [net set_next_fd].
      destruct (connect_fault (net w) (sa res)) as [e|].
      * destruct (is_socket_error e).
        -- destruct (IH (Some e) (set_next_fd (S (next_fd w)) w))
             as (n' & Hle & Hw & Hsock).
           exists n'. cbn [next_fd set_next_fd] in *.
           split; [lia|]. split; [by rewrite Hw|].
           intros sock Hs. destruct (Hsock sock Hs) as (? & ? & ?).
           split; [lia|done].
        -- exists (S (next_fd w)). cbn. split; [lia|]. done.
      * exists (S (next_fd w)). cbn. split; [lia|]. split; [done|].
        intros sock [= <-]. cbn. split; [lia|done].
Qed.

Lemma create_connection_frame w :
  ∃ n',
    (next_fd w ≤ n')%nat
    ∧ (create_connection w).2 = set_next_fd n' w
    ∧ ∀ sock, (create_connection w).1 = Ok sock →
        (next_fd w ≤ fd sock < n')%nat ∧ sock_closed sock = false.
Proof.
  assert (H : ∃ n', (next_fd w ≤ n')%nat
                ∧ match create_connection w with
                  | (r, w') =>
                      w' = set_next_fd n' w
                      ∧ ∀ sock, r = Ok sock →
                          (next_fd w ≤ fd sock < n')%nat
                          ∧ sock_closed sock = false
                  end).
  2:{ destruct H as (n' & Hle & H). exists n'. split; [done|].
      by destruct (create_connection w). }
  unfold create_connection.
  rewrite bind_run. unfold gets at 1. cbn beta iota.
  destruct (Pool.pair (pool w)) as [host port].
  rewrite bind_run. unfold gets at 1. cbn beta iota.
  destruct (endswith host ".sock").
  - destruct (negb (has_AF_UNIX (net w))).
    + exists (next_fd w). cbn. by rewrite set_next_fd_same.
    + rewrite bind_run. unfold socket_socket.
      destruct (socket_fault (net w) AF_UNIX) as [e|].
      * exists (next_fd w). cbn. by rewrite set_next_fd_same.
      * unfold try_except, sock_connect. cbn [net set_next_fd].
        destruct (connect_fault (net w) (UnixPath host)) as [e|].
        -- exists (S (next_fd w)). split; [lia|].
           destruct (is_socket_error e); cbn; (split; [done|by intros ? [=]]).
        -- exists (S (next_fd w)). cbn. split; [lia|]. split; [done|].
           intros sock [= <-]. cbn. split; [lia|done].
  - rewrite bind_run. unfold gets at 1. cbn beta iota.
    destruct (getaddrinfo (net w) host port _) as [results|e|].
    + destruct (create_connection_loop_frame
                  (PoolOptions.connect_timeout (Pool.opts (pool w)))
                  results None w) as (n' & Hle & Hw & Hsock).
      exists n'. split; [done|].
      destruct (create_connection_loop _ results None w) as [r w'].
      cbn [fst snd] in *. split; [done|].
      intros sock Hs. by destruct (Hsock sock Hs) as (? & ? & ?).
    + exists (next_fd w). cbn. by rewrite set_next_fd_same.
    + exists (next_fd w). cbn. by rewrite set_next_fd_same.
Qed.

Lemma tls_steps_frame ctx hostname sock w :
  (tls_steps ctx hostname sock w).2 = w
  ∧ ∀ sock', (tls_steps ctx hostname sock w).1 = Ok sock' → sock' = sock.
Proof.
  unfold tls_steps. destruct ctx as [ctx|]; [|by split; [|intros ? [=]]].
  rewrite bind_run. unfold try_except, wrap_socket.
  destruct (wrap_socket_fault (net w) (fd sock)) as [e|].
  { by destruct (is_IOError e). }
  destruct (verify_mode ctx); [|by split; [|intros ? [=]]].
  rewrite bind_run. unfold match_hostname.
  destruct (match_hostname_fault (net w) (fd sock) hostname) as [e|].
  { by destruct (is_CertificateError e). }
  by split; [|intros ? [=]].
Qed.

(** [connect], step by step. *)
Lemma connect_unfold w :
  connect w
  = match create_connection w with
    | (Ok sock, w1) =>
        match tls_steps (PoolOptions.ssl_context (Pool.opts (pool w1)))
                        (Pool.pair (pool w1)).1 sock w1 with
        | (Ok sock, w2) =>
            (Ok (fd sock),
             set_heap
               (<[fd sock :=
                    SocketInfo_init
                      (sock_settimeout
                         (PoolOptions.socket_timeout (Pool.opts (pool w2)))
                         sock)
                      (Pool.pool_id (pool w2)) (Pool.pair (pool w1)).1
                      (now w2)]> (heap w2)) w2)
        | (Raise e, w2) => (Raise e, w2)
        | (Hang, w2) => (Hang, w2)
        end
    | (Raise e, w1) => (Raise e, w1)
    | (Hang, w1) => (Hang, w1)
    end.
Proof.
  unfold connect. rewrite bind_run.
  destruct (create_connection w) as [[sock|e|] w1]; [|done|done].
  rewrite bind_run. unfold gets at 1. cbn beta iota.
  rewrite bind_run. unfold gets at 1. cbn beta iota.
  rewrite bind_run. unfold tls_steps.
  match goal with
  | |- (let (r, s') := ?m w1 in _) = (let (r', s'') := ?m' w1 in _) =>
      change m' with m; destruct (m w1) as [[sock'|e|] w2]
  end; [|done|done].
  rewrite bind_run. unfold gets at 1. cbn beta iota.
  rewrite bind_run. unfold _time, gets at 1. cbn beta iota.
  rewrite bind_run. unfold gets at 1. cbn beta iota.
  rewrite bind_run. unfold modify, ret. done.
Qed.

(** What [connect] leaves: on success a new object in the store and
    nothing else changed but the descriptor counter; otherwise nothing
    changed but the counter. *)
Lemma connect_spec w :
  ∃ n',
    (next_fd w ≤ n')%nat
    ∧ match connect w with
      | (Ok r, w') =>
          (next_fd w ≤ r < n')%nat
          ∧ ∃ sock,
              fd sock = r ∧ sock_closed sock = false
              ∧ w' = set_heap
                       (<[r := SocketInfo_init
                                 (sock_settimeout
                                    (PoolOptions.socket_timeout
                                       (Pool.opts (pool w))) sock)
                                 (Pool.pool_id (pool w)) (Pool.pair (pool w)).1
                                 (now w)]> (heap w))
                       (set_next_fd n' w)
      | (Raise _, w') => w' = set_next_fd n' w
      | (Hang, w') => w' = set_next_fd n' w
      end.
Proof.
  rewrite connect_unfold.
  destruct (create_connection_frame w) as (n' & Hle & Hw & Hsock).
  exists n'. split; [done|].
  destruct (create_connection w) as [[sock|e|] w1]; cbn [fst snd] in *;
    [|done|done].
  subst w1. destruct (Hsock sock eq_refl) as [Hfd Hopen].
  match goal with
  | |- context [tls_steps ?c ?h sock ?w1] =>
      destruct (tls_steps_frame c h sock w1) as [Hw2 Hs2];
      destruct (tls_steps c h sock w1) as [[sock'|e|] w2]
  end; cbn [fst snd] in *; subst w2; [|done|done].
  rewrite (Hs2 sock' eq_refl). split; [done|]. by exists sock.
Qed.

(** * The result of [connect] *)

(** X10.  [connect] either returns a connection that is new in every
    respect, or changes nothing but the descriptor counter.  On success
    the reference is a descriptor not given out before; the object is
    open, authenticated as nobody, of the pool's current generation, for
    the pool's host, stamped with the current time, and its socket carries
    [socket_timeout]; its wire-version range is not set yet
    ([min_wire_version] fails its assertion); the pool, the idle set
    included, every other object and the trace are as before.  On failure
    the pool, the store and the trace are as before. *)
Theorem connect_new_connection (w : World) :
  match connect w with
  | (Ok r, w') =>
      (next_fd w ≤ r < next_fd w')%nat
      ∧ fd (SocketInfo.sock (heap w' r)) = r
      ∧ SocketInfo.closed (heap w' r) = false
      ∧ sock_closed (SocketInfo.sock (heap w' r)) = false
      ∧ SocketInfo.authset (heap w' r) = ∅
      ∧ SocketInfo.pool_id (heap w' r) = Pool.pool_id (pool w)
      ∧ SocketInfo.host (heap w' r) = (Pool.pair (pool w)).1
      ∧ SocketInfo.last_checkout (heap w' r) = now w
      ∧ timeout (SocketInfo.sock (heap w' r))
        = PoolOptions.socket_timeout (Pool.opts (pool w))
      ∧ (∃ w'', on_ref r min_wire_version w'
                = (Raise (AssertionError EmptyString), w''))
      ∧ pool w' = pool w
      ∧ (∀ r', r' ≠ r → heap w' r' = heap w r')
      ∧ log w' = log w
  | (Raise _, w') | (Hang, w') =>
      pool w' = pool w ∧ heap w' = heap w ∧ log w' = log w
      ∧ (next_fd w ≤ next_fd w')%nat
  end.
Proof.
  destruct (connect_spec w) as (n' & Hle & Hspec).
  destruct (connect w) as [[r|e|] w']; [|by subst w'|by subst w'].
  destruct Hspec as (Hr & sock & Hfd & Hopen & ->).
  cbn [heap set_heap next_fd set_next_fd pool log fst snd].
  rewrite fn_lookup_insert. cbn.
  split; [done|]. split; [done|]. split; [done|]. split; [done|].
  split; [done|]. split; [done|]. split; [done|]. split; [done|].
  split; [done|]. split.
  { unfold on_ref, zoom, min_wire_version. cbn [heap set_heap].
    rewrite fn_lookup_insert. cbn. by eexists. }
  split; [done|]. split; [|done].
  intros r' Hne. by rewrite fn_lookup_insert_ne.
Qed.

Lemma connect_tls w w1 sock :
  create_connection w = (Ok sock, w1) →
  connect w
  = match tls_steps (PoolOptions.ssl_context (Pool.opts (pool w)))
                    (Pool.pair (pool w)).1 sock w1 with
    | (Ok sock, w2) =>
        (Ok (fd sock),
         set_heap
           (<[fd sock :=
                SocketInfo_init
                  (sock_settimeout
                     (PoolOptions.socket_timeout (Pool.opts (pool w))) sock)
                  (Pool.pool_id (pool w)) (Pool.pair (pool w)).1
                  (now w)]> (heap w)) w1)
    | (Raise e, w2) => (Raise e, w1)
    | (Hang, w2) => (Hang, w1)
    end
  ∧ net w1 = net w.
Proof.
  intros Hcc. rewrite connect_unfold.
  destruct (create_connection_frame w) as (n' & Hle & Hw & _).
  rewrite Hcc in *. cbn [snd] in Hw. subst w1.
  cbn [pool set_next_fd net]. split; [|done].
  match goal with
  | |- context [tls_steps ?c ?h sock ?w1] =>
      destruct (tls_steps_frame c h sock w1) as [Hw2 Hs2];
      destruct (tls_steps c h sock w1) as [[sock'|e|] w2]
  end; cbn [fst snd] in *; subst w2; [|done|done].
  by rewrite (Hs2 sock' eq_refl).
Qed.

(** X11.  With TLS configured, once the socket is connected: an error
    of the handshake reaches the caller as
    [ConnectionFailure("SSL handshake failed. ...")] when it is an
    [IOError] (a [socket.error] is one), and as it is otherwise; after a
    handshake that went through, with [verify_mode] set, an error of the
    hostname check reaches the caller as it is; with [verify_mode] off the
    hostname is not consulted.  When [connect] fails in these ways no
    connection object is stored and the pool is as before. *)
Theorem connect_tls_failures (w w1 : World) (sock : socket)
    (ctx : SSLContext) :
  create_connection w = (Ok sock, w1) →
  PoolOptions.ssl_context (Pool.opts (pool w)) = Some ctx →
  (∀ e, wrap_socket_fault (net w) (fd sock) = Some e →
        connect w
        = (Raise (if is_IOError e
                  then ConnectionFailure
                         "SSL handshake failed. MongoDB may not be configured with SSL support."
                  else e), w1))
  ∧ (wrap_socket_fault (net w) (fd sock) = None →
     (∀ e, verify_mode ctx = true →
           match_hostname_fault (net w) (fd sock) (Pool.pair (pool w)).1
           = Some e →
           connect w = (Raise e, w1))
     ∧ (verify_mode ctx = false
        ∨ match_hostname_fault (net w) (fd sock) (Pool.pair (pool w)).1 = None →
        (connect w).1 = Ok (fd sock)))
  ∧ heap w1 = heap w ∧ pool w1 = pool w.
Proof.
  intros Hcc Hctx.
  destruct (connect_tls w w1 sock Hcc) as [-> Hnet].
  destruct (create_connection_frame w) as (n' & Hle & Hw & _).
  rewrite Hcc in Hw. cbn [snd] in Hw.
  rewrite Hctx. unfold tls_steps.
  rewrite bind_run. unfold try_except, wrap_socket. rewrite Hnet.
  split; [|split; [|by subst w1]].
  - intros e ->. by destruct (is_IOError e).
  - intros ->. split.
    + intros e -> Hm. rewrite bind_run. unfold match_hostname.
      rewrite Hnet, Hm. by destruct (is_CertificateError e).
    + intros [->|Hm]; [done|].
      destruct (verify_mode ctx); [|done].
      rewrite bind_run. unfold match_hostname. by rewrite Hnet, Hm.
Qed.

(** * [_check] *)

(** [_check], by what it finds. *)
Lemma check_unfold r w :
  _check r w
  = let x := heap w r in
    let replace :=
      try_except connect
        (λ e, if is_socket_error e then reset ;;; raise e else raise e) in
    if SocketInfo.closed x then replace w
    else if negb (Pool.pool_id (pool w) =? SocketInfo.pool_id x)
    then replace (update r close w)
    else if match Pool._check_interval_seconds (pool w) with
            | Some i => (0 =? i) || (now w - SocketInfo.last_checkout x >? i)
            | None => false
            end
    then if _closed (SocketInfo.sock x) then replace (update r close w)
         else (Ok r, w)
    else (Ok r, w).
Proof.
  unfold _check.
  rewrite bind_run. unfold _time, gets at 1. cbn beta iota.
  rewrite bind_run. unfold gets at 1. cbn beta iota.
  rewrite bind_run. unfold gets at 1. cbn beta iota.
  rewrite bind_run. unfold gets at 1. cbn beta iota.
  rewrite bind_run. cbn zeta.
  destruct (SocketInfo.closed (heap w r)); [done|].
  destruct (negb (Pool.pool_id (pool w) =? SocketInfo.pool_id (heap w r))).
  { rewrite bind_run. unfold close_ref, modify at 1. cbn beta iota. done. }
  destruct (match Pool._check_interval_seconds (pool w) with
            | Some i => _ | None => false end); [|done].
  destruct (_closed (SocketInfo.sock (heap w r))); [|done].
  rewrite bind_run. unfold close_ref, modify at 1. cbn beta iota. done.
Qed.

(** X12.  [_check] returns a connection as it is, changing nothing and
    connecting nowhere, when the connection is open, of the pool's current
    generation, and either the pool never probes
    ([_check_interval_seconds] is [None]), or the connection was checked
    out no longer ago than a non-zero interval (the socket is then not
    probed, whatever [select] would say), or the probe finds nothing to
    read. *)
Theorem check_keeps_recent_connection (r : nat) (w : World) :
  SocketInfo.closed (heap w r) = false →
  current r w →
  Pool._check_interval_seconds (pool w) = None
  ∨ (∃ i, Pool._check_interval_seconds (pool w) = Some i
          ∧ i ≠ 0 ∧ now w - SocketInfo.last_checkout (heap w r) ≤ i)
  ∨ _closed (SocketInfo.sock (heap w r)) = false →
  _check r w = (Ok r, w).
Proof.
  intros Hopen Hcur Hfit. rewrite check_unfold. cbn zeta.
  rewrite Hopen. unfold current in Hcur. rewrite Hcur, Z.eqb_refl. cbn [negb].
  destruct Hfit as [->|[(i & -> & Hi & Hage)| ->]]; [done| |].
  - destruct (0 =? i) eqn:H0; [apply Z.eqb_eq in H0; lia|]. cbn [orb].
    destruct (_ >? i) eqn:Hgt; [|done].
    apply Z.gtb_lt in Hgt. lia.
  - by destruct (match Pool._check_interval_seconds (pool w) with
                 | Some i => _ | None => false end).
Qed.

(** The replacement of a connection that [_check] has closed or found
    closed. *)
Lemma check_replace r w :
  SocketInfo.closed (heap w r) = true →
  match try_except connect
          (λ e, if is_socket_error e then reset ;;; raise e else raise e) w with
  | (Ok r', w') =>
      (next_fd w ≤ r' < next_fd w')%nat
      ∧ SocketInfo.closed (heap w' r') = false
      ∧ current r' w'
      ∧ ((r < next_fd w)%nat → SocketInfo.closed (heap w' r) = true)
      ∧ pool w' = pool w
      ∧ log w' = log w
  | (Raise e, w') =>
      SocketInfo.closed (heap w' r) = true
      ∧ (next_fd w ≤ next_fd w')%nat
      ∧ if is_socket_error e
        then Pool.pool_id (pool w') = Pool.pool_id (pool w) + 1
             ∧ Pool.sockets (pool w') = ∅
             ∧ (∀ x, x ∈ Pool.sockets (pool w) →
                     SocketInfo.closed (heap w' x) = true)
             ∧ log w' = log w ++ [EvReset]
        else pool w' = pool w ∧ heap w' = heap w ∧ log w' = log w
  | (Hang, w') => True
  end.
Proof.
  intros Hclosed. unfold try_except.
  destruct (connect_spec w) as (n' & Hle & Hspec).
  destruct (connect w) as [[r'|e|] w1]; [| |done].
  - destruct Hspec as (Hr' & sock & Hfd & Hopen & ->).
    cbn [heap set_heap next_fd set_next_fd pool log].
    unfold current. cbn [heap set_heap pool set_next_fd].
    rewrite fn_lookup_insert.
    split; [done|]. split; [done|]. split; [done|]. split; [|done].
    intros Hr. by rewrite fn_lookup_insert_ne by lia.
  - subst w1. destruct (is_socket_error e) eqn:He.
    + rewrite bind_run.
      destruct (reset_spec (set_next_fd n' w)) as (w' & -> & Hw' & Hheap).
      unfold raise. cbn [pool set_next_fd log heap getpid] in *.
      split.
      { rewrite Hheap. cbn [heap set_next_fd pool].
        by destruct (decide _). }
      split; [rewrite Hw'; cbn; lia|]. rewrite He.
      split; [by rewrite Hw'|]. split; [by rewrite Hw'|].
      split; [|by rewrite Hw'].
      intros x Hx. by rewrite Hheap, decide_True.
    + unfold raise. rewrite He. cbn. done.
Qed.

(** How [_check] ends. *)
Lemma check_spec r w :
  match _check r w with
  | (Ok r', w') =>
      SocketInfo.closed (heap w' r') = false
      ∧ current r' w'
      ∧ pool w' = pool w
      ∧ log w' = log w
      ∧ (r' = r ∧ w' = w
         ∨ (next_fd w ≤ r' < next_fd w')%nat
           ∧ ((r < next_fd w)%nat → SocketInfo.closed (heap w' r) = true))
  | (Raise e, w') =>
      SocketInfo.closed (heap w' r) = true
      ∧ (next_fd w ≤ next_fd w')%nat
      ∧ if is_socket_error e
        then Pool.pool_id (pool w') = Pool.pool_id (pool w) + 1
             ∧ Pool.sockets (pool w') = ∅
             ∧ (∀ x, x ∈ Pool.sockets (pool w) →
                     SocketInfo.closed (heap w' x) = true)
             ∧ log w' = log w ++ [EvReset]
        else pool w' = pool w ∧ log w' = log w
  | (Hang, w') => True
  end.
Proof.
  rewrite check_unfold. cbn zeta.
  assert (Hrep : ∀ w0,
    SocketInfo.closed (heap w0 r) = true →
    pool w0 = pool w → log w0 = log w → next_fd w0 = next_fd w →
    match try_except connect
            (λ e, if is_socket_error e then reset ;;; raise e else raise e)
            w0 with
    | (Ok r', w') =>
        SocketInfo.closed (heap w' r') = false
        ∧ current r' w'
        ∧ pool w' = pool w
        ∧ log w' = log w
        ∧ (r' = r ∧ w' = w
           ∨ (next_fd w ≤ r' < next_fd w')%nat
             ∧ ((r < next_fd w)%nat → SocketInfo.closed (heap w' r) = true))
    | (Raise e, w') =>
        SocketInfo.closed (heap w' r) = true
        ∧ (next_fd w ≤ next_fd w')%nat
        ∧ if is_socket_error e
          then Pool.pool_id (pool w') = Pool.pool_id (pool w) + 1
               ∧ Pool.sockets (pool w') = ∅
               ∧ (∀ x, x ∈ Pool.sockets (pool w) →
                       SocketInfo.closed (heap w' x) = true)
               ∧ log w' = log w ++ [EvReset]
          else pool w' = pool w ∧ log w' = log w
    | (Hang, w') => True
    end).
  { intros w0 Hc Hp Hl Hn. pose proof (check_replace r w0 Hc) as H.
    destruct (try_except _ _ w0) as [[r'|e|] w']; [| |done].
    - destruct H as (Hr' & Ho & Hcur & Hold & Hp' & Hl').
      rewrite <- Hp, <- Hl, <- Hn. split; [done|]. split; [done|].
      split; [done|]. split; [done|]. right. done.
    - destruct H as (Ho & Hle & H). rewrite <- Hp, <- Hl, <- Hn.
      split; [done|]. split; [done|].
      destruct (is_socket_error e); [done|]. by destruct H as (? & ? & ?). }
  assert (Hclose : SocketInfo.closed (heap (update r close w) r) = true).
  { cbn. by rewrite fn_lookup_insert. }
  destruct (SocketInfo.closed (heap w r)) eqn:Ho; [by apply Hrep|].
  destruct (Pool.pool_id (pool w) =? SocketInfo.pool_id (heap w r)) eqn:Hg;
    cbn [negb]; [|by apply Hrep].
  destruct (match Pool._check_interval_seconds (pool w) with
            | Some i => _ | None => false end).
  2:{ apply Z.eqb_eq in Hg. split; [done|]. split; [done|]. split; [done|].
      split; [done|]. by left. }
  destruct (_closed (SocketInfo.sock (heap w r))); [by apply Hrep|].
  apply Z.eqb_eq in Hg. split; [done|]. split; [done|]. split; [done|].
  split; [done|]. by left.
Qed.

(** X13.  [_check] replaces a connection that is closed, of another
    generation, or due for a probe that finds its socket readable: it
    closes the connection, if it is not closed yet, and calls [connect],
    and it ends as that call ends.  When [connect] returns, [_check]
    returns the same new connection, open and of the current generation,
    in the world that [connect] left: the old connection is closed, the
    pool and the trace are as before.  When [connect] raises, [_check]
    raises the same error and the old connection is closed all the same:
    after a [socket.error] the pool has been reset first (next generation,
    idle set emptied and its connections closed), after any other error
    the world is as [connect] left it, the pool as before.  When
    [connect] does not return, neither does [_check]. *)
Theorem check_replaces_unfit_connection (r : nat) (w : World) :
  (r < next_fd w)%nat →
  SocketInfo.closed (heap w r) = true
  ∨ ¬ current r w
  ∨ ((∃ i, Pool._check_interval_seconds (pool w) = Some i
           ∧ (i = 0 ∨ i < now w - SocketInfo.last_checkout (heap w r)))
     ∧ _closed (SocketInfo.sock (heap w r)) = true) →
  let w0 := if SocketInfo.closed (heap w r) then w else update r close w in
  match connect w0 with
  | (Ok r', w1) =>
      _check r w = (Ok r', w1)
      ∧ r' ≠ r
      ∧ (next_fd w ≤ r' < next_fd w1)%nat
      ∧ SocketInfo.closed (heap w1 r') = false
      ∧ current r' w1
      ∧ SocketInfo.closed (heap w1 r) = true
      ∧ pool w1 = pool w
      ∧ log w1 = log w
  | (Raise e, w1) =>
      SocketInfo.closed (heap w1 r) = true
      ∧ pool w1 = pool w
      ∧ log w1 = log w
      ∧ if is_socket_error e
        then ∃ w2,
               reset w1 = (Ok tt, w2)
               ∧ _check r w = (Raise e, w2)
               ∧ SocketInfo.closed (heap w2 r) = true
               ∧ Pool.pool_id (pool w2) = Pool.pool_id (pool w) + 1
               ∧ Pool.sockets (pool w2) = ∅
               ∧ (∀ x, x ∈ Pool.sockets (pool w) →
                       SocketInfo.closed (heap w2 x) = true)
               ∧ log w2 = log w ++ [EvReset]
        else _check r w = (Raise e, w1)
  | (Hang, w1) => _check r w = (Hang, w1)
  end.
Proof.
  intros Hr Hunfit w0.
  assert (Hrun : _check r w
                 = try_except connect
                     (λ e, if is_socket_error e then reset ;;; raise e
                           else raise e) w0).
  { rewrite check_unfold. cbn zeta. subst w0.
    destruct (SocketInfo.closed (heap w r)) eqn:Ho; [done|].
    destruct Hunfit as [Hc|[Hn|[(i & Hi & Hdue) Hcl]]]; [done| |].
    - unfold current in Hn.
      destruct (Pool.pool_id (pool w) =? SocketInfo.pool_id (heap w r)) eqn:Hg;
        [apply Z.eqb_eq in Hg; by destruct Hn|done].
    - destruct (negb _); [done|]. rewrite Hi, Hcl.
      assert (Hd : (0 =? i) || (now w - SocketInfo.last_checkout (heap w r) >? i)
                   = true).
      { destruct Hdue as [->|Hlt]; [done|].
        apply orb_true_iff. right. by apply Z.gtb_lt. }
      by rewrite Hd. }
  assert (H0 : SocketInfo.closed (heap w0 r) = true ∧ pool w0 = pool w
               ∧ log w0 = log w ∧ next_fd w0 = next_fd w
               ∧ (∀ x, SocketInfo.closed (heap w x) = true →
                       SocketInfo.closed (heap w0 x) = true)).
  { subst w0. destruct (SocketInfo.closed (heap w r)) eqn:Ho; [done|].
    cbn. rewrite fn_lookup_insert. repeat (split; [done|]).
    intros x Hx. destruct (decide (x = r)) as [->|Hne];
      [by rewrite fn_lookup_insert|by rewrite fn_lookup_insert_ne]. }
  destruct H0 as (Hc0 & Hp0 & Hl0 & Hn0 & Hmono).
  rewrite Hrun. unfold try_except.
  destruct (connect_spec w0) as (n' & Hle & Hspec).
  destruct (connect w0) as [[r'|e|] w1]; [| |done].
  - destruct Hspec as (Hr' & sock & Hfd & Hopen & ->).
    cbn [heap set_heap next_fd set_next_fd pool log].
    unfold current. cbn [heap set_heap pool set_next_fd].
    rewrite fn_lookup_insert, <- Hn0.
    split; [done|]. split; [lia|]. split; [done|]. split; [done|].
    split; [done|]. split; [by rewrite fn_lookup_insert_ne by lia|].
    done.
  - subst w1. cbn [heap set_next_fd pool log].
    split; [done|]. split; [done|]. split; [done|].
    destruct (is_socket_error e) eqn:He; [|done].
    rewrite bind_run.
    destruct (reset_spec (set_next_fd n' w0)) as (w2 & -> & Hw2 & Hheap).
    unfold raise. exists w2. split; [done|]. split; [done|].
    cbn [pool set_next_fd log heap getpid] in *.
    split. { rewrite Hheap. cbn [heap set_next_fd]. by destruct (decide _). }
    split; [rewrite Hw2; cbn; by rewrite Hp0|].
    split; [by rewrite Hw2|].
    split; [|rewrite Hw2; cbn; by rewrite Hl0].
    intros x Hx. rewrite Hheap, decide_True by (by rewrite Hp0). done.
Qed.

(** * What [_get_socket_no_auth] hands out *)

Lemma pop_or_connect w :
  try_except
    (let* sock_info := sockets_pop in ret (sock_info, true))
    (λ e, if is_KeyError e
          then let* sock_info := connect in ret (sock_info, false)
          else raise e) w
  = match set_iter (ref_order w) (Pool.sockets (pool w)) with
    | x :: _ =>
        (Ok (x, true),
         set_pool (Pool.set_sockets (Pool.sockets (pool w) ∖ {[x]}) (pool w)) w)
    | [] =>
        match connect w with
        | (Ok r, w') => (Ok (r, false), w')
        | (Raise e, w') => (Raise e, w')
        | (Hang, w') => (Hang, w')
        end
    end.
Proof.
  unfold try_except. rewrite bind_run. unfold sockets_pop.
  destruct (set_iter (ref_order w) (Pool.sockets (pool w))) as [|x l]; [|done].
  cbn [is_KeyError]. rewrite bind_run.
  by destruct (connect w) as [[r|e|] w'].
Qed.

(** The body of the [try] of [_get_socket_no_auth]: a connection from the
    idle set, checked, or a new one. *)
Lemma pop_check_or_connect_spec w :
  match (let* (sock_info, from_pool) :=
           try_except
             (let* sock_info := sockets_pop in ret (sock_info, true))
             (λ e, if is_KeyError e
                   then let* sock_info := connect in ret (sock_info, false)
                   else raise e) in
         if (from_pool : bool) then _check sock_info else ret sock_info) w with
  | (Ok r, w') =>
      SocketInfo.closed (heap w' r) = false
      ∧ current r w'
      ∧ Pool.pool_id (pool w') = Pool.pool_id (pool w)
      ∧ Pool.sockets (pool w') ⊆ Pool.sockets (pool w)
      ∧ ((∀ x, x ∈ Pool.sockets (pool w) → (x < next_fd w)%nat) →
         r ∉ Pool.sockets (pool w'))
  | (Raise e, w') => True
  | (Hang, w') => True
  end.
Proof.
  rewrite bind_run, pop_or_connect.
  destruct (set_iter (ref_order w) (Pool.sockets (pool w))) as [|x l] eqn:Hiter.
  - destruct (connect_spec w) as (n' & Hle & Hspec).
    destruct (connect w) as [[r|e|] w1]; [|done|done].
    destruct Hspec as (Hr & sock & Hfd & Hopen & ->).
    unfold ret, current. cbn [heap set_heap pool set_next_fd now].
    rewrite fn_lookup_insert.
    split; [done|]. split; [done|]. split; [done|].
    split; [done|]. intros Hall Hin. apply Hall in Hin. lia.
  - assert (Hx : x ∈ Pool.sockets (pool w)).
    { apply (elem_of_set_iter (ref_order w)). rewrite Hiter.
      apply list_elem_of_here. }
    set (w1 := set_pool _ w).
    pose proof (check_spec x w1) as Hspec.
    destruct (_check x w1) as [[r|e|] w2]; [|done|done].
    destruct Hspec as (Ho & Hcur & Hp & Hl & Hwhich).
    split; [done|]. split; [done|]. split; [by rewrite Hp|].
    rewrite Hp. subst w1. cbn [pool set_pool Pool.sockets Pool.set_sockets].
    split; [set_solver|].
    intros Hall. destruct Hwhich as [[-> _]|[Hr _]]; [set_solver|].
    cbn [next_fd set_pool] in Hr.
    intros [Hin _]%elem_of_difference. apply Hall in Hin. lia.
Qed.

(** How a successful [_get_socket_no_auth] leaves the connection it
    returns and the idle set. *)
Lemma get_socket_no_auth_spec w :
  match _get_socket_no_auth w with
  | (Ok r, w') =>
      SocketInfo.closed (heap w' r) = false
      ∧ current r w'
      ∧ SocketInfo.last_checkout (heap w' r) = now w'
      ∧ Pool.sockets (pool w') ⊆ Pool.sockets (pool w)
      ∧ ((∀ x, x ∈ Pool.sockets (pool w) → (x < next_fd w)%nat) →
         r ∉ Pool.sockets (pool w'))
  | (Raise e, w') => True
  | (Hang, w') => True
  end.
Proof.
  unfold _get_socket_no_auth.
  rewrite bind_run. unfold gets at 1. cbn beta iota.
  rewrite bind_run.
  assert (∃ w0, (if negb (Pool.pid (pool w) =? getpid w)
                 then reset else ret tt) w = (Ok tt, w0)
                ∧ Pool.sockets (pool w0) ⊆ Pool.sockets (pool w)
                ∧ next_fd w0 = next_fd w) as (w0 & -> & Hsub0 & Hn0).
  { destruct (negb _); [|by exists w].
    destruct (reset_spec w) as (w0 & Hrun & Hw0 & _).
    exists w0. split; [done|]. rewrite Hw0. cbn. split; [set_solver|done]. }
  cbn beta iota.
  rewrite bind_run. unfold gets at 1. cbn beta iota.
  rewrite bind_run.
  destruct (_socket_semaphore_acquire _ w0) as [[[]|e|] w1] eqn:Hacq;
    cbn beta iota; [| |done|done].
  2:{ rewrite bind_run. cbn [negb]. unfold _raise_wait_queue_timeout.
      rewrite bind_run. unfold gets at 1. cbn beta iota. done. }
  apply socket_semaphore_acquire_frame in Hacq as [sem' ->].
  rewrite bind_run. cbn [negb]. unfold ret at 1. cbn beta iota.
  rewrite bind_run. unfold try_except at 1.
  match goal with
  | |- context [bind ?m ?k (emit ?ev ?w1)] =>
      pose proof (pop_check_or_connect_spec (emit ev w1)) as Hspec;
      destruct (bind m k (emit ev w1)) as [[r|e|] w3]
  end; cbn beta iota; [| |done].
  2:{ rewrite bind_run. unfold _socket_semaphore_release, modify at 1.
      cbn beta iota. done. }
  destruct Hspec as (Ho & Hcur & Hgen & Hsub & Hfresh).
  rewrite bind_run. unfold _time, gets at 1. cbn beta iota.
  rewrite bind_run. unfold modify at 1. cbn beta iota. unfold ret.
  unfold current in *. cbn [heap update set_heap pool now] in *.
  rewrite fn_lookup_insert. cbn.
  split; [done|]. split; [done|]. split; [done|].
  cbn [pool emit set_pool Pool.sockets Pool.set_semaphore next_fd] in *.
  split; [set_solver|].
  intros Hall. apply Hfresh. intros x Hx. rewrite Hn0. apply Hall.
  by apply Hsub0.
Qed.

(** X14.  Whatever connection [_get_socket_no_auth] hands out is open,
    of the pool's current generation and stamped with the current time;
    the idle set has not grown; and, if every idle connection was made by
    this pool (its descriptor has been given out), the connection handed
    out is not idle. *)
Theorem get_socket_no_auth_hands_out (w w' : World) (r : nat) :
  _get_socket_no_auth w = (Ok r, w') →
  SocketInfo.closed (heap w' r) = false
  ∧ current r w'
  ∧ SocketInfo.last_checkout (heap w' r) = now w'
  ∧ Pool.sockets (pool w') ⊆ Pool.sockets (pool w)
  ∧ ((∀ x, x ∈ Pool.sockets (pool w) → (x < next_fd w)%nat) →
     r ∉ Pool.sockets (pool w')).
Proof.
  intros Hrun. pose proof (get_socket_no_auth_spec w) as H.
  by rewrite Hrun in H.
Qed.

(** * The wait queue *)

Lemma set_semaphore_same w :
  set_pool (Pool.set_semaphore (Pool._socket_semaphore (pool w)) (pool w)) w = w.
Proof. by destruct w as [[] ? ? ? ? ? ? ? ? ?]. Qed.

(** X15.  Wait-queue timeout.  In the owning process, with no permit
    left, the waiter cap not reached and a [wait_queue_timeout] set,
    [_get_socket_no_auth] raises [ConnectionFailure] with the message that
    names [max_pool_size] and the timeout.  Nothing else happens: no
    connection is made or taken from the idle set, no permit is released,
    and the trace records the one acquire that failed. *)
Theorem wait_queue_timeout_raises (w : World) (n t : Z) :
  Pool.pid (pool w) = getpid w →
  Semaphore.permits (semaphore_of w) = Some n →
  n ≤ 0 →
  Semaphore.waiter_cap (semaphore_of w)
  ≠ Some (Semaphore.blocked (semaphore_of w)) →
  PoolOptions.wait_queue_timeout (Pool.opts (pool w)) = Some t →
  _get_socket_no_auth w
  = (Raise (ConnectionFailure
              ("Timed out waiting for socket from pool with max_size "
               ++ repr (PoolOptions.max_pool_size (Pool.opts (pool w)))
               ++ " and wait_queue_timeout " ++ pretty t)),
     emit (EvAcquire false) w).
Proof.
  unfold semaphore_of. intros Hpid Hp Hn Hcap Ht.
  unfold _get_socket_no_auth.
  rewrite bind_run. unfold gets at 1. cbn beta iota.
  rewrite Hpid, Z.eqb_refl. cbn [negb].
  rewrite bind_run. unfold ret at 1. cbn beta iota.
  rewrite bind_run. unfold gets at 1. cbn beta iota.
  rewrite bind_run, Ht.
  unfold _socket_semaphore_acquire. rewrite bind_run. unfold zoom.
  unfold semaphore_acquire. rewrite Hp.
  assert (Hc : match Semaphore.waiter_cap (Pool._socket_semaphore (pool w)) with
               | Some cap =>
                   Semaphore.blocked (Pool._socket_semaphore (pool w)) =? cap
               | None => false
               end = false).
  { destruct (Semaphore.waiter_cap _) as [cap|]; [|done].
    apply Z.eqb_neq. congruence. }
  rewrite Hc.
  destruct (0 <? n) eqn:H0; [apply Z.ltb_lt in H0; lia|].
  rewrite set_semaphore_same.
  rewrite bind_run. unfold modify at 1. cbn beta iota. unfold ret at 1.
  cbn beta iota. rewrite bind_run. cbn [negb].
  unfold _raise_wait_queue_timeout. rewrite bind_run. unfold gets at 1.
  cbn beta iota. unfold raise. cbn [pool emit]. rewrite Ht. done.
Qed.

(** * What every caller finds *)

Global Instance idle_within_preorder : PreOrder idle_within.
Proof.
  split; unfold idle_within; [done|].
  intros w1 w2 w3 [Ho1 Hs1] [Ho2 Hs2]. split; [congruence|set_solver].
Qed.

Global Instance keeps_idle_bound_preorder : PreOrder keeps_idle_bound.
Proof.
  split; unfold keeps_idle_bound; [done|].
  intros w1 w2 w3 [Ho1 Hs1] [Ho2 Hs2]. split; [congruence|tauto].
Qed.

Global Instance closed_stays_preorder : PreOrder closed_stays.
Proof.
  split; unfold closed_stays.
  - intros w. split; [lia|done].
  - intros w1 w2 w3 [Hn1 Hc1] [Hn2 Hc2]. split; [lia|].
    intros r Hr Hc. apply Hc2; [lia|]. by apply Hc1.
Qed.

Lemma preserves_weaken {S A} (R R' : relation S) (m : M S A) :
  (∀ s s', R s s' → R' s s') → preserves R m → preserves R' m.
Proof. intros HR Hm s. apply HR, Hm. Qed.

Lemma idle_within_keeps_bound w w' : idle_within w w' → keeps_idle_bound w w'.
Proof.
  unfold idle_within, keeps_idle_bound, idle_bounded. intros [Ho Hs].
  split; [done|]. rewrite Ho.
  destruct (PoolOptions.max_pool_size _) as [m|]; [|done].
  apply subseteq_size in Hs. lia.
Qed.

Create HintDb frames.

(** The new relations, on the states the primitives produce. *)
Ltac idle_done :=
  unfold idle_within in *; cbn in *;
  first [ done | split; [done|set_solver] ].

Ltac preserves_by tac :=
  repeat first
    [ preserves_step
    | solve [ eauto with frames ]
    | solve [ tac ]
    | solve [ let w := fresh "w" in
              intros w;
              unfold socket_socket, sock_connect, wrap_socket, match_hostname,
                sockets_pop, _time, zoom, gets;
              repeat case_match; simplify_eq; tac ] ].

Lemma idle_within_reset : preserves idle_within reset.
Proof. unfold reset, close_ref. preserves_by idle_done. Qed.

Lemma idle_within_connect : preserves idle_within connect.
Proof.
  intros w. destruct (connect_spec w) as (n' & _ & H).
  destruct (connect w) as [[r|e|] w']; cbn [snd].
  - destruct H as (_ & sock & _ & _ & ->). by split.
  - by subst w'.
  - by subst w'.
Qed.
#[export] Hint Resolve idle_within_reset idle_within_connect : frames.

Lemma idle_within_check r : preserves idle_within (_check r).
Proof. unfold _check, close_ref. preserves_by idle_done. Qed.
#[export] Hint Resolve idle_within_check : frames.

Lemma idle_within_get_socket_no_auth : preserves idle_within _get_socket_no_auth.
Proof.
  unfold _get_socket_no_auth, _socket_semaphore_acquire,
    _socket_semaphore_release, _raise_wait_queue_timeout.
  preserves_by idle_done.
Qed.

Lemma idle_within_auth_answer r : preserves idle_within (auth_answer r).
Proof.
  apply preserves_auth_answer; [tc_solve|by intros w a|].
  intros A m w. unfold on_ref, zoom. by destruct (m _).
Qed.
#[export] Hint Resolve idle_within_auth_answer : frames.

Lemma idle_within_check_auth r c : preserves idle_within (check_auth r c).
Proof.
  unfold check_auth, auth_logout, auth_authenticate. preserves_by idle_done.
Qed.

Lemma idle_within_on_ref {A} r (m : M SocketInfo.t A) :
  preserves idle_within (on_ref r m).
Proof. unfold on_ref. intros w. unfold zoom. by destruct (m _). Qed.
#[export] Hint Resolve idle_within_get_socket_no_auth idle_within_check_auth
  idle_within_on_ref : frames.

(** A release adds to the idle set only below the bound. *)
Lemma keeps_idle_bound_return_socket r :
  preserves keeps_idle_bound (_return_socket r).
Proof.
  intros w. rewrite return_socket_spec.
  unfold _socket_semaphore_release, modify. cbn [snd].
  destruct (negb _ && _) eqn:Htest.
  2:{ apply idle_within_keeps_bound. by split. }
  apply andb_true_iff in Htest as [Hroom _]. apply negb_true_iff in Hroom.
  unfold keeps_idle_bound, idle_bounded.
  cbn [pool emit set_pool Pool.opts Pool.set_semaphore Pool.set_sockets
    Pool.sockets].
  split; [done|].
  destruct (PoolOptions.max_pool_size (Pool.opts (pool w))) as [m|]; [|done].
  intros Hb.
  assert (Hlt : Z.of_nat (size (Pool.sockets (pool w))) < m).
  { unfold len in Hroom. unfold size, set_size. cbn.
    unfold Z.geb in Hroom.
    destruct (Z.of_nat _ ?= m) eqn:Hc; [done| |done].
    by apply Z.compare_lt_iff in Hc. }
  destruct (decide (r ∈ Pool.sockets (pool w))) as [Hin|Hnin].
  - replace ({[r]} ∪ Pool.sockets (pool w)) with (Pool.sockets (pool w))
      by (apply leibniz_equiv; set_solver).
    done.
  - rewrite size_union by set_solver. rewrite size_singleton. lia.
Qed.

Lemma keeps_idle_bound_maybe_return_socket r :
  preserves keeps_idle_bound (maybe_return_socket r).
Proof.
  unfold maybe_return_socket.
  pose proof (keeps_idle_bound_return_socket r).
  assert (preserves keeps_idle_bound reset)
    by (eapply preserves_weaken; [apply idle_within_keeps_bound|];
        apply idle_within_reset).
  assert (preserves keeps_idle_bound _socket_semaphore_release)
    by (intros w; apply idle_within_keeps_bound; by split).
  repeat first [preserves_step | done | solve [tc_solve]].
Qed.

Lemma keeps_idle_bound_get_socket {A} c mn mx co (body : nat → M World A) :
  (∀ r, preserves keeps_idle_bound (body r)) →
  preserves keeps_idle_bound (get_socket c mn mx co body).
Proof.
  intros Hb. unfold get_socket.
  pose proof keeps_idle_bound_maybe_return_socket.
  assert (preserves keeps_idle_bound _get_socket_no_auth)
    by (eapply preserves_weaken; [apply idle_within_keeps_bound|];
        apply idle_within_get_socket_no_auth).
  assert (∀ r, preserves keeps_idle_bound (check_auth r c))
    by (intros r; eapply preserves_weaken; [apply idle_within_keeps_bound|];
        apply idle_within_check_auth).
  assert (∀ r, preserves keeps_idle_bound (close_ref r))
    by (intros r w; apply idle_within_keeps_bound; by split).
  assert (∀ r f, preserves keeps_idle_bound (modify (update r f)))
    by (intros r f w; apply idle_within_keeps_bound; by split).
  repeat first [preserves_step | done | solve [tc_solve]].
Qed.

Lemma keeps_idle_bound_run p : preserves keeps_idle_bound (run p).
Proof.
  assert (Hw : ∀ A (m : M World A),
             preserves idle_within m → preserves keeps_idle_bound m).
  { intros A m. apply preserves_weaken, idle_within_keeps_bound. }
  induction p as [|p IHp q IHq|p IHp q IHq|e|child|t| |k IH|k IH|r k IH|r|r
                  |c mn mx co body IH|r c|r c|r|r msg|r op rid]; cbn [run].
  - apply preserves_ret; tc_solve.
  - apply preserves_bind; [tc_solve|done|done].
  - apply preserves_try_except; [tc_solve|done|done].
  - apply preserves_raise; tc_solve.
  - apply Hw. preserves_by idle_done.
  - apply Hw. preserves_by idle_done.
  - apply Hw, idle_within_reset.
  - apply preserves_bind; [tc_solve|apply Hw, idle_within_connect|done].
  - apply preserves_bind;
      [tc_solve|apply Hw, idle_within_get_socket_no_auth|done].
  - apply preserves_bind; [tc_solve|apply Hw, idle_within_check|done].
  - apply keeps_idle_bound_return_socket.
  - apply keeps_idle_bound_maybe_return_socket.
  - by apply keeps_idle_bound_get_socket.
  - apply Hw, idle_within_check_auth.
  - apply Hw. unfold authenticate, auth_authenticate. preserves_by idle_done.
  - apply Hw. unfold close_ref. preserves_by idle_done.
  - apply Hw, idle_within_on_ref.
  - apply Hw. apply preserves_bind; [tc_solve|apply idle_within_on_ref|].
    intros ?. apply preserves_ret; tc_solve.
Qed.

(** X16.  Whatever the callers do, an idle set that holds no more than
    [max_pool_size] connections (none, if that is not positive) never
    comes to hold more, and the options of the pool are never changed. *)
Theorem idle_set_stays_bounded (p : prog) (w : World) :
  idle_bounded w →
  idle_bounded (run p w).2
  ∧ Pool.opts (pool (run p w).2) = Pool.opts (pool w).
Proof.
  intros Hb. destruct (keeps_idle_bound_run p w) as [Ho H]. by split; [apply H|].
Qed.

(** ** Closed connections stay closed *)

Lemma closed_stays_same w w' :
  heap w' = heap w → next_fd w' = next_fd w → closed_stays w w'.
Proof. intros Hh Hn. split; [lia|]. intros r _. by rewrite Hh. Qed.

Lemma closed_stays_update r f w :
  (∀ x, SocketInfo.closed x = true → SocketInfo.closed (f x) = true) →
  closed_stays w (update r f w).
Proof.
  intros Hf. split; [done|]. intros r0 _ Hc. unfold update.
  cbn [heap set_heap]. destruct (decide (r0 = r)) as [->|Hne].
  - rewrite fn_lookup_insert. by apply Hf.
  - by rewrite fn_lookup_insert_ne.
Qed.

Global Instance stays_closed_preorder : PreOrder stays_closed.
Proof.
  split; unfold stays_closed; [by intros x|]. intros x y z; tauto.
Qed.

Lemma closed_stays_on_ref {A} r (m : M SocketInfo.t A) :
  preserves stays_closed m → preserves closed_stays (on_ref r m).
Proof.
  intros Hm w. unfold on_ref, zoom. specialize (Hm (heap w r)).
  destruct (m (heap w r)) as [res x]. cbn [snd] in *.
  split; [done|]. intros r0 _ Hc. cbn [heap set_heap].
  destruct (decide (r0 = r)) as [->|Hne].
  - rewrite fn_lookup_insert. by apply Hm.
  - by rewrite fn_lookup_insert_ne.
Qed.

Lemma stays_closed_on_sock {A} (m : M socket A) :
  preserves stays_closed (on_sock m).
Proof.
  intros x. unfold on_sock, zoom, stays_closed. by destruct (m _).
Qed.

Lemma stays_closed_close : preserves stays_closed (modify close).
Proof. by intros x. Qed.

Lemma stays_closed_struct_unpack_i bs :
  preserves stays_closed (struct_unpack_i bs).
Proof.
  intros x. unfold struct_unpack_i, stays_closed. by destruct (decide _).
Qed.

Lemma stays_closed_assert b msg : preserves stays_closed (assert_ b msg).
Proof. intros x. unfold stays_closed. by destruct b. Qed.
#[export] Hint Resolve stays_closed_on_sock stays_closed_close
  stays_closed_struct_unpack_i stays_closed_assert : frames.

Lemma stays_closed_send_message message :
  preserves stays_closed (send_message message).
Proof. unfold send_message. preserves_by idtac. Qed.

Lemma stays_closed_receive_data_loop fuel :
  ∀ length message,
    preserves stays_closed (receive_data_loop fuel length message).
Proof.
  induction fuel as [|fuel IH]; intros length message;
    cbn [receive_data_loop]; preserves_by idtac.
Qed.
#[export] Hint Resolve stays_closed_receive_data_loop : frames.

Lemma stays_closed_receive_message operation request_id :
  preserves stays_closed (receive_message operation request_id).
Proof.
  unfold receive_message, __receive_data_on_socket. preserves_by idtac.
Qed.

Lemma closed_stays_connect : preserves closed_stays connect.
Proof.
  intros w. destruct (connect_spec w) as (n' & Hle & H).
  destruct (connect w) as [[r|e|] w']; cbn [snd].
  - destruct H as (Hr & sock & _ & _ & ->). split; [done|].
    intros r0 Hr0 Hc. cbn [heap set_heap set_next_fd].
    by rewrite fn_lookup_insert_ne by lia.
  - subst w'. by split.
  - subst w'. by split.
Qed.
#[export] Hint Resolve closed_stays_connect : frames.

(** Steps that leave the store and the descriptors alone, and updates
    that do not reopen. *)
Ltac closed_done :=
  first
    [ apply closed_stays_same; reflexivity
    | apply closed_stays_update; intros [] ?; done ].

Lemma closed_stays_reset : preserves closed_stays reset.
Proof. unfold reset, close_ref. preserves_by closed_done. Qed.
#[export] Hint Resolve closed_stays_reset : frames.

Lemma closed_stays_check r : preserves closed_stays (_check r).
Proof. unfold _check, close_ref. preserves_by closed_done. Qed.
#[export] Hint Resolve closed_stays_check : frames.

Lemma closed_stays_get_socket_no_auth :
  preserves closed_stays _get_socket_no_auth.
Proof.
  unfold _get_socket_no_auth, _socket_semaphore_acquire,
    _socket_semaphore_release, _raise_wait_queue_timeout.
  preserves_by closed_done.
Qed.

Lemma closed_stays_maybe_return_socket r :
  preserves closed_stays (maybe_return_socket r).
Proof.
  unfold maybe_return_socket, _return_socket, _socket_semaphore_release,
    close_ref.
  preserves_by closed_done.
Qed.

Lemma stays_closed_auth_steps steps :
  preserves stays_closed (for_each steps auth_step_run).
Proof.
  apply preserves_for_each; [tc_solve|]. intros step.
  destruct step; cbn [auth_step_run].
  - apply stays_closed_send_message.
  - apply preserves_bind;
      [tc_solve|apply stays_closed_receive_message|].
    intros ?. apply preserves_ret; tc_solve.
  - intros x. unfold bind, min_wire_version, max_wire_version, stays_closed.
    destruct (SocketInfo._min_wire_version x); [|done].
    by destruct (SocketInfo._max_wire_version x).
Qed.

Lemma closed_stays_auth_answer r : preserves closed_stays (auth_answer r).
Proof.
  intros w. unfold auth_answer.
  destruct (auth_script w) as [|call rest]; [reflexivity|].
  etrans; [apply (closed_stays_same w (set_auth_script rest w)); reflexivity|].
  apply preserves_bind; [tc_solve| |].
  - apply closed_stays_on_ref, stays_closed_auth_steps.
  - intros _. destruct (auth_verdict call);
      [apply preserves_raise|apply preserves_ret]; tc_solve.
Qed.
#[export] Hint Resolve closed_stays_auth_answer : frames.

Lemma closed_stays_check_auth r c : preserves closed_stays (check_auth r c).
Proof.
  unfold check_auth, auth_logout, auth_authenticate. preserves_by closed_done.
Qed.
#[export] Hint Resolve closed_stays_get_socket_no_auth
  closed_stays_maybe_return_socket closed_stays_check_auth : frames.

Lemma closed_stays_get_socket {A} c mn mx co (body : nat → M World A) :
  (∀ r, preserves closed_stays (body r)) →
  preserves closed_stays (get_socket c mn mx co body).
Proof. intros Hb. unfold get_socket, close_ref. preserves_by closed_done. Qed.

Lemma closed_stays_run p : preserves closed_stays (run p).
Proof.
  induction p as [|p IHp q IHq|p IHp q IHq|e|child|t| |k IH|k IH|r k IH|r|r
                  |c mn mx co body IH|r c|r c|r|r msg|r op rid]; cbn [run].
  - apply preserves_ret; tc_solve.
  - apply preserves_bind; [tc_solve|done|done].
  - apply preserves_try_except; [tc_solve|done|done].
  - apply preserves_raise; tc_solve.
  - preserves_by closed_done.
  - preserves_by closed_done.
  - apply closed_stays_reset.
  - apply preserves_bind; [tc_solve|apply closed_stays_connect|done].
  - apply preserves_bind; [tc_solve|apply closed_stays_get_socket_no_auth|done].
  - apply preserves_bind; [tc_solve|apply closed_stays_check|done].
  - unfold _return_socket, _socket_semaphore_release, close_ref.
    preserves_by closed_done.
  - apply closed_stays_maybe_return_socket.
  - by apply closed_stays_get_socket.
  - apply closed_stays_check_auth.
  - unfold authenticate, auth_authenticate. preserves_by closed_done.
  - unfold close_ref. preserves_by closed_done.
  - apply closed_stays_on_ref, stays_closed_send_message.
  - apply preserves_bind; [tc_solve| |intros ?; apply preserves_ret; tc_solve].
    apply closed_stays_on_ref, stays_closed_receive_message.
Qed.

(** X17.  No operation of the pool or of a connection reopens a
    connection: one that has been made and is closed is still closed
    after any sequence of operations. *)
Theorem closed_connection_stays_closed (p : prog) (w : World) (r : nat) :
  (r < next_fd w)%nat →
  SocketInfo.closed (heap w r) = true →
  SocketInfo.closed (heap (run p w).2 r) = true.
Proof. intros Hr Hc. by apply (closed_stays_run p w). Qed.

(** * Authentication within [get_socket] *)

Global Instance beside_wire_preorder : PreOrder beside_wire.
Proof.
  split; unfold beside_wire.
  - by intros x.
  - intros x y z (? & ? & ? & ? & ?) (? & ? & ? & ? & ?).
    repeat split; congruence.
Qed.

Global Instance auth_frame_preorder self : PreOrder (auth_frame self).
Proof.
  split; unfold auth_frame.
  - intros w. repeat (split; [done|]). reflexivity.
  - intros w1 w2 w3 (Hp1 & Hn1 & Hg1 & Ht1 & Hnet1 & Hh1 & Hs1)
                    (Hp2 & Hn2 & Hg2 & Ht2 & Hnet2 & Hh2 & Hs2).
    split; [congruence|]. split; [congruence|]. split; [congruence|].
    split; [congruence|]. split; [congruence|]. split.
    + intros r Hr. by rewrite Hh2, Hh1.
    + by etrans.
Qed.

Global Instance same_closed_preorder : PreOrder same_closed.
Proof.
  split; unfold same_closed; [by intros x|]. intros x y z; congruence.
Qed.

Global Instance same_closed_at_preorder self : PreOrder (same_closed_at self).
Proof.
  split; unfold same_closed_at; [by intros x|]. intros x y z; congruence.
Qed.

(** The methods of a connection leave everything but the socket and the
    closed flag alone; while they do not raise, the closed flag too. *)
Lemma beside_wire_on_sock {A} (m : M socket A) : preserves beside_wire (on_sock m).
Proof. intros x. unfold on_sock, zoom, beside_wire. by destruct (m _). Qed.

Lemma beside_wire_close : preserves beside_wire (modify close).
Proof. by intros x. Qed.

Lemma beside_wire_struct_unpack_i bs : preserves beside_wire (struct_unpack_i bs).
Proof.
  intros x. unfold struct_unpack_i, beside_wire. by destruct (decide _).
Qed.

Lemma beside_wire_assert b msg : preserves beside_wire (assert_ b msg).
Proof. intros x. unfold beside_wire. by destruct b. Qed.

Lemma same_closed_on_sock {A} (m : M socket A) : preserves same_closed (on_sock m).
Proof. intros x. unfold on_sock, zoom, same_closed. by destruct (m _). Qed.

Lemma same_closed_struct_unpack_i bs : preserves same_closed (struct_unpack_i bs).
Proof.
  intros x. unfold struct_unpack_i, same_closed. by destruct (decide _).
Qed.

Lemma same_closed_assert b msg : preserves same_closed (assert_ b msg).
Proof. intros x. unfold same_closed. by destruct b. Qed.
#[export] Hint Resolve beside_wire_on_sock beside_wire_close
  beside_wire_struct_unpack_i beside_wire_assert same_closed_on_sock
  same_closed_struct_unpack_i same_closed_assert : frames.

Lemma beside_wire_receive_data_loop fuel :
  ∀ length message,
    preserves beside_wire (receive_data_loop fuel length message).
Proof.
  induction fuel as [|fuel IH]; intros length message;
    cbn [receive_data_loop]; preserves_by idtac.
Qed.

Lemma same_closed_receive_data_loop fuel :
  ∀ length message,
    preserves same_closed (receive_data_loop fuel length message).
Proof.
  induction fuel as [|fuel IH]; intros length message;
    cbn [receive_data_loop]; preserves_by idtac.
Qed.
#[export] Hint Resolve beside_wire_receive_data_loop
  same_closed_receive_data_loop : frames.

Lemma beside_wire_auth_steps steps :
  preserves beside_wire (for_each steps auth_step_run).
Proof.
  apply preserves_for_each; [tc_solve|]. intros step.
  destruct step; cbn [auth_step_run].
  - unfold send_message. preserves_by idtac.
  - unfold receive_message, __receive_data_on_socket. preserves_by idtac.
  - intros x. unfold bind, min_wire_version, max_wire_version.
    destruct (SocketInfo._min_wire_version x); [|reflexivity].
    destruct (SocketInfo._max_wire_version x); reflexivity.
Qed.

Section returns_with.
Context {S : Type} (R : relation S) `{!PreOrder R}.

Lemma preserves_returns {A} (m : M S A) : preserves R m → returns_with R m.
Proof. intros Hm s a s' Hrun. specialize (Hm s). by rewrite Hrun in Hm. Qed.

Lemma returns_with_ret {A} (a : A) : returns_with R (ret a).
Proof.
  intros s b s' Hrun. unfold ret, gets in Hrun.
  assert (s' = s) as -> by congruence. reflexivity.
Qed.

Lemma returns_with_gets {A} (f : S → A) : returns_with R (gets f).
Proof.
  intros s b s' Hrun. unfold ret, gets in Hrun.
  assert (s' = s) as -> by congruence. reflexivity.
Qed.

Lemma returns_with_modify (f : S → S) :
  (∀ s, R s (f s)) → returns_with R (modify f).
Proof.
  intros Hf s b s' Hrun. unfold modify in Hrun.
  assert (s' = f s) as -> by congruence. apply Hf.
Qed.

Lemma returns_with_bind {A B} (m : M S A) (k : A → M S B) :
  returns_with R m → (∀ a, returns_with R (k a)) → returns_with R (bind m k).
Proof.
  intros Hm Hk s b s'. rewrite bind_run.
  destruct (m s) as [[a|e|] s1] eqn:Hrun; [|done|done].
  intros Hrun'. etrans; [by eapply Hm|by eapply Hk].
Qed.

Lemma returns_with_for_each {A} (l : list A) (body : A → M S unit) :
  (∀ x, returns_with R (body x)) → returns_with R (for_each l body).
Proof.
  intros Hb. induction l as [|x l IH]; cbn [for_each].
  - apply returns_with_ret.
  - apply returns_with_bind; [apply Hb|by intros _].
Qed.

(** [try: m except: self.close(); raise] returns only when [m] does. *)
Lemma returns_with_close_and_reraise {A} (m : M S A) (close : S → S) :
  returns_with R m →
  returns_with R (try_except m (λ e, modify close ;;; raise e)).
Proof.
  intros Hm s a s'. unfold try_except.
  destruct (m s) as [[a'|e|] s1] eqn:Hrun; [|done|done].
  intros Heq. eapply Hm. rewrite Hrun. exact Heq.
Qed.
End returns_with.

Lemma same_closed_auth_steps steps :
  returns_with same_closed (for_each steps auth_step_run).
Proof.
  apply returns_with_for_each; [tc_solve|]. intros step.
  destruct step; cbn [auth_step_run].
  - unfold send_message.
    apply returns_with_close_and_reraise.
    apply preserves_returns, same_closed_on_sock.
  - apply returns_with_bind; [tc_solve| |].
    + unfold receive_message.
      apply returns_with_close_and_reraise.
      apply preserves_returns. unfold __receive_data_on_socket.
      preserves_by idtac.
    + intros b. apply returns_with_ret; tc_solve.
  - apply preserves_returns. intros x.
    unfold bind, min_wire_version, max_wire_version.
    destruct (SocketInfo._min_wire_version x); [|reflexivity].
    destruct (SocketInfo._max_wire_version x); reflexivity.
Qed.

(** An external call that returns has not closed the connection. *)
Lemma same_closed_auth_answer self :
  returns_with (same_closed_at self) (auth_answer self).
Proof.
  intros w a w'. unfold auth_answer.
  destruct (auth_script w) as [|call rest];
    [intros Hrun; assert (w' = w) as -> by congruence; reflexivity|].
  rewrite bind_run. unfold on_ref, zoom. cbn [heap set_auth_script].
  pose proof (same_closed_auth_steps (auth_steps call) (heap w self)) as Hs.
  destruct (for_each (auth_steps call) auth_step_run (heap w self))
    as [[[]|e|] x']; [|done|done].
  specialize (Hs tt x' eq_refl).
  destruct (auth_verdict call); [done|]. unfold ret. intros Hrun.
  match type of Hrun with
  | (_, ?w0) = _ => assert (w' = w0) as -> by congruence
  end.
  unfold same_closed_at. cbn. by rewrite fn_lookup_insert.
Qed.

Lemma same_closed_check_auth self c :
  returns_with (same_closed_at self) (check_auth self c).
Proof.
  assert (Hupd : ∀ f, (∀ x, SocketInfo.closed (f x) = SocketInfo.closed x) →
                      returns_with (same_closed_at self)
                        (modify (update self f))).
  { intros f Hf. apply returns_with_modify. intros w.
    unfold same_closed_at. cbn. by rewrite fn_lookup_insert. }
  assert (Hemit : ∀ ev, returns_with (same_closed_at self) (modify (emit ev))).
  { intros ev. by apply returns_with_modify. }
  assert (Hgets : ∀ A (f : World → A),
             returns_with (same_closed_at self) (gets f)).
  { intros A f. apply returns_with_gets; tc_solve. }
  unfold check_auth, auth_logout, auth_authenticate.
  apply returns_with_bind; [tc_solve|apply Hgets|]. intros authset0.
  destruct (_ || _); [|apply returns_with_ret; tc_solve].
  apply returns_with_bind; [tc_solve|apply Hgets|]. intros order.
  apply returns_with_bind; [tc_solve| |intros _];
    (apply returns_with_for_each; [tc_solve|]; intros c0;
     apply returns_with_bind; [tc_solve| |intros _; by apply Hupd];
     apply returns_with_bind;
       [tc_solve|apply Hemit|intros _; apply same_closed_auth_answer]).
Qed.

Lemma auth_frame_auth_answer self : preserves (auth_frame self) (auth_answer self).
Proof.
  intros w. unfold auth_answer.
  destruct (auth_script w) as [|call rest]; [reflexivity|].
  rewrite bind_run. unfold on_ref, zoom. cbn [heap set_auth_script].
  pose proof (beside_wire_auth_steps (auth_steps call) (heap w self)) as Hs.
  assert (Hf : ∀ x', beside_wire (heap w self) x' →
                     auth_frame self w
                       (set_heap (<[self := x']> (heap (set_auth_script rest w)))
                                 (set_auth_script rest w))).
  { intros x' Hx. unfold auth_frame. cbn. repeat (split; [done|]).
    split; [intros r Hr; by rewrite fn_lookup_insert_ne|].
    by rewrite fn_lookup_insert. }
  destruct (for_each (auth_steps call) auth_step_run (heap w self))
    as [[[]|e|] x']; cbn [snd] in *; [|by apply Hf|by apply Hf].
  destruct (auth_verdict call); by apply Hf.
Qed.
#[export] Hint Resolve auth_frame_auth_answer : frames.

Ltac auth_done :=
  unfold auth_frame, beside_wire, update; cbn [fst snd pool next_fd getpid
    now net heap emit set_heap set_auth_script];
  repeat match goal with |- _ ∧ _ => split end;
  first [ done
        | by rewrite fn_lookup_insert
        | intros ? ?; by rewrite fn_lookup_insert_ne ].

Lemma auth_frame_check_auth self c :
  preserves (auth_frame self) (check_auth self c).
Proof.
  unfold check_auth, auth_logout, auth_authenticate. preserves_by auth_done.
Qed.

(** * The scope of [get_socket], continued *)

(** [get_socket] up to its [yield]. *)
Lemma get_socket_to_yield c mn mx w :
  get_socket c mn mx true ret w
  = match _get_socket_no_auth w with
    | (Ok r, w1) =>
        match check_auth r c (update r (set_wire_version_range mn mx) w1) with
        | (Ok _, w3) => (Ok r, w3)
        | (Raise e, w2) => (Raise e, (on_error r e w2).2)
        | (Hang, w2) => (Hang, w2)
        end
    | (Raise e, w1) => (Raise e, w1)
    | (Hang, w1) => (Hang, w1)
    end.
Proof.
  unfold get_socket. rewrite bind_run.
  destruct (_get_socket_no_auth w) as [[r|e|] w1]; [|done|done].
  rewrite bind_run. unfold modify at 1. cbn beta iota.
  unfold try_except_else. rewrite bind_run.
  destruct (check_auth r c _) as [[[]|e|] w3]; [done| |done].
  apply handler_on_error.
Qed.

(** X19.  When [get_socket] reaches its [yield], the connection it
    yields is open, of the current generation, authenticated as exactly
    the credentials asked for, carries the wire-version range passed in
    (the two properties return it), and is stamped with the current time;
    the idle set has not grown, and the connection is not idle (given
    that every idle connection was made by this pool). *)
Theorem get_socket_yields_ready_connection
    (all_credentials : gmap string MongoCredential)
    (min_version max_version : Z) (w w3 : World) (r : nat) :
  get_socket all_credentials min_version max_version true ret w
  = (Ok r, w3) →
  SocketInfo.closed (heap w3 r) = false
  ∧ current r w3
  ∧ SocketInfo.authset (heap w3 r) = itervalues_set all_credentials
  ∧ (on_ref r min_wire_version w3).1 = Ok min_version
  ∧ (on_ref r max_wire_version w3).1 = Ok max_version
  ∧ SocketInfo.last_checkout (heap w3 r) = now w3
  ∧ Pool.sockets (pool w3) ⊆ Pool.sockets (pool w)
  ∧ ((∀ x, x ∈ Pool.sockets (pool w) → (x < next_fd w)%nat) →
     r ∉ Pool.sockets (pool w3)).
Proof.
  rewrite get_socket_to_yield.
  pose proof (get_socket_no_auth_spec w) as Hget.
  destruct (_get_socket_no_auth w) as [[r1|e|] w1]; [|done|done].
  destruct Hget as (Hopen & Hcur & Hlast & Hsub & Hfresh).
  set (w2 := update r1 (set_wire_version_range min_version max_version) w1).
  pose proof (auth_frame_check_auth r1 all_credentials w2) as Hframe.
  pose proof (same_closed_check_auth r1 all_credentials w2) as Hclosed.
  destruct (check_auth_passes r1 all_credentials w2)
    as (_ & outs & ins & _ & _ & Hauth).
  destruct (check_auth r1 all_credentials w2) as [[[]|e|] w3'];
    [|done|done].
  intros [= <- <-]. cbn [snd] in Hframe.
  specialize (Hclosed tt w3' eq_refl). unfold same_closed_at in Hclosed.
  destruct Hframe as (Hp & Hn & Hg & Ht & Hnet & Hh & Hw).
  destruct Hw as (Hhost & Hstamp & Hmin & Hmax & Hgen).
  destruct Hauth as [_ Hauth].
  assert (Hx : heap w2 r1 = set_wire_version_range min_version max_version
                              (heap w1 r1)).
  { subst w2. cbn. by rewrite fn_lookup_insert. }
  rewrite Hx in Hclosed, Hstamp, Hmin, Hmax, Hgen.
  unfold current, on_ref, zoom, min_wire_version, max_wire_version.
  rewrite Hclosed, Hstamp, Hmin, Hmax, Hgen, Hp, Ht.
  split; [done|]. split; [done|]. split; [done|]. split; [done|].
  split; [done|]. split; [done|]. done.
Qed.

Lemma on_error_releases r e w : released w (on_error r e w).2.
Proof.
  unfold on_error. destruct (_ || _).
  - rewrite bind_run. unfold close_ref, modify. cbn beta iota.
    edestruct maybe_return_socket_releases as (w' & -> & Hrel).
    eapply released_same_l; [|exact Hrel]. done.
  - edestruct maybe_return_socket_releases as (w' & -> & Hrel). done.
Qed.

(** The release of a closed connection discards it. *)
Lemma maybe_return_socket_closed r w :
  SocketInfo.closed (heap w r) = true →
  ∃ w', maybe_return_socket r w = (Ok tt, w')
        ∧ SocketInfo.closed (heap w' r) = true
        ∧ (r ∉ Pool.sockets (pool w) → r ∉ Pool.sockets (pool w'))
        ∧ released w w'.
Proof.
  intros Hclosed.
  destruct (maybe_return_socket_releases r w) as (w' & Hret & Hrel).
  exists w'. split; [done|].
  destruct (decide (Pool.pid (pool w) = getpid w)) as [Hpid|Hpid].
  - rewrite maybe_return_socket_same_process, Hclosed in Hret by done.
    injection Hret as <-. done.
  - rewrite maybe_return_socket_other_process, bind_run in Hret by done.
    unfold _socket_semaphore_release, modify in Hret. cbn beta iota in Hret.
    match type of Hret with
    | reset ?w0 = _ =>
        destruct (reset_effects w0)
          as (w2 & Hrun & _ & _ & _ & Hidle & Hin & Hout & _)
    end.
    rewrite Hrun in Hret. injection Hret as <-.
    split; [|by rewrite Hidle].
    destruct (decide (r ∈ Pool.sockets (pool w))) as [Hr|Hr].
    + by apply Hin.
    + by rewrite Hout.
Qed.

Lemma on_error_closed r e w :
  SocketInfo.closed (heap w r) = true
  ∨ is_socket_error e || is_ConnectionFailure e = true →
  SocketInfo.closed (heap (on_error r e w).2 r) = true
  ∧ (r ∉ Pool.sockets (pool w) → r ∉ Pool.sockets (pool (on_error r e w).2)).
Proof.
  intros Hc. unfold on_error.
  destruct (is_socket_error e || is_ConnectionFailure e) eqn:He.
  - rewrite bind_run. unfold close_ref, modify. cbn beta iota.
    destruct (maybe_return_socket_closed r (update r close w))
      as (w' & -> & Hcl & Hidle & _); [cbn; by rewrite fn_lookup_insert|].
    done.
  - destruct Hc as [Hc|]; [|done].
    destruct (maybe_return_socket_closed r w Hc) as (w' & -> & Hcl & Hidle & _).
    done.
Qed.

(** X20.  An error of [check_auth] inside [get_socket] is handled as an
    error of the block, which is never run: the error reaches the caller
    and the permit is released.  The connection is closed and does not
    become idle when the error is a [socket.error] or a
    [ConnectionFailure], and also when the failed call has left the
    connection closed, whatever the class of the error.  After an error
    of another class that has left the connection open, the connection
    goes back to the idle set, open, when the pool is in its own process
    and has room. *)
Theorem authentication_failure_releases {A}
    (all_credentials : gmap string MongoCredential)
    (min_wire_version max_wire_version : Z) (checkout : bool)
    (body : nat → M World A) (w w1 w2 : World) (r : nat) (e : exn) :
  _get_socket_no_auth w = (Ok r, w1) →
  check_auth r all_credentials
    (update r (set_wire_version_range min_wire_version max_wire_version) w1)
  = (Raise e, w2) →
  ∃ w',
    get_socket all_credentials min_wire_version max_wire_version checkout
               body w = (Raise e, w')
    ∧ released w2 w'
    ∧ (is_socket_error e || is_ConnectionFailure e = true
       ∨ SocketInfo.closed (heap w2 r) = true →
       SocketInfo.closed (heap w' r) = true
       ∧ (r ∉ Pool.sockets (pool w1) → r ∉ Pool.sockets (pool w')))
    ∧ (is_socket_error e || is_ConnectionFailure e = false →
       SocketInfo.closed (heap w2 r) = false →
       Pool.pid (pool w1) = getpid w1 → has_room w1 →
       r ∈ Pool.sockets (pool w')
       ∧ SocketInfo.closed (heap w' r) = false).
Proof.
  intros Hget Hauth. exists (on_error r e w2).2.
  split.
  { unfold get_socket. rewrite bind_run, Hget.
    rewrite bind_run. unfold modify at 1. cbn beta iota.
    unfold try_except_else. rewrite bind_run, Hauth.
    apply handler_on_error. }
  split; [apply on_error_releases|].
  pose proof (get_socket_no_auth_spec w) as Hspec. rewrite Hget in Hspec.
  destruct Hspec as (_ & Hcur & _).
  pose proof (auth_frame_check_auth r all_credentials
                (update r (set_wire_version_range min_wire_version
                             max_wire_version) w1)) as Hframe.
  rewrite Hauth in Hframe. cbn [snd] in Hframe.
  destruct Hframe as (Hp & Hn & Hg & Ht & Hnet & Hh & Hw).
  destruct Hw as (_ & _ & _ & _ & Hgen).
  cbn [pool update set_heap getpid heap] in Hp, Hg, Hgen.
  rewrite fn_lookup_insert in Hgen.
  split.
  - intros He. destruct (on_error_closed r e w2) as [Hc Hidle]; [tauto|].
    split; [done|]. by rewrite Hp in Hidle.
  - intros He Hopen Hpid Hroom. unfold on_error. rewrite He.
    destruct (maybe_return_socket_releases r w2) as (w' & Hret & _).
    rewrite Hret. cbn [snd].
    rewrite (idle_after_release r w2 w'); [| | | | |done].
    + cbn. split; [set_solver|done].
    + by rewrite Hp, Hg.
    + done.
    + unfold has_room in *. by rewrite Hp.
    + unfold current in *. rewrite Hp, Hgen. by destruct (heap w1 r).
Qed.

Lemma closes_on_error_send_message message :
  closes_on_error (send_message message).
Proof. intros x e x' Hrun. by eapply close_and_reraise. Qed.

Lemma closes_on_error_receive_message operation request_id :
  closes_on_error (receive_message operation request_id).
Proof. intros x e x' Hrun. by eapply close_and_reraise. Qed.

(** A block that starts with a method of the connection that fails. *)
Lemma failed_method_discards {A B} c mn mx co (m : M SocketInfo.t B)
    (k : B → M World A) w w3 r e w4 :
  closes_on_error m →
  get_socket c mn mx true ret w = (Ok r, w3) →
  on_ref r m w3 = (Raise e, w4) →
  ∃ w5,
    get_socket c mn mx co (λ r, let* b := on_ref r m in k b) w = (Raise e, w5)
    ∧ SocketInfo.closed (heap w5 r) = true
    ∧ (r ∉ Pool.sockets (pool w3) → r ∉ Pool.sockets (pool w5))
    ∧ released w4 w5.
Proof.
  intros Hm Hyield Hrun.
  rewrite get_socket_yield, Hyield, bind_run, Hrun.
  exists (on_error r e w4).2. split; [done|].
  assert (Hclosed : SocketInfo.closed (heap w4 r) = true
                    ∧ pool w4 = pool w3).
  { unfold on_ref, zoom in Hrun.
    destruct (m (heap w3 r)) as [res x'] eqn:Hmx.
    injection Hrun as -> <-. cbn. rewrite fn_lookup_insert.
    split; [by eapply Hm|done]. }
  destruct Hclosed as [Hclosed Hp].
  destruct (on_error_closed r e w4) as [Hc Hidle]; [by left|].
  split; [done|]. split; [by rewrite <- Hp|]. apply on_error_releases.
Qed.

(** X21.  A connection on which [send_message] or [receive_message]
    failed inside the block is discarded whatever the class of the
    exception: the method has closed it, so that the release does not put
    it in the idle set even when [get_socket] itself does not close it.
    The exception reaches the caller and the permit is released. *)
Theorem failed_io_discards_connection {A}
    (all_credentials : gmap string MongoCredential)
    (min_wire_version max_wire_version : Z) (checkout : bool)
    (w w3 w4 : World) (r : nat) (e : exn) :
  get_socket all_credentials min_wire_version max_wire_version true ret w
  = (Ok r, w3) →
  (∀ message (k : unit → M World A),
     on_ref r (send_message message) w3 = (Raise e, w4) →
     ∃ w5,
       get_socket all_credentials min_wire_version max_wire_version checkout
         (λ r, let* b := on_ref r (send_message message) in k b) w
       = (Raise e, w5)
       ∧ SocketInfo.closed (heap w5 r) = true
       ∧ (r ∉ Pool.sockets (pool w3) → r ∉ Pool.sockets (pool w5))
       ∧ released w4 w5)
  ∧ (∀ operation request_id (k : bytes → M World A),
       on_ref r (receive_message operation request_id) w3 = (Raise e, w4) →
       ∃ w5,
         get_socket all_credentials min_wire_version max_wire_version checkout
           (λ r, let* b := on_ref r (receive_message operation request_id) in
                 k b) w
         = (Raise e, w5)
         ∧ SocketInfo.closed (heap w5 r) = true
         ∧ (r ∉ Pool.sockets (pool w3) → r ∉ Pool.sockets (pool w5))
         ∧ released w4 w5).
Proof.
  intros Hyield. split.
  - intros message k Hrun.
    by apply failed_method_discards; [apply closes_on_error_send_message| |].
  - intros operation request_id k Hrun.
    by apply failed_method_discards;
      [apply closes_on_error_receive_message| |].
Qed.

(** * The connector, continued *)

(** Each candidate passed over costs at most one descriptor. *)
Lemma create_connection_loop_passes_fd t n failed :
  ∀ rest err w,
    net w = n →
    Forall (refused n) failed →
    ∃ w' err',
      create_connection_loop t (failed ++ rest) err w
      = create_connection_loop t rest err' w'
      ∧ net w' = n
      ∧ (next_fd w ≤ next_fd w' ≤ next_fd w + length failed)%nat
      ∧ w' = set_next_fd (next_fd w') w.
Proof.
  induction failed as [|c failed IH]; intros rest err w Hn Hall.
  - exists w, err. split; [done|]. split; [done|]. split; [cbn; lia|].
    by destruct w.
  - inversion Hall as [|? ? (e & Hc & He) Hall']; subst.
    cbn [app create_connection_loop].
    unfold candidate_error in Hc. unfold try_except_else, socket_socket.
    destruct (socket_fault (net w) (af c)) as [e'|] eqn:Hs.
    + injection Hc as ->. rewrite He.
      destruct (IH rest (Some e) w eq_refl Hall')
        as (w' & err' & -> & Hn' & Hfd & Hw').
      exists w', err'. split; [done|]. split; [done|].
      split; [cbn [length]; lia|done].
    + unfold try_except, sock_connect. cbn [net set_next_fd].
      rewrite Hc, He.
      destruct (IH rest (Some e) (set_next_fd (S (next_fd w)) w) eq_refl Hall')
        as (w' & err' & -> & Hn' & Hfd & Hw').
      exists w', err'. split; [done|]. split; [done|].
      cbn [next_fd set_next_fd length] in *. split; [lia|].
      rewrite Hw'. by destruct w.
Qed.

(** X22.  The loop of [create_connection] passes over [socket.error]
    only: when the candidates before one have been refused and the attempt
    on that one raises another exception, that exception reaches the
    caller at once.  The later candidates are not tried (no descriptor is
    used beyond those of the candidates tried), and nothing else
    changes. *)
Theorem create_connection_stops_at_other_error (w : World)
    (failed rest : list addrinfo) (res : addrinfo) (e : exn) :
  endswith (Pool.pair (pool w)).1 ".sock" = false →
  getaddrinfo (net w) (Pool.pair (pool w)).1 (Pool.pair (pool w)).2
    (if has_ipv6 (net w)
        && negb (bool_decide ((Pool.pair (pool w)).1 = "localhost"))
     then AF_UNSPEC else AF_INET) = Ok (failed ++ res :: rest) →
  Forall (refused (net w)) failed →
  candidate_error (net w) res = Some e →
  is_socket_error e = false →
  ∃ n',
    create_connection w = (Raise e, set_next_fd n' w)
    ∧ (next_fd w ≤ n' ≤ next_fd w + length failed + 1)%nat.
Proof.
  intros Hsock Hres Hfailed Hc He.
  rewrite (create_connection_tcp w _ Hsock Hres).
  destruct (create_connection_loop_passes_fd
              (PoolOptions.connect_timeout (Pool.opts (pool w)))
              (net w) failed (res :: rest) None w eq_refl Hfailed)
    as (w1 & err1 & -> & Hn & Hfd & Hw1).
  cbn [create_connection_loop]. unfold try_except_else, socket_socket.
  unfold candidate_error in Hc. rewrite Hn.
  destruct (socket_fault (net w) (af res)) as [e'|] eqn:Hs.
  - injection Hc as ->. rewrite He. exists (next_fd w1).
    unfold raise. split; [by rewrite Hw1 at 1|lia].
  - unfold try_except, sock_connect. cbn [net set_next_fd].
    rewrite Hn, Hc, He. exists (S (next_fd w1)). unfold raise.
    split; [|lia]. set (n := next_fd w1) in *. clearbody n. subst w1.
    by destruct w.
Qed.

(** * [Pool.__del__] *)

(** X23.  [Pool.__del__] closes every idle connection, object and
    socket, and nothing else: the pool (idle set, generation, semaphore)
    is as before, no connection that is not idle is touched, and the
    trace records nothing. *)
Theorem del_closes_idle_connections (w : World) :
  ∃ w',
    Pool_del w = (Ok tt, w')
    ∧ pool w' = pool w
    ∧ log w' = log w
    ∧ next_fd w' = next_fd w
    ∧ (∀ r, r ∈ Pool.sockets (pool w) →
            SocketInfo.closed (heap w' r) = true
            ∧ sock_closed (SocketInfo.sock (heap w' r)) = true)
    ∧ (∀ r, r ∉ Pool.sockets (pool w) → heap w' r = heap w r).
Proof.
  unfold Pool_del. rewrite bind_run. unfold gets at 1. cbn beta iota.
  rewrite bind_run. unfold gets at 1. cbn beta iota.
  destruct (for_each_close_ref
              (set_iter (ref_order w) (Pool.sockets (pool w))) w)
    as (w' & -> & Hw' & Hheap).
  exists w'. split; [done|].
  split; [by rewrite Hw'|]. split; [by rewrite Hw'|]. split; [by rewrite Hw'|].
  split.
  - intros r Hr. rewrite Hheap, decide_True by by apply elem_of_set_iter.
    done.
  - intros r Hr. rewrite Hheap, decide_False; [done|].
    by rewrite elem_of_set_iter.
Qed.

(** * Checkout and release, there and back *)

(** The state in which [_get_socket_no_auth] hands out the idle
    connection it is served. *)
Lemma get_socket_no_auth_serves_state r w :
  Pool.pid (pool w) = getpid w →
  SocketInfo.closed (heap w r) = false →
  current r w →
  head (set_iter (ref_order w) (Pool.sockets (pool w))) = Some r →
  _closed (SocketInfo.sock (heap w r)) = false →
  (_socket_semaphore_acquire
     (PoolOptions.wait_queue_timeout (Pool.opts (pool w))) w).1 = Ok true →
  ∃ sem',
    _get_socket_no_auth w
    = (Ok r,
       update r (SocketInfo.set_last_checkout (now w))
         (set_pool (Pool.set_sockets (Pool.sockets (pool w) ∖ {[r]})
                      (Pool.set_semaphore sem' (pool w)))
            (emit (EvAcquire true) w))).
Proof.
  intros Hpid Hopen Hcur Hhead Hsilent Hacq.
  unfold current in Hcur.
  unfold _get_socket_no_auth.
  rewrite bind_run. unfold gets at 1. cbn beta iota.
  rewrite Hpid, Z.eqb_refl. cbn [negb].
  rewrite bind_run. unfold ret at 1. cbn beta iota.
  rewrite bind_run. unfold gets at 1. cbn beta iota.
  rewrite bind_run.
  destruct (_socket_semaphore_acquire _ w) as [res w1] eqn:Hrun.
  cbn in Hacq. subst res.
  apply socket_semaphore_acquire_frame in Hrun as [sem' ->].
  exists sem'.
  cbn [negb]. rewrite bind_run. unfold ret at 1. cbn beta iota.
  rewrite bind_run.
  unfold try_except at 1. rewrite bind_run.
  unfold try_except at 1. rewrite bind_run.
  unfold sockets_pop. cbn [ref_order emit set_pool pool Pool.sockets
    Pool.set_semaphore].
  destruct (set_iter (ref_order w) (Pool.sockets (pool w))) as [|r' rest];
    [done|].
  injection Hhead as ->. unfold ret at 1. cbn beta iota.
  unfold _check. rewrite bind_run. unfold _time, gets at 1. cbn beta iota.
  rewrite bind_run. unfold gets at 1. cbn beta iota.
  rewrite bind_run. unfold gets at 1. cbn beta iota.
  rewrite bind_run. unfold gets at 1. cbn beta iota.
  rewrite bind_run.
  cbn [heap set_pool emit pool Pool.pool_id Pool.set_sockets
    Pool.set_semaphore Pool._check_interval_seconds].
  rewrite Hopen, Hcur, Z.eqb_refl, Hsilent. cbn [negb].
  match goal with
  | |- context [(if ?b then ret false else ret false) ?w0] =>
      replace ((if b then ret false else ret false) w0)
        with (@ret World bool false w0) by (by destruct b)
  end.
  unfold ret at 1. cbn beta iota. cbn [negb]. unfold ret at 1.
  cbn beta iota. rewrite bind_run. unfold gets at 1. cbn beta iota.
  rewrite bind_run. unfold modify at 1. cbn beta iota. done.
Qed.

(** X24.  Checkout and release, there and back.  In the owning
    process, when the pool serves an idle connection that is open, of the
    current generation and silent, and the idle set is within its bound,
    [_get_socket_no_auth] followed by [maybe_return_socket] leaves the idle
    set, the semaphore and the generation as they were; while checked out
    the connection is not idle; of the store only its checkout time has
    changed, and the trace shows one acquire and one release. *)
Theorem checkout_release_round_trip (r : nat) (w : World) :
  Pool.pid (pool w) = getpid w →
  SocketInfo.closed (heap w r) = false →
  current r w →
  head (set_iter (ref_order w) (Pool.sockets (pool w))) = Some r →
  _closed (SocketInfo.sock (heap w r)) = false →
  (_socket_semaphore_acquire
     (PoolOptions.wait_queue_timeout (Pool.opts (pool w))) w).1 = Ok true →
  idle_bounded w →
  ∃ w1 w2,
    _get_socket_no_auth w = (Ok r, w1)
    ∧ maybe_return_socket r w1 = (Ok tt, w2)
    ∧ (r ∉ Pool.sockets (pool w1))
    ∧ Pool.sockets (pool w2) = Pool.sockets (pool w)
    ∧ semaphore_of w2 = semaphore_of w
    ∧ Pool.pool_id (pool w2) = Pool.pool_id (pool w)
    ∧ heap w2 r = SocketInfo.set_last_checkout (now w) (heap w r)
    ∧ (∀ r', r' ≠ r → heap w2 r' = heap w r')
    ∧ log w2 = log w ++ [EvAcquire true; EvRelease].
Proof.
  intros Hpid Hopen Hcur Hhead Hsilent Hacq Hbound.
  destruct (get_socket_no_auth_serves_state r w) as [sem' Hget]; try done.
  assert (Hin : r ∈ Pool.sockets (pool w)).
  { apply (elem_of_set_iter (ref_order w)).
    destruct (set_iter _ _) as [|x l]; [done|]. injection Hhead as ->.
    apply list_elem_of_here. }
  pose proof (get_socket_no_auth_accounts w) as Hacc. rewrite Hget in Hacc.
  set (w1 := update r _ _) in *.
  destruct (maybe_return_socket_releases r w1) as (w2 & Hret & Hrel).
  exists w1, w2. split; [exact Hget|].
  assert (Hbal : balanced w w2) by by eapply acquired_released.
  assert (Hw2 := Hret).
  apply idle_after_release in Hw2.
  - split; [exact Hret|].
    split; [subst w1; cbn; set_solver|].
    destruct Hbal as [Hsem _]. split; [|split; [done|]].
    + rewrite Hw2. subst w1. cbn.
      apply leibniz_equiv. intros x. rewrite elem_of_union,
        elem_of_difference, elem_of_singleton.
      destruct (decide (x = r)) as [->|]; tauto.
    + rewrite Hw2. subst w1. cbn. rewrite fn_lookup_insert.
      split; [done|]. split; [done|].
      split; [intros r' Hne; by rewrite fn_lookup_insert_ne|].
      by rewrite <- app_assoc.
  - by subst w1.
  - subst w1. cbn. rewrite fn_lookup_insert. by destruct (heap w r).
  - subst w1. unfold has_room, idle_bounded in *. cbn.
    destruct (PoolOptions.max_pool_size (Pool.opts (pool w))) as [m|]; [|done].
    assert (Hsize : size (Pool.sockets (pool w))
                    = S (size (Pool.sockets (pool w) ∖ {[r]}))).
    { assert (Heq : Pool.sockets (pool w)
                    = {[r]} ∪ Pool.sockets (pool w) ∖ {[r]}).
      { apply leibniz_equiv. intros x.
        rewrite elem_of_union, elem_of_difference, elem_of_singleton.
        destruct (decide (x = r)) as [->|]; tauto. }
      rewrite Heq at 1. rewrite size_union by set_solver.
      by rewrite size_singleton. }
    rewrite Hsize in Hbound. lia.
  - subst w1. unfold current in *. cbn. rewrite fn_lookup_insert.
    by destruct (heap w r).
Qed.

(** * A new pool, and a block that ends normally *)

(** X25.  A new pool.  A pool as [Pool.__init__] leaves it, in the
    process that made it, is of generation 0 with nothing idle.  With
    [max_pool_size] positive or unset and a waiter cap that is not zero,
    the first checkout takes a permit and, finding nothing idle, connects:
    it hands out the connection that [connect] made, stamped with the
    time; if [connect] raises, its error reaches the caller after the
    permit has been given back. *)
Theorem fresh_pool_first_checkout (pair : string * Z)
    (options : PoolOptions.t) (w : World) :
  pool w = Pool_init pair options (getpid w) →
  (∀ n, PoolOptions.max_pool_size options = Some n → 0 < n) →
  Semaphore.waiter_cap (Pool._socket_semaphore (pool w)) ≠ Some 0 →
  Pool.pool_id (pool w) = 0
  ∧ Pool.sockets (pool w) = ∅
  ∧ ∃ w1,
      acquired w w1
      ∧ Pool.sockets (pool w1) = ∅
      ∧ heap w1 = heap w
      ∧ next_fd w1 = next_fd w
      ∧ match connect w1 with
        | (Ok r, w2) =>
            _get_socket_no_auth w
            = (Ok r, update r (SocketInfo.set_last_checkout (now w2)) w2)
        | (Raise e, w2) =>
            _get_socket_no_auth w = (Raise e, (_socket_semaphore_release w2).2)
        | (Hang, w2) => _get_socket_no_auth w = (Hang, w2)
        end.
Proof.
  intros Hinit Hsize Hcap.
  split; [by rewrite Hinit|]. split; [by rewrite Hinit|].
  assert (Hpid : Pool.pid (pool w) = getpid w) by by rewrite Hinit.
  assert (Hidle : Pool.sockets (pool w) = ∅) by by rewrite Hinit.
  assert (Hblocked : Semaphore.blocked (Pool._socket_semaphore (pool w)) = 0)
    by by rewrite Hinit.
  assert (Hpermits : Semaphore.permits (Pool._socket_semaphore (pool w))
                     = PoolOptions.max_pool_size options)
    by by rewrite Hinit.
  pose proof (socket_semaphore_acquire_spec
                (PoolOptions.wait_queue_timeout (Pool.opts (pool w))) w)
    as Hacq.
  assert (Hgrant : (_socket_semaphore_acquire
                      (PoolOptions.wait_queue_timeout (Pool.opts (pool w)))
                      w).1 = Ok true).
  { unfold _socket_semaphore_acquire. rewrite bind_run. unfold zoom.
    unfold semaphore_acquire. rewrite Hblocked, Hpermits.
    destruct (Semaphore.waiter_cap _) as [cap|].
    - destruct (0 =? cap) eqn:H0; [apply Z.eqb_eq in H0; congruence|].
      destruct (PoolOptions.max_pool_size options) as [n|]; [|done].
      specialize (Hsize n eq_refl). apply Z.ltb_lt in Hsize.
      by rewrite Hsize.
    - destruct (PoolOptions.max_pool_size options) as [n|]; [|done].
      specialize (Hsize n eq_refl). apply Z.ltb_lt in Hsize.
      by rewrite Hsize. }
  destruct (_socket_semaphore_acquire _ w) as [res w1] eqn:Hrun.
  cbn [fst] in Hgrant. subst res.
  exists w1. split; [done|].
  destruct (socket_semaphore_acquire_frame _ _ _ _ Hrun) as [sem' Hw1].
  split; [by rewrite Hw1|]. split; [by rewrite Hw1|].
  split; [by rewrite Hw1|].
  assert (Hget : _get_socket_no_auth w
                 = match connect w1 with
                   | (Ok r, w2) =>
                       (Ok r, update r (SocketInfo.set_last_checkout (now w2))
                                w2)
                   | (Raise e, w2) => (Raise e, (_socket_semaphore_release w2).2)
                   | (Hang, w2) => (Hang, w2)
                   end).
  { unfold _get_socket_no_auth.
    rewrite bind_run. unfold gets at 1. cbn beta iota.
    rewrite Hpid, Z.eqb_refl. cbn [negb].
    rewrite bind_run. unfold ret at 1. cbn beta iota.
    rewrite bind_run. unfold gets at 1. cbn beta iota.
    rewrite bind_run, Hrun. cbn [negb].
    rewrite bind_run. unfold ret at 1. cbn beta iota.
    rewrite bind_run. unfold try_except at 1.
    rewrite bind_run, pop_or_connect.
    assert (Hnone : set_iter (ref_order w1) (Pool.sockets (pool w1)) = []).
    { rewrite Hw1. cbn. rewrite Hidle. apply set_iter_empty. }
    rewrite Hnone.
    destruct (connect w1) as [[r|e|] w2]; [| |done].
    - unfold ret at 1. cbn beta iota.
      rewrite bind_run. unfold _time, gets at 1. cbn beta iota.
      rewrite bind_run. unfold modify at 1. cbn beta iota. done.
    - rewrite bind_run. unfold _socket_semaphore_release, modify at 1.
      cbn beta iota. done. }
  rewrite Hget. by destruct (connect w1) as [[r|e|] w2].
Qed.

(** X26.  A block that ends normally.  The value of the block is the
    value of the scope.  With [checkout] the scope ends in the state the
    block left: the connection is not released and the permit stays with
    it.  Without, the connection is released after the block: the permit
    is given back; the connection joins the idle set as it is when the
    pool is in its own process, the block left the connection open and of
    the current generation, and the idle set has room; a connection that
    the block closed is discarded. *)
Theorem block_success_release {A}
    (all_credentials : gmap string MongoCredential)
    (min_wire_version max_wire_version : Z)
    (body : nat → M World A) (w w3 w4 : World) (r : nat) (a : A) :
  get_socket all_credentials min_wire_version max_wire_version true ret w
  = (Ok r, w3) →
  body r w3 = (Ok a, w4) →
  get_socket all_credentials min_wire_version max_wire_version true body w
  = (Ok a, w4)
  ∧ ∃ w5,
      get_socket all_credentials min_wire_version max_wire_version false
                 body w = (Ok a, w5)
      ∧ maybe_return_socket r w4 = (Ok tt, w5)
      ∧ released w4 w5
      ∧ (Pool.pid (pool w4) = getpid w4 →
         SocketInfo.closed (heap w4 r) = false →
         has_room w4 → current r w4 →
         r ∈ Pool.sockets (pool w5)
         ∧ heap w5 = heap w4)
      ∧ (SocketInfo.closed (heap w4 r) = true →
         SocketInfo.closed (heap w5 r) = true
         ∧ (r ∉ Pool.sockets (pool w4) → r ∉ Pool.sockets (pool w5))).
Proof.
  intros Hyield Hbody. split.
  { by rewrite get_socket_yield, Hyield, Hbody. }
  destruct (maybe_return_socket_releases r w4) as (w5 & Hret & Hrel).
  exists w5. split.
  { by rewrite get_socket_yield, Hyield, Hbody, Hret. }
  split; [done|]. split; [done|]. split.
  - intros Hpid Hopen Hroom Hcur.
    rewrite (idle_after_release r w4 w5) by done.
    split; [cbn; set_solver|done].
  - intros Hclosed.
    destruct (maybe_return_socket_closed r w4 Hclosed)
      as (w5' & Hret' & Hc & Hidle & _).
    rewrite Hret in Hret'. injection Hret' as <-. done.
Qed.

(** * The further theorems at work on the samples *)

(** Two responses back to back on one connection. *)
Lemma receive_message_in_sequence_witness :
  queued 16 sample_stream_twice
  = Some (sample_header,
          [Chunk (take 3 sample_payload); Chunk (drop 3 sample_payload)]
          ++ sample_stream)
  ∧ queued 16 sample_stream
    = Some (sample_header,
            [Chunk (take 3 sample_payload); Chunk (drop 3 sample_payload)])
  ∧ answers sample_header 1 (Some 7)
  ∧ (let* first := receive_message 1 (Some 7) in
     let* second := receive_message 1 (Some 7) in
     ret (first, second)) (sample_connection sample_stream_twice)
    = (Ok (sample_payload, sample_payload),
       with_inbox [] (sample_connection sample_stream_twice)).
Proof.
  assert (H1 : queued 16 (inbox (SocketInfo.sock
                            (sample_connection sample_stream_twice)))
               = Some (sample_header,
                       [Chunk (take 3 sample_payload);
                        Chunk (drop 3 sample_payload)] ++ sample_stream))
    by reflexivity.
  assert (H2 : queued (length sample_payload)
                 ([Chunk (take 3 sample_payload); Chunk (drop 3 sample_payload)]
                  ++ sample_stream)
               = Some (sample_payload, sample_stream)) by reflexivity.
  assert (H3 : header_length sample_header = 16 + len sample_payload)
    by reflexivity.
  assert (H4 : answers sample_header 1 (Some 7))
    by (split; [reflexivity | right; reflexivity]).
  assert (H5 : queued 16 sample_stream
               = Some (sample_header,
                       [Chunk (take 3 sample_payload);
                        Chunk (drop 3 sample_payload)])) by reflexivity.
  assert (H6 : queued (length sample_payload)
                 [Chunk (take 3 sample_payload); Chunk (drop 3 sample_payload)]
               = Some (sample_payload, [])) by reflexivity.
  split; [exact H1|]. split; [exact H5|]. split; [exact H4|].
  exact (receive_message_in_sequence _ 1 1 (Some 7) (Some 7) _ _ _ _ _ _ _ _
           H1 H2 H3 H4 H5 H6 H3 H4).
Defined.

(** A reply that is a header only, and one whose length field says 8. *)
Lemma receive_message_length_edges_witness :
  queued 16 [Chunk empty_reply_header] = Some (empty_reply_header, [])
  ∧ answers empty_reply_header 1 (Some 7)
  ∧ header_length empty_reply_header = 16
  ∧ receive_message 1 (Some 7) (sample_connection [Chunk empty_reply_header])
    = (Ok [], with_inbox [] (sample_connection [Chunk empty_reply_header]))
  ∧ header_length short_reply_header < 16
  ∧ receive_message 1 (Some 7) (sample_connection [Chunk short_reply_header])
    = (Raise (ValueError "negative buffersize in recv"),
       close (with_inbox [] (sample_connection [Chunk short_reply_header]))).
Proof.
  assert (H1 : queued 16 (inbox (SocketInfo.sock
                 (sample_connection [Chunk empty_reply_header])))
               = Some (empty_reply_header, [])) by reflexivity.
  assert (H2 : answers empty_reply_header 1 (Some 7))
    by (split; [reflexivity | right; reflexivity]).
  assert (H3 : header_length empty_reply_header = 16) by reflexivity.
  assert (H4 : queued 16 (inbox (SocketInfo.sock
                 (sample_connection [Chunk short_reply_header])))
               = Some (short_reply_header, [])) by reflexivity.
  assert (H5 : answers short_reply_header 1 (Some 7))
    by (split; [reflexivity | right; reflexivity]).
  assert (H6 : header_length short_reply_header < 16) by reflexivity.
  split; [exact H1|]. split; [exact H2|]. split; [exact H3|].
  split; [exact (proj1 (receive_message_length_edges _ 1 (Some 7) _ _ H1 H2) H3)|].
  split; [exact H6|].
  exact (proj2 (receive_message_length_edges _ 1 (Some 7) _ _ H4 H5) H6).
Defined.

(** A read that times out in the middle of the header. *)
Lemma receive_message_recv_error_witness :
  breaks 16 timed_out_stream = Some (SocketError "timed out")
  ∧ ∃ self',
      receive_message 1 (Some 7) (sample_connection timed_out_stream)
      = (Raise (SocketError "timed out"), self')
      ∧ SocketInfo.closed self' = true.
Proof.
  assert (H : breaks 16 (inbox (SocketInfo.sock
                (sample_connection timed_out_stream)))
              = Some (SocketError "timed out")) by reflexivity.
  split; [exact H|].
  exact (proj1 (receive_message_recv_error _ 1 (Some 7) _) H).
Defined.

(** A ping answered by the sample response. *)
Lemma command_returns_first_document_witness :
  command_request sample_helpers "admin" ping = (7, ping)
  ∧ send_goes_through (SocketInfo.sock (sample_connection sample_stream)) = true
  ∧ ∃ self',
      command sample_helpers "admin" ping (sample_connection sample_stream)
      = (Ok sample_payload, self')
      ∧ SocketInfo.closed self' = false
      ∧ inbox (SocketInfo.sock self') = []
      ∧ outbox (SocketInfo.sock self') = [] ++ [ping].
Proof.
  assert (H1 : command_request sample_helpers "admin" ping = (7, ping))
    by reflexivity.
  assert (H2 : send_goes_through
                 (SocketInfo.sock (sample_connection sample_stream)) = true)
    by reflexivity.
  assert (H3 : queued 16 (inbox (SocketInfo.sock
                 (sample_connection sample_stream)))
               = Some (sample_header,
                       [Chunk (take 3 sample_payload);
                        Chunk (drop 3 sample_payload)])) by reflexivity.
  assert (H4 : queued (length sample_payload)
                 [Chunk (take 3 sample_payload); Chunk (drop 3 sample_payload)]
               = Some (sample_payload, [])) by reflexivity.
  assert (H5 : header_length sample_header = 16 + len sample_payload)
    by reflexivity.
  assert (H6 : header_opcode sample_header = 1) by reflexivity.
  assert (H7 : header_response_to sample_header = 7) by reflexivity.
  assert (H8 : _unpack_response sample_helpers sample_payload
               = Ok [sample_payload]) by reflexivity.
  assert (H9 : _check_command_response sample_helpers sample_payload
                 (command_failure_template sample_helpers "admin" ping)
               = Ok tt) by reflexivity.
  split; [exact H1|]. split; [exact H2|].
  exact (command_returns_first_document sample_helpers "admin" ping _ 7 ping
           _ _ _ _ _ _ H1 H2 H3 H4 H5 H6 H7 H8 H9).
Defined.

(** The next response on the connection answers request 8, not 7. *)
Lemma command_rejects_foreign_reply_witness :
  header_response_to foreign_header ≠ 7
  ∧ ∃ text self',
      command sample_helpers "admin" ping (sample_connection foreign_stream)
      = (Raise (AssertionError text), self')
      ∧ SocketInfo.closed self' = true.
Proof.
  assert (H1 : command_request sample_helpers "admin" ping = (7, ping))
    by reflexivity.
  assert (H2 : send_goes_through
                 (SocketInfo.sock (sample_connection foreign_stream)) = true)
    by reflexivity.
  assert (H3 : queued 16 (inbox (SocketInfo.sock
                 (sample_connection foreign_stream)))
               = Some (foreign_header, [Chunk sample_payload]))
    by reflexivity.
  assert (H4 : header_response_to foreign_header ≠ 7)
    by (vm_compute; discriminate).
  split; [exact H4|].
  exact (command_rejects_foreign_reply sample_helpers "admin" ping _ 7 ping
           _ _ H1 H2 H3 (or_introl H4)).
Defined.

(** The server answers the ping with a document that is an error. *)
Lemma command_error_keeps_connection_witness :
  _check_command_response sample_helpers failed_payload
    (command_failure_template sample_helpers "admin" ping)
  = Raise (OperationFailure
             "command {'ping': 1} on namespace admin.$cmd failed: %s")
  ∧ ∃ self',
      command sample_helpers "admin" ping (sample_connection failed_stream)
      = (Raise (OperationFailure
                  "command {'ping': 1} on namespace admin.$cmd failed: %s"),
         self')
      ∧ SocketInfo.closed self' = false
      ∧ inbox (SocketInfo.sock self') = []
      ∧ outbox (SocketInfo.sock self') = [] ++ [ping].
Proof.
  assert (H1 : command_request sample_helpers "admin" ping = (7, ping))
    by reflexivity.
  assert (H2 : send_goes_through
                 (SocketInfo.sock (sample_connection failed_stream)) = true)
    by reflexivity.
  assert (H3 : queued 16 (inbox (SocketInfo.sock
                 (sample_connection failed_stream)))
               = Some (sample_header, [Chunk failed_payload])) by reflexivity.
  assert (H4 : queued (length failed_payload) [Chunk failed_payload]
               = Some (failed_payload, [])) by reflexivity.
  assert (H5 : header_length sample_header = 16 + len failed_payload)
    by reflexivity.
  assert (H6 : header_opcode sample_header = 1) by reflexivity.
  assert (H7 : header_response_to sample_header = 7) by reflexivity.
  assert (H8 : _unpack_response sample_helpers failed_payload
               = Ok [failed_payload]) by reflexivity.
  assert (H9 : _check_command_response sample_helpers failed_payload
                 (command_failure_template sample_helpers "admin" ping)
               = Raise (OperationFailure
                    "command {'ping': 1} on namespace admin.$cmd failed: %s"))
    by reflexivity.
  split; [exact H9|].
  exact (command_error_keeps_connection sample_helpers "admin" ping _ 7 ping
           _ _ _ _ _ _ _ H1 H2 H3 H4 H5 H6 H7 H8 H9).
Defined.

(** The request cannot be written. *)
Lemma command_send_failure_witness :
  send_faults (SocketInfo.sock unwritable_connection)
  = [Some (SocketError "Broken pipe")]
  ∧ ∃ self',
      command sample_helpers "admin" ping unwritable_connection
      = (Raise (SocketError "Broken pipe"), self')
      ∧ SocketInfo.closed self' = true
      ∧ inbox (SocketInfo.sock self') = []
      ∧ outbox (SocketInfo.sock self') = [].
Proof.
  assert (H : send_faults (SocketInfo.sock unwritable_connection)
              = [Some (SocketError "Broken pipe")]) by reflexivity.
  split; [exact H|].
  exact (command_send_failure sample_helpers "admin" ping _ _ _ H).
Defined.

(** The server refuses the logout from ["admin"]: nothing changes in
    [authset]. *)
Lemma check_auth_failure_state_witness :
  check_auth 0 wants_app refusing_world
  = (Raise (OperationFailure "Authentication failed."),
     (check_auth 0 wants_app refusing_world).2)
  ∧ SocketInfo.authset (heap refusing_world 0) ∩ itervalues_set wants_app
    ⊆ SocketInfo.authset (heap (check_auth 0 wants_app refusing_world).2 0)
  ∧ SocketInfo.authset (heap (check_auth 0 wants_app refusing_world).2 0)
    ⊆ SocketInfo.authset (heap refusing_world 0) ∪ itervalues_set wants_app.
Proof.
  assert (H1 : (check_auth 0 wants_app refusing_world).1
               = Raise (OperationFailure "Authentication failed."))
    by (vm_compute; reflexivity).
  assert (H : check_auth 0 wants_app refusing_world
              = (Raise (OperationFailure "Authentication failed."),
                 (check_auth 0 wants_app refusing_world).2)).
  { destruct (check_auth 0 wants_app refusing_world) as [res w1].
    cbn [fst snd] in *. by rewrite H1. }
  split; [exact H|].
  destruct (check_auth_failure_state 0 wants_app refusing_world _ _ H)
    as (outs_done & ins_done & failed & _ & _ & _ & _ & Hkept & Hnew).
  split; assumption.
Defined.

(** A login that the server accepts is recorded. *)
Lemma authenticate_then_check_auth_witness :
  authenticate 0 cred_app sample_world
  = (Ok tt, (authenticate 0 cred_app sample_world).2)
  ∧ cred_app
    ∈ SocketInfo.authset (heap (authenticate 0 cred_app sample_world).2 0).
Proof.
  assert (H : authenticate 0 cred_app sample_world
              = (Ok tt, (authenticate 0 cred_app sample_world).2))
    by reflexivity.
  split; [exact H|].
  exact (proj1 (proj2 (authenticate_then_check_auth 0 cred_app sample_world)
                  _ H)).
Defined.

(** The handshake fails on the TLS sample: the caller sees a
    [ConnectionFailure]. *)
Lemma connect_tls_failures_witness :
  create_connection tls_world = (Ok tls_socket, set_next_fd 1 tls_world)
  ∧ PoolOptions.ssl_context (Pool.opts (pool tls_world))
    = Some (mk_ssl_context true)
  ∧ connect tls_world
    = (Raise (ConnectionFailure
                "SSL handshake failed. MongoDB may not be configured with SSL support."),
       set_next_fd 1 tls_world).
Proof.
  assert (H1 : create_connection tls_world
               = (Ok tls_socket, set_next_fd 1 tls_world)) by reflexivity.
  assert (H2 : PoolOptions.ssl_context (Pool.opts (pool tls_world))
               = Some (mk_ssl_context true)) by reflexivity.
  split; [exact H1|]. split; [exact H2|].
  exact (proj1 (connect_tls_failures tls_world _ _ _ H1 H2)
           (SocketError "EOF occurred in violation of protocol") eq_refl).
Defined.

(** Connection 0 of the sample world was stamped at time 0, and it is
    time 0. *)
Lemma check_keeps_recent_connection_witness :
  SocketInfo.closed (heap sample_world 0) = false
  ∧ current 0 sample_world
  ∧ Pool._check_interval_seconds (pool sample_world) = Some 1
  ∧ now sample_world - SocketInfo.last_checkout (heap sample_world 0) ≤ 1
  ∧ _check 0 sample_world = (Ok 0%nat, sample_world).
Proof.
  assert (H1 : SocketInfo.closed (heap sample_world 0) = false) by reflexivity.
  assert (H2 : current 0 sample_world) by reflexivity.
  assert (H3 : Pool._check_interval_seconds (pool sample_world) = Some 1)
    by reflexivity.
  assert (H4 : now sample_world
               - SocketInfo.last_checkout (heap sample_world 0) ≤ 1)
    by (vm_compute; discriminate).
  assert (H5 : (1 : Z) ≠ 0) by discriminate.
  split; [exact H1|]. split; [exact H2|]. split; [exact H3|].
  split; [exact H4|].
  exact (check_keeps_recent_connection 0 sample_world H1 H2
           (or_intror (or_introl (ex_intro _ 1 (conj H3 (conj H5 H4)))))).
Defined.

(** Connection 0 is closed: [_check] answers with the new connection 1
    that [connect] makes; where every connection is refused, it raises
    the refusal, and connection 1, idle until then, is closed by the
    reset. *)
Lemma check_replaces_unfit_connection_witness :
  (0 < next_fd stale_world)%nat
  ∧ SocketInfo.closed (heap stale_world 0) = true
  ∧ (∃ w',
       connect stale_world = (Ok 1%nat, w')
       ∧ _check 0 stale_world = (Ok 1%nat, w')
       ∧ SocketInfo.closed (heap w' 1) = false
       ∧ SocketInfo.closed (heap w' 0) = true)
  ∧ (0 < next_fd unreachable_world)%nat
  ∧ SocketInfo.closed (heap unreachable_world 0) = true
  ∧ (∃ w1 w',
       connect unreachable_world
       = (Raise (SocketError "Connection refused"), w1)
       ∧ _check 0 unreachable_world
         = (Raise (SocketError "Connection refused"), w')
       ∧ Pool.pool_id (pool w') = 1
       ∧ Pool.sockets (pool w') = ∅
       ∧ SocketInfo.closed (heap w' 1) = true
       ∧ log w' = [EvReset]).
Proof.
  assert (H1 : (0 < next_fd stale_world)%nat) by (vm_compute; lia).
  assert (H2 : SocketInfo.closed (heap stale_world 0) = true) by reflexivity.
  assert (H3 : (0 < next_fd unreachable_world)%nat) by (vm_compute; lia).
  assert (H4 : SocketInfo.closed (heap unreachable_world 0) = true)
    by reflexivity.
  split; [exact H1|]. split; [exact H2|]. split.
  { pose proof (check_replaces_unfit_connection 0 stale_world H1 (or_introl H2))
      as H.
    cbn zeta in H. rewrite H2 in H.
    assert (Hrun : (connect stale_world).1 = Ok 1%nat)
      by (vm_compute; reflexivity).
    destruct (connect stale_world) as [[r'|e|] w']; cbn [fst] in Hrun;
      [|discriminate Hrun|discriminate Hrun].
    injection Hrun as ->. exists w'.
    destruct H as (Hcheck & _ & _ & Hopen & _ & Hold & _).
    split; [reflexivity|]. split; [exact Hcheck|]. split; assumption. }
  split; [exact H3|]. split; [exact H4|].
  pose proof (check_replaces_unfit_connection 0 unreachable_world H3
                (or_introl H4)) as H.
  cbn zeta in H. rewrite H4 in H.
  assert (Hrun : (connect unreachable_world).1
                 = Raise (SocketError "Connection refused"))
    by (vm_compute; reflexivity).
  destruct (connect unreachable_world) as [[r'|e|] w1]; cbn [fst] in Hrun;
    [discriminate Hrun| |discriminate Hrun].
  injection Hrun as ->. exists w1.
  destruct H as (_ & _ & _ & H). cbn [is_socket_error] in H.
  destruct H as (w' & _ & Hcheck & _ & Hid & Hs & Hidle & Hlog).
  exists w'. split; [reflexivity|]. split; [exact Hcheck|].
  split; [exact Hid|]. split; [exact Hs|].
  split; [apply Hidle; vm_compute; set_solver|exact Hlog].
Defined.

(** The first checkout from the sample pool. *)
Lemma get_socket_no_auth_hands_out_witness :
  _get_socket_no_auth sample_world
  = (Ok 0%nat, (_get_socket_no_auth sample_world).2)
  ∧ SocketInfo.closed (heap (_get_socket_no_auth sample_world).2 0) = false
  ∧ current 0 (_get_socket_no_auth sample_world).2.
Proof.
  assert (H1 : (_get_socket_no_auth sample_world).1 = Ok 0%nat)
    by (vm_compute; reflexivity).
  assert (H : _get_socket_no_auth sample_world
              = (Ok 0%nat, (_get_socket_no_auth sample_world).2)).
  { destruct (_get_socket_no_auth sample_world) as [res w1].
    cbn [fst snd] in *. by rewrite H1. }
  split; [exact H|].
  destruct (get_socket_no_auth_hands_out sample_world _ _ H)
    as (Hopen & Hcur & _).
  split; assumption.
Defined.

(** No permit left and a wait of 100: the caller is told so. *)
Lemma wait_queue_timeout_raises_witness :
  Pool.pid (pool exhausted_world) = getpid exhausted_world
  ∧ Semaphore.permits (semaphore_of exhausted_world) = Some 0
  ∧ PoolOptions.wait_queue_timeout (Pool.opts (pool exhausted_world))
    = Some 100
  ∧ _get_socket_no_auth exhausted_world
    = (Raise (ConnectionFailure
                ("Timed out waiting for socket from pool with max_size "
                 ++ repr (PoolOptions.max_pool_size
                            (Pool.opts (pool exhausted_world)))
                 ++ " and wait_queue_timeout " ++ pretty 100)),
       emit (EvAcquire false) exhausted_world).
Proof.
  assert (H1 : Pool.pid (pool exhausted_world) = getpid exhausted_world)
    by reflexivity.
  assert (H2 : Semaphore.permits (semaphore_of exhausted_world) = Some 0)
    by reflexivity.
  assert (H3 : 0 ≤ 0) by lia.
  assert (H4 : Semaphore.waiter_cap (semaphore_of exhausted_world)
               ≠ Some (Semaphore.blocked (semaphore_of exhausted_world)))
    by (vm_compute; discriminate).
  assert (H5 : PoolOptions.wait_queue_timeout
                 (Pool.opts (pool exhausted_world)) = Some 100)
    by reflexivity.
  split; [exact H1|]. split; [exact H2|]. split; [exact H5|].
  exact (wait_queue_timeout_raises exhausted_world 0 100 H1 H2 H3 H4 H5).
Defined.

(** The idle set of the sample pool over a checkout, a release and a
    scoped checkout. *)
Lemma idle_set_stays_bounded_witness :
  idle_bounded sample_world
  ∧ idle_bounded (run checkout_and_return sample_world).2.
Proof.
  assert (H : idle_bounded sample_world) by (vm_compute; discriminate).
  split; [exact H|].
  exact (proj1 (idle_set_stays_bounded checkout_and_return sample_world H)).
Defined.

(** Connection 0, closed, is released and the pool is used again. *)
Lemma closed_connection_stays_closed_witness :
  (0 < next_fd stale_world)%nat
  ∧ SocketInfo.closed (heap stale_world 0) = true
  ∧ SocketInfo.closed (heap (run release_and_reuse stale_world).2 0) = true.
Proof.
  assert (H1 : (0 < next_fd stale_world)%nat) by (vm_compute; lia).
  assert (H2 : SocketInfo.closed (heap stale_world 0) = true) by reflexivity.
  split; [exact H1|]. split; [exact H2|].
  exact (closed_connection_stays_closed release_and_reuse stale_world 0 H1 H2).
Defined.

(** The first scoped checkout from the sample pool, wanted as
    [cred_admin]. *)
Lemma get_socket_yields_ready_connection_witness :
  get_socket wants_admin 0 3 true ret sample_world
  = (Ok 0%nat, (get_socket wants_admin 0 3 true ret sample_world).2)
  ∧ SocketInfo.closed
      (heap (get_socket wants_admin 0 3 true ret sample_world).2 0) = false
  ∧ SocketInfo.authset
      (heap (get_socket wants_admin 0 3 true ret sample_world).2 0)
    = itervalues_set wants_admin
  ∧ (on_ref 0 min_wire_version
       (get_socket wants_admin 0 3 true ret sample_world).2).1 = Ok 0.
Proof.
  assert (H1 : (get_socket wants_admin 0 3 true ret sample_world).1
               = Ok 0%nat) by (vm_compute; reflexivity).
  assert (H : get_socket wants_admin 0 3 true ret sample_world
              = (Ok 0%nat,
                 (get_socket wants_admin 0 3 true ret sample_world).2)).
  { destruct (get_socket wants_admin 0 3 true ret sample_world) as [res w1].
    cbn [fst snd] in *. by rewrite H1. }
  split; [exact H|].
  destruct (get_socket_yields_ready_connection wants_admin 0 3 sample_world
              _ _ H) as (Hopen & _ & Hauth & Hmin & _).
  split; [exact Hopen|]. split; [exact Hauth|exact Hmin].
Defined.

(** The server refuses the login: the block is not run, the connection
    goes back to the idle set.  The server answers the login with the
    reply to another request: the receive inside [auth] closes the
    connection, which is discarded although the error is an
    [AssertionError]. *)
Lemma authentication_failure_releases_witness :
  (_get_socket_no_auth refusing_fresh_world
   = (Ok 0%nat, (_get_socket_no_auth refusing_fresh_world).2)
   ∧ check_auth 0 wants_admin
       (update 0 (set_wire_version_range 0 3)
          (_get_socket_no_auth refusing_fresh_world).2)
     = (Raise (OperationFailure "Authentication failed."),
        (check_auth 0 wants_admin
           (update 0 (set_wire_version_range 0 3)
              (_get_socket_no_auth refusing_fresh_world).2)).2)
   ∧ ∃ w',
       get_socket wants_admin 0 3 false failing_block refusing_fresh_world
       = (Raise (OperationFailure "Authentication failed."), w')
       ∧ 0%nat ∈ Pool.sockets (pool w')
       ∧ SocketInfo.closed (heap w' 0) = false)
  ∧ (_get_socket_no_auth confused_world
     = (Ok 0%nat, (_get_socket_no_auth confused_world).2)
     ∧ check_auth 0 wants_admin
         (update 0 (set_wire_version_range 0 3)
            (_get_socket_no_auth confused_world).2)
       = (Raise (AssertionError "ids don't match 7 8"),
          (check_auth 0 wants_admin
             (update 0 (set_wire_version_range 0 3)
                (_get_socket_no_auth confused_world).2)).2)
     ∧ ∃ w',
         get_socket wants_admin 0 3 false failing_block confused_world
         = (Raise (AssertionError "ids don't match 7 8"), w')
         ∧ (0%nat ∉ Pool.sockets (pool w'))
         ∧ SocketInfo.closed (heap w' 0) = true).
Proof.
  split.
  - assert (H1 : (_get_socket_no_auth refusing_fresh_world).1 = Ok 0%nat)
      by (vm_compute; reflexivity).
    assert (H : _get_socket_no_auth refusing_fresh_world
                = (Ok 0%nat, (_get_socket_no_auth refusing_fresh_world).2)).
    { destruct (_get_socket_no_auth refusing_fresh_world) as [res w1].
      cbn [fst snd] in *. by rewrite H1. }
    assert (H2 : (check_auth 0 wants_admin
                    (update 0 (set_wire_version_range 0 3)
                       (_get_socket_no_auth refusing_fresh_world).2)).1
                 = Raise (OperationFailure "Authentication failed."))
      by (vm_compute; reflexivity).
    assert (H3 : check_auth 0 wants_admin
                   (update 0 (set_wire_version_range 0 3)
                      (_get_socket_no_auth refusing_fresh_world).2)
                 = (Raise (OperationFailure "Authentication failed."),
                    (check_auth 0 wants_admin
                       (update 0 (set_wire_version_range 0 3)
                          (_get_socket_no_auth refusing_fresh_world).2)).2)).
    { destruct (check_auth 0 wants_admin _) as [res w2].
      cbn [fst snd] in *. by rewrite H2. }
    split; [exact H|]. split; [exact H3|].
    destruct (authentication_failure_releases wants_admin 0 3 false
                failing_block refusing_fresh_world _ _ 0%nat _ H H3)
      as (w' & Hrun & _ & _ & Hkeep).
    exists w'. split; [exact Hrun|].
    apply Hkeep; vm_compute; reflexivity.
  - assert (H1 : (_get_socket_no_auth confused_world).1 = Ok 0%nat)
      by (vm_compute; reflexivity).
    assert (H : _get_socket_no_auth confused_world
                = (Ok 0%nat, (_get_socket_no_auth confused_world).2)).
    { destruct (_get_socket_no_auth confused_world) as [res w1].
      cbn [fst snd] in *. by rewrite H1. }
    assert (H2 : (check_auth 0 wants_admin
                    (update 0 (set_wire_version_range 0 3)
                       (_get_socket_no_auth confused_world).2)).1
                 = Raise (AssertionError "ids don't match 7 8"))
      by (vm_compute; reflexivity).
    assert (H3 : check_auth 0 wants_admin
                   (update 0 (set_wire_version_range 0 3)
                      (_get_socket_no_auth confused_world).2)
                 = (Raise (AssertionError "ids don't match 7 8"),
                    (check_auth 0 wants_admin
                       (update 0 (set_wire_version_range 0 3)
                          (_get_socket_no_auth confused_world).2)).2)).
    { destruct (check_auth 0 wants_admin _) as [res w2].
      cbn [fst snd] in *. by rewrite H2. }
    split; [exact H|]. split; [exact H3|].
    destruct (authentication_failure_releases wants_admin 0 3 false
                failing_block confused_world _ _ 0%nat _ H H3)
      as (w' & Hrun & _ & Hdrop & _).
    exists w'. split; [exact Hrun|].
    destruct Hdrop as [Hc Hidle]; [right; vm_compute; reflexivity|].
    split; [|exact Hc]. apply Hidle. vm_compute. set_solver.
Defined.

(** The peer of the sample pool is silent: a receive in the block finds
    the stream ended, and the connection is discarded. *)
Lemma failed_io_discards_connection_witness :
  get_socket ∅ 0 3 true ret sample_world
  = (Ok 0%nat, (get_socket ∅ 0 3 true ret sample_world).2)
  ∧ (on_ref 0 (receive_message 1 (Some 7))
       (get_socket ∅ 0 3 true ret sample_world).2).1
    = Raise (AutoReconnect "connection closed")
  ∧ ∃ w5,
      get_socket ∅ 0 3 false
        (λ r, let* b := on_ref r (receive_message 1 (Some 7)) in ret b)
        sample_world
      = (Raise (AutoReconnect "connection closed"), w5)
      ∧ SocketInfo.closed (heap w5 0) = true.
Proof.
  assert (H1 : get_socket ∅ 0 3 true ret sample_world
               = (Ok 0%nat, (get_socket ∅ 0 3 true ret sample_world).2))
    by (vm_compute; reflexivity).
  assert (H2 : (on_ref 0 (receive_message 1 (Some 7))
                  (get_socket ∅ 0 3 true ret sample_world).2).1
               = Raise (AutoReconnect "connection closed"))
    by (vm_compute; reflexivity).
  assert (H3 : on_ref 0 (receive_message 1 (Some 7))
                 (get_socket ∅ 0 3 true ret sample_world).2
               = (Raise (AutoReconnect "connection closed"),
                  (on_ref 0 (receive_message 1 (Some 7))
                     (get_socket ∅ 0 3 true ret sample_world).2).2)).
  { destruct (on_ref 0 (receive_message 1 (Some 7)) _) as [res w4].
    cbn [fst snd] in *. by rewrite H2. }
  split; [exact H1|]. split; [exact H2|].
  destruct (proj2 (failed_io_discards_connection ∅ 0 3 false sample_world
                     _ _ 0%nat _ H1) 1 (Some 7) ret H3)
    as (w5 & Hrun & Hclosed & _).
  exists w5. split; [exact Hrun|exact Hclosed].
Defined.

(** On the rejecting network the IPv6 candidate is refused, the first
    IPv4 candidate raises [OverflowError], and the second is not tried. *)
Lemma create_connection_stops_at_other_error_witness :
  endswith (Pool.pair (pool rejecting_world)).1 ".sock" = false
  ∧ ∃ n',
      create_connection rejecting_world
      = (Raise (OtherException "OverflowError" "port must be 0-65535."),
         set_next_fd n' rejecting_world)
      ∧ (next_fd rejecting_world ≤ n' ≤ next_fd rejecting_world + 1 + 1)%nat.
Proof.
  assert (H : endswith (Pool.pair (pool rejecting_world)).1 ".sock" = false)
    by reflexivity.
  split; [exact H|].
  refine (create_connection_stops_at_other_error rejecting_world
            [mk_addrinfo AF_INET6 1 6 EmptyString (InetAddr "db.example" 27017)]
            [mk_addrinfo AF_INET 1 6 EmptyString (InetAddr "db.example" 27017)]
            (mk_addrinfo AF_INET 1 6 EmptyString (InetAddr "db.example" 27017))
            _ H eq_refl _ eq_refl eq_refl).
  constructor; [|constructor].
  exists (SocketError "Address family not supported"). split; reflexivity.
Defined.

(** Connection 0, idle and silent, is checked out and released. *)
Lemma checkout_release_round_trip_witness :
  Pool.pid (pool idle_world) = getpid idle_world
  ∧ head (set_iter (ref_order idle_world) (Pool.sockets (pool idle_world)))
    = Some 0%nat
  ∧ idle_bounded idle_world
  ∧ ∃ w1 w2,
      _get_socket_no_auth idle_world = (Ok 0%nat, w1)
      ∧ maybe_return_socket 0 w1 = (Ok tt, w2)
      ∧ Pool.sockets (pool w2) = Pool.sockets (pool idle_world)
      ∧ semaphore_of w2 = semaphore_of idle_world.
Proof.
  assert (H1 : Pool.pid (pool idle_world) = getpid idle_world) by reflexivity.
  assert (H2 : SocketInfo.closed (heap idle_world 0) = false) by reflexivity.
  assert (H3 : current 0 idle_world) by reflexivity.
  assert (H4 : head (set_iter (ref_order idle_world)
                       (Pool.sockets (pool idle_world))) = Some 0%nat)
    by (vm_compute; reflexivity).
  assert (H5 : _closed (SocketInfo.sock (heap idle_world 0)) = false)
    by reflexivity.
  assert (H6 : (_socket_semaphore_acquire
                  (PoolOptions.wait_queue_timeout (Pool.opts (pool idle_world)))
                  idle_world).1 = Ok true) by reflexivity.
  assert (H7 : idle_bounded idle_world) by (vm_compute; discriminate).
  split; [exact H1|]. split; [exact H4|]. split; [exact H7|].
  destruct (checkout_release_round_trip 0 idle_world H1 H2 H3 H4 H5 H6 H7)
    as (w1 & w2 & Hget & Hret & _ & Hidle & Hsem & _).
  exists w1, w2. split; [exact Hget|]. split; [exact Hret|].
  split; [exact Hidle|exact Hsem].
Defined.

(** The first checkout from the sample pool, newly made. *)
Lemma fresh_pool_first_checkout_witness :
  pool sample_world
  = Pool_init ("db.example", 27017) sample_options (getpid sample_world)
  ∧ ∃ w1,
      acquired sample_world w1
      ∧ match connect w1 with
        | (Ok r, w2) =>
            _get_socket_no_auth sample_world
            = (Ok r, update r (SocketInfo.set_last_checkout (now w2)) w2)
        | (Raise e, w2) =>
            _get_socket_no_auth sample_world
            = (Raise e, (_socket_semaphore_release w2).2)
        | (Hang, w2) => _get_socket_no_auth sample_world = (Hang, w2)
        end.
Proof.
  assert (H1 : pool sample_world
               = Pool_init ("db.example", 27017) sample_options
                           (getpid sample_world)) by reflexivity.
  assert (H2 : ∀ n, PoolOptions.max_pool_size sample_options = Some n → 0 < n).
  { intros n [= <-]. reflexivity. }
  assert (H3 : Semaphore.waiter_cap (Pool._socket_semaphore (pool sample_world))
               ≠ Some 0) by (vm_compute; discriminate).
  split; [exact H1|].
  destruct (fresh_pool_first_checkout _ _ sample_world H1 H2 H3)
    as (_ & _ & w1 & Hacq & _ & _ & _ & Hget).
  exists w1. split; [exact Hacq|exact Hget].
Defined.

(** A block that does nothing: the connection goes back to the idle set. *)
Lemma block_success_release_witness :
  get_socket ∅ 0 3 true ret sample_world
  = (Ok 0%nat, (get_socket ∅ 0 3 true ret sample_world).2)
  ∧ ∃ w5,
      get_socket ∅ 0 3 false (λ _, ret tt) sample_world = (Ok tt, w5)
      ∧ 0%nat ∈ Pool.sockets (pool w5).
Proof.
  assert (H1 : get_socket ∅ 0 3 true ret sample_world
               = (Ok 0%nat, (get_socket ∅ 0 3 true ret sample_world).2))
    by (vm_compute; reflexivity).
  assert (H2 : (λ _ : nat, @ret World unit tt) 0%nat
                 (get_socket ∅ 0 3 true ret sample_world).2
               = (Ok tt, (get_socket ∅ 0 3 true ret sample_world).2))
    by reflexivity.
  split; [exact H1|].
  destruct (proj2 (block_success_release ∅ 0 3 (λ _, ret tt) sample_world
                     _ _ 0%nat tt H1 H2))
    as (w5 & Hrun & _ & _ & Hidle & _).
  exists w5. split; [exact Hrun|].
  apply Hidle; vm_compute; reflexivity.
Defined.
